(** * gh-issue-jira-sync: the sync script, embedded and verified

    A shallow embedding of [scripts/sync.js] (GitHub Issue -> Jira sync):
    the configuration, the label codec, the field mapper, the body parser,
    the ADF description builder, the single-issue orchestrator [syncIssue],
    the bulk driver [bulkSync] and the entry point [main], together with
    the properties the specification states about them and further
    properties the code shows.

    Conventions of the embedding.
    - A JavaScript string is a [string]; one [ascii] stands for one UTF-16
      code unit in the range 0..255, so [length] is the JavaScript
      [.length] on such strings.
    - A value that may be [undefined], [null] or a string is a [jsstr].
    - A regular expression is a list of [atom]s run by a backtracking
      matcher that tries alternatives in the order ECMAScript does.
    - An [async] function is a computation [M A]: it is given the state of
      the outside world (GitHub, Jira, the runner's file system and clock),
      performs calls on it, and ends by returning a value or throwing. *)

From Stdlib Require Import List String Ascii Bool Arith NArith Lia.
From Stdlib Require Import Numbers.DecimalString.
Import ListNotations.
Open Scope list_scope.
Open Scope string_scope.

Set Implicit Arguments.
Set Warnings "-register-all".

(* ------------------------------------------------------------------ *)
(** * JavaScript values                                                 *)
(* ------------------------------------------------------------------ *)

Module Js.

(** A property that holds a string in the happy case: [undefined] when
    the property is missing, [null] when the API sends an explicit null. *)
Inductive jsstr :=
| Undefined
| Null
| Str (s : string).

(** What a thrown value is, as far as the script looks at it: the class
    of the error and its [message]. *)
Inductive thrown :=
| Error (message : string)
| TypeError (message : string).

Definition message_of (e : thrown) : string :=
  match e with
  | Error m => m
  | TypeError m => m
  end.

(** The result of reading a property of an object literal by a computed
    name: an own string-valued property, a member inherited from
    [Object.prototype], or [undefined]. *)
Inductive value :=
| VUndefined
| VString (s : string)
| VInherited (member : string).

Definition truthy (v : value) : bool :=
  match v with
  | VUndefined => false
  | VString s => negb (s =? "")
  | VInherited _ => true
  end.

(** The names every ordinary object inherits from [Object.prototype]. *)
Definition object_prototype_members : list string :=
  [ "constructor"; "__defineGetter__"; "__defineSetter__"; "hasOwnProperty";
    "__lookupGetter__"; "__lookupSetter__"; "isPrototypeOf";
    "propertyIsEnumerable"; "toString"; "valueOf"; "__proto__";
    "toLocaleString" ].

Fixpoint own_property (o : list (string * string)) (k : string) : option string :=
  match o with
  | [] => None
  | (k', v) :: o' => if k' =? k then Some v else own_property o' k
  end.

Definition mem_string (k : string) (l : list string) : bool :=
  existsb (fun m => m =? k) l.

(** [o[k]] for an object literal [o] with string-valued own properties. *)
Definition get (o : list (string * string)) (k : string) : value :=
  match own_property o k with
  | Some v => VString v
  | None => if mem_string k object_prototype_members then VInherited k else VUndefined
  end.

(** [x || d] for an optional string [x] and a string [d]. *)
Definition or_else (x : option string) (d : string) : string :=
  match x with
  | Some s => if s =? "" then d else s
  | None => d
  end.

(** A value inside a template literal: a string as it is; an inherited
    member as the text of that function, which for [constructor] is the
    function [Object]; [__proto__] as the text of the prototype object. *)
Definition to_string (v : value) : string :=
  match v with
  | VUndefined => "undefined"
  | VString s => s
  | VInherited m =>
      if m =? "__proto__" then "[object Object]"
      else if m =? "constructor" then "function Object() { [native code] }"
      else "function " ++ m ++ "() { [native code] }"
  end.

(** An optional string in a condition: the string when it is truthy. *)
Definition if_truthy (x : option string) : option string :=
  match x with
  | Some s => if s =? "" then None else Some s
  | None => None
  end.

(** Decimal rendering of a number inside a template literal. *)
Definition of_nat (n : nat) : string := NilZero.string_of_uint (Nat.to_uint n).

End Js.

(* ------------------------------------------------------------------ *)
(** * Strings                                                           *)
(* ------------------------------------------------------------------ *)

Module Str.

Definition code (c : ascii) : nat := nat_of_ascii c.

Definition in_range (lo hi : nat) (c : ascii) : bool :=
  Nat.leb lo (code c) && Nat.leb (code c) hi.

Definition is_upper (c : ascii) : bool := in_range 65 90 c.
Definition is_lower (c : ascii) : bool := in_range 97 122 c.
Definition is_digit (c : ascii) : bool := in_range 48 57 c.
Definition is_upper_or_digit (c : ascii) : bool := is_upper c || is_digit c.

(** [\w] *)
Definition is_word (c : ascii) : bool :=
  is_upper c || is_lower c || is_digit c || Nat.eqb (code c) 95.

(** [\s], which is also the set [trim] strips: TAB LF VT FF CR, space and
    the no-break space. *)
Definition is_space (c : ascii) : bool :=
  in_range 9 13 c || Nat.eqb (code c) 32 || Nat.eqb (code c) 160.

(** [.] without the [s] flag: anything but a line terminator. *)
Definition is_dot (c : ascii) : bool :=
  negb (Nat.eqb (code c) 10 || Nat.eqb (code c) 13).

Definition is_char (a : ascii) (c : ascii) : bool := Ascii.eqb c a.
Definition is_any (c : ascii) : bool := true.

(** [s.slice(n)] for [0 <= n]. *)
Fixpoint slice (n : nat) (s : string) : string :=
  match n, s with
  | O, _ => s
  | S n', String _ s' => slice n' s'
  | S _, EmptyString => EmptyString
  end.

(** The first [n] characters: [s.substring(0, n)]. *)
Fixpoint take (n : nat) (s : string) : string :=
  match n, s with
  | S n', String c s' => String c (take n' s')
  | _, _ => EmptyString
  end.

Fixpoint trimStart (s : string) : string :=
  match s with
  | String c s' => if is_space c then trimStart s' else s
  | EmptyString => EmptyString
  end.

Fixpoint trimEnd (s : string) : string :=
  match s with
  | String c s' =>
      match trimEnd s' with
      | EmptyString => if is_space c then EmptyString else String c EmptyString
      | t => String c t
      end
  | EmptyString => EmptyString
  end.

Definition trim (s : string) : string := trimEnd (trimStart s).

Fixpoint all (p : ascii -> bool) (s : string) : bool :=
  match s with
  | String c s' => p c && all p s'
  | EmptyString => true
  end.

(** [parts.join(sep)] *)
Fixpoint join (sep : string) (parts : list string) : string :=
  match parts with
  | [] => ""
  | [p] => p
  | p :: ps => p ++ sep ++ join sep ps
  end.

End Str.

(* ------------------------------------------------------------------ *)
(** * Regular expressions                                               *)
(* ------------------------------------------------------------------ *)

Module Regex.

(** The fragment of the ECMAScript pattern language the script uses.
    Quantifiers are only ever applied to a single character class, and a
    pattern has at most one capturing group. *)
Inductive atom :=
| Bol                                            (* ^ *)
| Eol                                            (* $ *)
| Cls (p : ascii -> bool)                        (* one character of a class *)
| Opt (p : ascii -> bool)                        (* x? *)
| Rep (greedy : bool) (min : nat) (p : ascii -> bool)   (* x* x+ x*? x+? *)
| Open                                           (* ( *)
| Close.                                         (* ) *)

Definition regex := list atom.

Fixpoint lit (s : string) : regex :=
  match s with
  | String c s' => Cls (Str.is_char c) :: lit s'
  | EmptyString => []
  end.

(** A successful match: where it ends, what is left of the input, and
    the text of group 1 if the group took part. *)
Record found := {
  stop : nat;
  rest : string;
  group1 : option string
}.

(** Matcher state for the group: the input at the opening parenthesis and
    the captured text once the group is closed. *)
Record groups := {
  opened : option string;
  captured : option string
}.

Definition no_groups : groups := {| opened := None; captured := None |}.

Definition close_group (g : groups) (s : string) : groups :=
  match opened g with
  | Some s0 => {| opened := opened g;
                  captured := Some (Str.take (String.length s0 - String.length s) s0) |}
  | None => g
  end.

Definition orelse (a : option found) (b : option found) : option found :=
  match a with
  | Some r => Some r
  | None => b
  end.

(** [p{min,}] followed by the continuation [k]; the greedy form tries one
    more character first, the lazy form tries the continuation first. *)
Fixpoint rep (k : nat -> string -> groups -> option found)
         (greedy : bool) (min : nat) (p : ascii -> bool)
         (pos : nat) (s : string) (g : groups) {struct s} : option found :=
  match min with
  | S min' =>
      match s with
      | String a s' => if p a then rep k greedy min' p (S pos) s' g else None
      | EmptyString => None
      end
  | O =>
      if greedy then
        match s with
        | String a s' =>
            if p a then
              match rep k greedy O p (S pos) s' g with
              | Some r => Some r
              | None => k pos s g
              end
            else k pos s g
        | EmptyString => k pos s g
        end
      else
        match k pos s g with
        | Some r => Some r
        | None =>
            match s with
            | String a s' => if p a then rep k greedy O p (S pos) s' g else None
            | EmptyString => None
            end
        end
  end.

(** Match [re] at position [pos], where [s] is the input from [pos] on. *)
Fixpoint exec_at (re : regex) (pos : nat) (s : string) (g : groups) {struct re}
  : option found :=
  match re with
  | [] => Some {| stop := pos; rest := s; group1 := captured g |}
  | Bol :: re' => if Nat.eqb pos 0 then exec_at re' pos s g else None
  | Eol :: re' =>
      match s with
      | EmptyString => exec_at re' pos s g
      | String _ _ => None
      end
  | Cls p :: re' =>
      match s with
      | String a s' => if p a then exec_at re' (S pos) s' g else None
      | EmptyString => None
      end
  | Opt p :: re' =>
      match s with
      | String a s' =>
          if p a then orelse (exec_at re' (S pos) s' g) (exec_at re' pos s g)
          else exec_at re' pos s g
      | EmptyString => exec_at re' pos s g
      end
  | Rep greedy min p :: re' => rep (exec_at re') greedy min p pos s g
  | Open :: re' => exec_at re' pos s {| opened := Some s; captured := captured g |}
  | Close :: re' => exec_at re' pos s (close_group g s)
  end.

(** The leftmost match at or after [pos]: its start and the match. *)
Fixpoint search (re : regex) (pos : nat) (s : string) : option (nat * found) :=
  match exec_at re pos s no_groups with
  | Some r => Some (pos, r)
  | None =>
      match s with
      | String _ s' => search re (S pos) s'
      | EmptyString => None
      end
  end.

(** [re.test(s)] *)
Definition test (re : regex) (s : string) : bool :=
  match search re 0 s with
  | Some _ => true
  | None => false
  end.

(** [s.match(re)], reduced to what the callers read: [m[1]] when there is
    a match ([None] when there is none; in the patterns of the script the
    group takes part in every match). *)
Definition match_group1 (re : regex) (s : string) : option string :=
  match search re 0 s with
  | Some (_, r) => group1 r
  | None => None
  end.

(** [s.replace(re, '')] for a pattern without the [g] flag. *)
Definition remove_first (re : regex) (s : string) : string :=
  match search re 0 s with
  | Some (start, r) => Str.take start s ++ rest r
  | None => s
  end.

(** [s.replace(re, '')] for a pattern with the [g] flag.  The scan walks
    the input once: [skip] counts the characters of the current match
    still to be dropped; at every other position the pattern is tried
    (the position counts from the start of the whole input, so [^] holds
    at position 0 only); after an empty match the scan moves on by one
    character, which is kept. *)
Fixpoint remove_all_from (re : regex) (pos : nat) (skip : nat) (s : string) : string :=
  match skip with
  | S skip' =>
      match s with
      | String _ s' => remove_all_from re (S pos) skip' s'
      | EmptyString => EmptyString
      end
  | O =>
      match s with
      | String c s' =>
          match exec_at re pos s no_groups with
          | Some r =>
              match stop r - pos with
              | O => String c (remove_all_from re (S pos) O s')
              | S n => remove_all_from re (S pos) n s'
              end
          | None => String c (remove_all_from re (S pos) O s')
          end
      | EmptyString => EmptyString
      end
  end.

Definition remove_all (re : regex) (s : string) : string :=
  remove_all_from re 0 0 s.

End Regex.

Import Js.
Import Regex.

Definition LF : ascii := "010"%char.
Definition backtick : ascii := "096"%char.

(* ------------------------------------------------------------------ *)
(** * Data model                                                        *)
(* ------------------------------------------------------------------ *)

(** A label as the GitHub API returns it; the script reads its [name]. *)
Record Label := { name : string }.

(** A GitHub issue as returned by [issues.get] and [issues.listForRepo].
    [body] is [null] for an issue without a description; [pull_request] is
    set on the entries of a listing that are pull requests. *)
Record Issue := {
  number : nat;
  title : string;
  body : jsstr;
  state : string;
  labels : list Label;
  html_url : string;
  pull_request : bool
}.

(** The module-level [ENV] object, and [process.env.GITHUB_OUTPUT], which
    [syncIssue] reads on its own. *)
Record Env := {
  GITHUB_TOKEN : string;
  GH_REPO : string;
  GH_ISSUE_NUMBER : option string;
  JIRA_BASE_URL : string;
  JIRA_USER_EMAIL : string;
  JIRA_API_TOKEN : string;
  JIRA_PROJECT_KEY : string;
  DRY_RUN : bool;
  BULK_SYNC : bool;
  CLOSE_AFTER_SYNC : bool;
  JIRA_ISSUE_TYPE_DEFAULT : string;
  GITHUB_OUTPUT : option string
}.

(** [process.env]: a variable is unset or holds a string. *)
Definition process_env := string -> option string.

Definition is_value (x : option string) (v : string) : bool :=
  match x with
  | Some s => s =? v
  | None => false
  end.

(** The [ENV] literal and the validation loop after it. *)
Definition loadEnv (env : process_env) : thrown + Env :=
  let base_url := remove_first (lit "/" ++ [Eol])%list (or_else (env "JIRA_BASE_URL") "") in
  let required :=
    [ ("GITHUB_TOKEN", or_else (env "GITHUB_TOKEN") "");
      ("GH_REPO", or_else (env "GH_REPO") "");
      ("JIRA_BASE_URL", base_url);
      ("JIRA_USER_EMAIL", or_else (env "JIRA_USER_EMAIL") "");
      ("JIRA_API_TOKEN", or_else (env "JIRA_API_TOKEN") "");
      ("JIRA_PROJECT_KEY", or_else (env "JIRA_PROJECT_KEY") "") ] in
  match find (fun kv => snd kv =? "") required with
  | Some (key, _) => inl (Error ("Missing required environment variable: " ++ key))
  | None =>
      inr {| GITHUB_TOKEN := or_else (env "GITHUB_TOKEN") "";
             GH_REPO := or_else (env "GH_REPO") "";
             GH_ISSUE_NUMBER := env "GH_ISSUE_NUMBER";
             JIRA_BASE_URL := base_url;
             JIRA_USER_EMAIL := or_else (env "JIRA_USER_EMAIL") "";
             JIRA_API_TOKEN := or_else (env "JIRA_API_TOKEN") "";
             JIRA_PROJECT_KEY := or_else (env "JIRA_PROJECT_KEY") "";
             DRY_RUN := is_value (env "DRY_RUN") "true";
             BULK_SYNC := is_value (env "BULK_SYNC") "true";
             CLOSE_AFTER_SYNC := negb (is_value (env "CLOSE_AFTER_SYNC") "false");
             JIRA_ISSUE_TYPE_DEFAULT := or_else (env "JIRA_ISSUE_TYPE_DEFAULT") "Task";
             GITHUB_OUTPUT := env "GITHUB_OUTPUT" |}
  end.

(* ------------------------------------------------------------------ *)
(** * Mappings                                                          *)
(* ------------------------------------------------------------------ *)

Definition PRIORITY_MAP : list (string * string) :=
  [ ("priority:critical", "Highest");
    ("priority:high", "High");
    ("priority:medium", "Medium");
    ("priority:low", "Low") ].

Definition TYPE_MAP : list (string * string) :=
  [ ("security", "Bug");
    ("bug", "Bug");
    ("tech-debt", "Task");
    ("enhancement", "Story");
    ("feature", "Story") ].

(* ------------------------------------------------------------------ *)
(** * Label helpers                                                     *)
(* ------------------------------------------------------------------ *)

(** [/^jira:[A-Z][A-Z0-9]+-\d+$/] *)
Definition sync_label_re : regex :=
  ([Bol] ++ lit "jira:"
     ++ [Cls Str.is_upper; Rep true 1 Str.is_upper_or_digit]
     ++ lit "-" ++ [Rep true 1 Str.is_digit; Eol])%list.

Definition getJiraKeyFromLabels (labels : list Label) : option string :=
  match find (fun l => test sync_label_re (name l)) labels with
  | Some l => Some (Str.slice 5 (name l))
  | None => None
  end.

Fixpoint derivePriority (labels : list Label) : value :=
  match labels with
  | l :: ls =>
      if truthy (get PRIORITY_MAP (name l)) then get PRIORITY_MAP (name l)
      else derivePriority ls
  | [] => VString "Medium"
  end.

Fixpoint deriveIssueType (env : Env) (labels : list Label) : value :=
  match labels with
  | l :: ls =>
      if truthy (get TYPE_MAP (name l)) then get TYPE_MAP (name l)
      else deriveIssueType env ls
  | [] => VString (JIRA_ISSUE_TYPE_DEFAULT env)
  end.

(* ------------------------------------------------------------------ *)
(** * Body parsing                                                      *)
(* ------------------------------------------------------------------ *)

Record Meta := {
  todoText : option string;
  codeBlock : option string;
  file : option string;
  line : option string;
  branch : option string;
  commit : option string;
  introduced : option string;
  author : option string
}.

Definition not_tick_bar_newline (c : ascii) : bool :=
  negb (Ascii.eqb c backtick || Ascii.eqb c "|"%char || Ascii.eqb c LF).

(** [new RegExp(`\\|\\s*${name}\\s*\\|\\s*\`?([^\`|\\n]+?)\`?\\s*\\|`)] *)
Definition field_re (name : string) : regex :=
  (lit "|" ++ [Rep true 0 Str.is_space] ++ lit name ++ [Rep true 0 Str.is_space]
     ++ lit "|"
     ++ [Rep true 0 Str.is_space; Opt (Str.is_char backtick);
         Open; Rep false 1 not_tick_bar_newline; Close;
         Opt (Str.is_char backtick); Rep true 0 Str.is_space]
     ++ lit "|")%list.

(** [/##\s*TODO Comment\s*\n+>\s*(.+)/] *)
Definition todo_re : regex :=
  (lit "##" ++ [Rep true 0 Str.is_space] ++ lit "TODO Comment"
     ++ [Rep true 0 Str.is_space; Rep true 1 (Str.is_char LF)] ++ lit ">"
     ++ [Rep true 0 Str.is_space; Open; Rep true 1 Str.is_dot; Close])%list.

(** [/##\s*Code Context\s*\n+(```[\s\S]*?```)/] *)
Definition code_re : regex :=
  (lit "##" ++ [Rep true 0 Str.is_space] ++ lit "Code Context"
     ++ [Rep true 0 Str.is_space; Rep true 1 (Str.is_char LF); Open]
     ++ lit "```" ++ [Rep false 0 Str.is_any] ++ lit "```" ++ [Close])%list.

(** [parseBody(body = '')]: the default stands in for [undefined] only; on
    [null] the first [body.match] throws. *)
Definition parseBody (body : jsstr) : thrown + Meta :=
  let body :=
    match body with
    | Undefined => Some ""
    | Null => None
    | Str s => Some s
    end in
  match body with
  | None => inl (TypeError "Cannot read properties of null (reading 'match')")
  | Some body =>
      let field := fun name =>
        match match_group1 (field_re name) body with
        | Some m1 => Some (Str.trim m1)
        | None => None
        end in
      let todoMatch := match_group1 todo_re body in
      let codeMatch := match_group1 code_re body in
      inr {| todoText := match todoMatch with
                         | Some m1 => Some (Str.trim m1)
                         | None => None
                         end;
             codeBlock := codeMatch;
             file := field "File";
             line := field "Line";
             branch := field "Branch";
             commit := field "Commit";
             introduced := field "Introduced";
             author := field "Author" |}
  end.

(* ------------------------------------------------------------------ *)
(** * Jira ADF description builder                                      *)
(* ------------------------------------------------------------------ *)

Module Adf.

Inductive mark := em | strong.

(** The nodes of the Atlassian Document Format the script emits; the
    constructor is the node's [type], its arguments are [attrs], [text],
    [marks] and [content]. *)
Inductive node :=
| text (t : string) (marks : list mark)
| paragraph (content : list node)
| blockquote (content : list node)
| heading (level : nat) (content : list node)
| table (isNumberColumnEnabled : bool) (layout : string) (content : list node)
| tableRow (content : list node)
| tableHeader (content : list node)
| tableCell (content : list node)
| codeBlock (language : string) (content : list node).

Record doc := {
  version : nat;
  type : string;
  content : list node
}.

End Adf.

Definition adfTableRow (cells : list string) (header : bool) : Adf.node :=
  Adf.tableRow
    (map (fun text =>
            (if header then Adf.tableHeader else Adf.tableCell)
              [Adf.paragraph [Adf.text text []]])
         cells).

(** [v && [k, v]]: the pair when [v] is a non-empty string, a falsy value
    otherwise, which [filter(Boolean)] then drops. *)
Definition and_row (k : string) (v : option string) : option (string * string) :=
  match if_truthy v with
  | Some s => Some (k, s)
  | None => None
  end.

Fixpoint filter_Boolean {A : Type} (l : list (option A)) : list A :=
  match l with
  | Some x :: l' => x :: filter_Boolean l'
  | None :: l' => filter_Boolean l'
  | [] => []
  end.

(** [/```(\w+)/] *)
Definition fence_lang_re : regex :=
  (lit "```" ++ [Open; Rep true 1 Str.is_word; Close])%list.

(** [/^```\w*\n?/] *)
Definition fence_open_re : regex :=
  ([Bol] ++ lit "```" ++ [Rep true 0 Str.is_word; Opt (Str.is_char LF)])%list.

(** [/\n?```$/] *)
Definition fence_close_re : regex :=
  ([Opt (Str.is_char LF)] ++ lit "```" ++ [Eol])%list.

Definition buildDescription (issue : Issue) (meta : Meta) : Adf.doc :=
  let ghUrl := html_url issue in
  let todoText := or_else (todoText meta) (title issue) in
  let metaRows :=
    filter_Boolean
      [ and_row "File" (file meta);
        and_row "Line" (line meta);
        and_row "Branch" (branch meta);
        and_row "Commit" (commit meta);
        and_row "Introduced" (introduced meta);
        and_row "Author" (author meta);
        Some ("GitHub Issue", ghUrl) ] in
  let content :=
    [ Adf.paragraph
        [ Adf.text "Auto-migrated from GitHub Issues by " [Adf.em];
          Adf.text "gh-issue-jira-sync" [Adf.em; Adf.strong];
          Adf.text "." [Adf.em] ];
      Adf.blockquote [Adf.paragraph [Adf.text todoText []]];
      Adf.heading 3 [Adf.text "Details" []];
      Adf.table false "default"
        (adfTableRow ["Field"; "Value"] true
           :: map (fun kv => adfTableRow [fst kv; snd kv] false) metaRows) ] in
  let content :=
    match if_truthy (codeBlock meta) with
    | Some block =>
        let lang := or_else (match_group1 fence_lang_re block) "text" in
        let code := remove_first fence_close_re (remove_first fence_open_re block) in
        (content ++
           [ Adf.heading 3 [Adf.text "Code Context" []];
             Adf.codeBlock lang [Adf.text code []] ])%list
    | None => content
    end in
  {| Adf.version := 1; Adf.type := "doc"; Adf.content := content |}.

(* ------------------------------------------------------------------ *)
(** * The Jira payload                                                  *)
(* ------------------------------------------------------------------ *)

Record Payload := {
  project_key : string;
  summary : string;
  description : Adf.doc;
  issuetype_name : value;
  priority_name : value;
  payload_labels : list string
}.

Definition not_close_bracket (c : ascii) : bool := negb (Ascii.eqb c "]"%char).

(** [/^\[[^\]]*\]\s*/g] *)
Definition title_prefix_re : regex :=
  ([Bol] ++ lit "[" ++ [Rep true 0 not_close_bracket] ++ lit "]"
     ++ [Rep true 0 Str.is_space])%list.

(** The [summary] of [createJiraIssue]:
    [issue.title.replace(/^\[[^\]]*\]\s*/g, '').trim().substring(0, 255)]. *)
Definition summary_of (title : string) : string :=
  Str.take 255 (Str.trim (remove_all title_prefix_re title)).

(* ------------------------------------------------------------------ *)
(** * The outside world                                                 *)
(* ------------------------------------------------------------------ *)

(** What [fetch] resolves to, as far as [jira] and its caller read it:
    [res.ok], [res.status], [res.statusText], [await res.text()] and
    [await res.json()], which is rejected or resolves to a body of which the
    caller reads the [key]; a body that parses is taken to carry a string
    there, as the create response of Jira does. *)
Record HttpResponse := {
  ok : bool;
  status : nat;
  statusText : string;
  response_text : string;
  json_key : thrown + string
}.

(** The calls the script makes on its collaborators, indexed by what a
    fulfilled call resolves to.  Every [octokit] call is made with the
    [owner] and [repo] of the run and every [fetch] with [JIRA_HEADERS];
    these constants are not repeated in the calls. *)
Inductive Call : Type -> Type :=
| issues_get (issue_number : nat) : Call Issue
| issues_listForRepo (state : string) (per_page page : nat) : Call (list Issue)
| issues_getLabel (name : string) : Call unit
| issues_createLabel (name color description : string) : Call unit
| issues_addLabels (issue_number : nat) (labels : list string) : Call unit
| issues_createComment (issue_number : nat) (body : string) : Call unit
| issues_update (issue_number : nat) (state state_reason : string) : Call unit
| fetch (url method : string) (body : option Payload) : Call HttpResponse
| fs_appendFileSync (path data : string) : Call unit.

Inductive LogArg :=
| LText (s : string)
| LJson (p : Payload).

(** What a run does, in order: calls (with what they resolved to or were
    rejected with), lines on the console, reads of the clock and timer
    waits. *)
Inductive Event :=
| Called (T : Type) (c : Call T) (answer : thrown + T)
| Logged (args : list LogArg)
| ClockRead
| Slept (ms : nat).

Arguments Called [T] c answer.

(** The write operations on the two trackers: the Jira request (anything
    but a GET), label creation, label attach, comment, state update.  The
    line appended to the runner's output file is not a tracker write. *)
Definition is_write (e : Event) : bool :=
  match e with
  | Called c _ =>
      match c with
      | issues_createLabel _ _ _ => true
      | issues_addLabels _ _ => true
      | issues_createComment _ _ => true
      | issues_update _ _ _ => true
      | fetch _ method _ => negb (method =? "GET")
      | _ => false
      end
  | _ => false
  end.

Definition writes (t : list Event) : list Event := filter is_write t.

Definition fulfilled_of {A : Type} (r : thrown + A) : bool :=
  match r with
  | inl _ => false
  | inr _ => true
  end.

Definition fulfilled (e : Event) : bool :=
  match e with
  | Called _ r => fulfilled_of r
  | _ => true
  end.

(** Results of [syncIssue]: [{ status, reason, jiraKey }]. *)
Record SyncResult := {
  sync_status : string;
  reason : option string;
  jiraKey : option string
}.

Record Summary := {
  synced : nat;
  skipped : nat;
  failed : nat
}.

(* ------------------------------------------------------------------ *)
(** * Async functions                                                   *)
(* ------------------------------------------------------------------ *)

Section Script.

(** The collaborators: a state of the world, how it answers a call
    (fulfilment or rejection, and the state after), and its clock. *)
Variable World : Type.
Variable respond : forall T : Type, World -> Call T -> World * (thrown + T).
Variable toISOString : World -> string.

Record Outcome (A : Type) := {
  final : World;
  events : list Event;
  result : thrown + A
}.

Definition M (A : Type) := World -> Outcome A.

Definition ret {A : Type} (a : A) : M A :=
  fun w => {| final := w; events := []; result := inr a |}.

Definition throw {A : Type} (e : thrown) : M A :=
  fun w => {| final := w; events := []; result := inl e |}.

Definition bind {A B : Type} (m : M A) (f : A -> M B) : M B :=
  fun w =>
    let o := m w in
    match result o with
    | inl e => {| final := final o; events := events o; result := inl e |}
    | inr a =>
        let o' := f a (final o) in
        {| final := final o';
           events := (events o ++ events o')%list;
           result := result o' |}
    end.

(** [try { m } catch (e) { h(e) }] *)
Definition try_catch {A : Type} (m : M A) (h : thrown -> M A) : M A :=
  fun w =>
    let o := m w in
    match result o with
    | inl e =>
        let o' := h e (final o) in
        {| final := final o';
           events := (events o ++ events o')%list;
           result := result o' |}
    | inr _ => o
    end.

(** [await] of a call on a collaborator. *)
Definition call {T : Type} (c : Call T) : M T :=
  fun w =>
    let wr := respond w c in
    {| final := fst wr;
       events := [Called c (snd wr)];
       result := snd wr |}.

Definition lift {A : Type} (r : thrown + A) : M A :=
  fun w => {| final := w; events := []; result := r |}.

Definition log (args : list LogArg) : M unit :=
  fun w => {| final := w; events := [Logged args]; result := inr tt |}.

Definition say (s : string) : M unit := log [LText s].

(** [new Date().toISOString()] *)
Definition now : M string :=
  fun w => {| final := w; events := [ClockRead]; result := inr (toISOString w) |}.

(** [await new Promise((r) => setTimeout(r, ms))] *)
Definition sleep (ms : nat) : M unit :=
  fun w => {| final := w; events := [Slept ms]; result := inr tt |}.

End Script.

Arguments ret {World A} a.
Arguments throw {World A} e.
Arguments lift {World A} r.
Arguments log {World} args.
Arguments say {World} s.
Arguments sleep {World} ms.

Declare Scope script_scope.
Delimit Scope script_scope with script.
Notation "x <- m ;; k" := (bind m (fun x => k))
  (at level 61, m at next level, right associativity) : script_scope.
Notation "m ;; k" := (bind m (fun _ => k))
  (at level 61, right associativity) : script_scope.
Open Scope script_scope.

Section Sync.

Variable World : Type.
Variable respond : forall T : Type, World -> Call T -> World * (thrown + T).
Variable toISOString : World -> string.
Variable ENV : Env.

Local Abbreviation M := (M World).

(* -- Jira API ----------------------------------------------------- *)

(** Resolves to [null] ([None]) on a 204 and to the parsed body (its
    [key]) otherwise. *)
Definition jira (method path : string) (body : option Payload) : M (option string) :=
  let url := JIRA_BASE_URL ENV ++ "/rest/api/3" ++ path in
  res <- call respond (fetch url method body) ;;
  if negb (ok res) then
    let text := response_text res in
    throw (Error ("Jira " ++ method ++ " " ++ path ++ " → "
                    ++ Js.of_nat (status res) ++ " " ++ statusText res ++ ": " ++ text))
  else if Nat.eqb (status res) 204 then ret None
  else key <- lift (json_key res) ;; ret (Some key).

Definition createJiraIssue (issue : Issue) : M string :=
  let labels := labels issue in
  let priority := derivePriority labels in
  let issueType := deriveIssueType ENV labels in
  meta <- lift (parseBody (body issue)) ;;
  let summary := summary_of (title issue) in
  let payload :=
    {| project_key := JIRA_PROJECT_KEY ENV;
       summary := summary;
       description := buildDescription issue meta;
       issuetype_name := issueType;
       priority_name := priority;
       payload_labels := ["auto-migrated"; "gh-issue-jira-sync"] |} in
  say ("  Creating Jira " ++ Js.to_string issueType ++ " [" ++ Js.to_string priority
         ++ "]: '" ++ summary ++ "'") ;;
  if DRY_RUN ENV then
    say "  [DRY RUN] Skipping Jira API call" ;;
    log [LText "  Payload:"; LJson payload] ;;
    ret (JIRA_PROJECT_KEY ENV ++ "-DRY")
  else
    result <- jira "POST" "/issue" (Some payload) ;;
    match result with
    | Some key => ret key
    | None => throw (TypeError "Cannot read properties of null (reading 'key')")
    end.

(* -- GitHub operations -------------------------------------------- *)

Definition ensureLabel (name color description : string) : M unit :=
  try_catch
    (call respond (issues_getLabel name))
    (fun _ => call respond (issues_createLabel name color description)).

Definition applyJiraLabel (issueNumber : nat) (jiraKey : string) : M unit :=
  let name := "jira:" ++ jiraKey in
  say ("  Applying label '" ++ name ++ "' to issue #" ++ Js.of_nat issueNumber) ;;
  if DRY_RUN ENV then
    say "  [DRY RUN] Skipping label creation" ;;
    ret tt
  else
    ensureLabel name "0075ca" ("Synced to Jira as " ++ jiraKey) ;;
    call respond (issues_addLabels issueNumber [name]).

Definition closeIssue (issueNumber : nat) (jiraKey : string) : M unit :=
  let jiraUrl := JIRA_BASE_URL ENV ++ "/browse/" ++ jiraKey in
  date <- now toISOString ;;
  let body :=
    Str.join (String LF "")
      [ "## ✅ Synced to Jira";
        "";
        "This issue has been automatically migrated to Jira as **["
          ++ jiraKey ++ "](" ++ jiraUrl ++ ")**.";
        "";
        "| | |";
        "|---|---|";
        "| **Jira ticket** | [" ++ jiraKey ++ "](" ++ jiraUrl ++ ") |";
        "| **Project** | `" ++ JIRA_PROJECT_KEY ENV ++ "` |";
        "| **Synced** | " ++ date ++ " |";
        "";
        "_This GitHub issue is now closed. All tracking continues in Jira._" ] in
  say ("  Closing issue #" ++ Js.of_nat issueNumber ++ " → " ++ jiraKey) ;;
  if DRY_RUN ENV then
    say "  [DRY RUN] Skipping close" ;;
    ret tt
  else
    call respond (issues_createComment issueNumber body) ;;
    call respond (issues_update issueNumber "closed" "not_planned").

(* -- Core sync ---------------------------------------------------- *)

Definition syncIssue (issueNumber : nat) : M SyncResult :=
  say (String LF ("── Issue #" ++ Js.of_nat issueNumber ++ " ──")) ;;
  issue <- call respond (issues_get issueNumber) ;;
  match getJiraKeyFromLabels (labels issue) with
  | Some existingKey =>
      say ("  ⏭  Already synced as " ++ existingKey ++ " — skipping") ;;
      ret {| sync_status := "skipped";
             reason := Some "already_synced";
             jiraKey := Some existingKey |}
  | None =>
      if state issue =? "closed" then
        say "  ⏭  Issue is closed — skipping" ;;
        ret {| sync_status := "skipped";
               reason := Some "already_closed";
               jiraKey := None |}
      else
        jiraKey <- createJiraIssue issue ;;
        say ("  ✅ Created: " ++ jiraKey) ;;
        applyJiraLabel issueNumber jiraKey ;;
        (if CLOSE_AFTER_SYNC ENV then closeIssue issueNumber jiraKey else ret tt) ;;
        match if_truthy (GITHUB_OUTPUT ENV) with
        | Some path =>
            call respond (fs_appendFileSync path ("jira_key=" ++ jiraKey ++ String LF ""))
        | None => ret tt
        end ;;
        say ("  🎉 Done → " ++ jiraKey) ;;
        ret {| sync_status := "synced"; reason := None; jiraKey := Some jiraKey |}
  end.

(** The body of [for (const issue of issues)] in [bulkSync], over the
    issues of one page, threading the [summary] counters. *)
Fixpoint bulkSync_page (issues : list Issue) (summary : Summary) : M Summary :=
  match issues with
  | [] => ret summary
  | issue :: rest =>
      if pull_request issue then bulkSync_page rest summary
      else
        summary' <-
          try_catch
            (result <- syncIssue (number issue) ;;
             if sync_status result =? "synced" then
               sleep 400 ;;
               ret {| synced := S (synced summary);
                      skipped := skipped summary;
                      failed := failed summary |}
             else
               ret {| synced := synced summary;
                      skipped := S (skipped summary);
                      failed := failed summary |})
            (fun err =>
               say ("  ❌ #" ++ Js.of_nat (number issue) ++ ": " ++ message_of err) ;;
               ret {| synced := synced summary;
                      skipped := skipped summary;
                      failed := S (failed summary) |}) ;;
        bulkSync_page rest summary'
  end.

(** The paging loop [for (let page = 1; ; page++)].  The loop has no
    bound of its own; [fuel] bounds the number of pages fetched and
    [None] reports that it ran out. *)
Fixpoint bulkSync_from (fuel : nat) (page : nat) (summary : Summary)
  : M (option Summary) :=
  match fuel with
  | O => ret None
  | S fuel' =>
      issues <- call respond (issues_listForRepo "open" 100 page) ;;
      if Nat.eqb (List.length issues) 0 then ret (Some summary)
      else
        summary' <- bulkSync_page issues summary ;;
        if Nat.ltb (List.length issues) 100 then ret (Some summary')
        else bulkSync_from fuel' (S page) summary'
  end.

Definition bulkSync (fuel : nat) : M (option Summary) :=
  say "🔍 Bulk sync — fetching all open issues without a jira: label..." ;;
  bulkSync_from fuel 1 {| synced := 0; skipped := 0; failed := 0 |}.

End Sync.

(* ------------------------------------------------------------------ *)
(** * Entry point                                                       *)
(* ------------------------------------------------------------------ *)

(** A boolean inside a template literal. *)
Definition of_bool (b : bool) : string := if b then "true" else "false".

(** The digits at the start of [s], read in base 10: [None] when [s] does
    not start with a digit. *)
Fixpoint read_digits (s : string) (acc : N) (seen : bool) : option N :=
  match s with
  | String c s' =>
      if Str.is_digit c
      then read_digits s' (acc * 10 + N.of_nat (Str.code c - 48))%N true
      else if seen then Some acc else None
  | EmptyString => if seen then Some acc else None
  end.

(** [parseInt(s, 10)] where it yields a number an issue can have: leading
    white space and one [+] are passed over, the digits that follow are
    read and the rest of the input is ignored.  [None] stands for [NaN]
    (no digit), for the results of an input with a minus sign, and for
    the integers above [2^53] that a JavaScript number does not hold
    exactly. *)
Definition parseInt10 (s : string) : option nat :=
  let digits :=
    match Str.trimStart s with
    | String "-" _ => None
    | String "+" s' => read_digits s' 0%N false
    | s' => read_digits s' 0%N false
    end in
  match digits with
  | Some n => if (n <=? 9007199254740992)%N then Some (N.to_nat n) else None
  | None => None
  end.

(** How [main] leaves: it returns, or it calls [process.exit(code)]. *)
Inductive MainEnd :=
| Returned
| ProcessExit (code : nat).

(** How the process ends: its exit code and the message written to the
    error stream after [Fatal:], if any. *)
Record Exit := {
  exit_code : nat;
  fatal : option string
}.

Section Main.

Variable World : Type.
Variable respond : forall T : Type, World -> Call T -> World * (thrown + T).
Variable toISOString : World -> string.
Variable ENV : Env.

Local Abbreviation M := (M World).

(** [main]; [None] where the model does not follow the run: the paging
    loop of [bulkSync] did not end within [fuel] pages, or
    [GH_ISSUE_NUMBER] does not read as an issue number. *)
Definition main (fuel : nat) : M (option MainEnd) :=
  say "🚀 gh-issue-jira-sync" ;;
  say ("   Repo:         " ++ GH_REPO ENV) ;;
  say ("   Jira project: " ++ JIRA_PROJECT_KEY ENV) ;;
  say ("   Jira URL:     " ++ JIRA_BASE_URL ENV) ;;
  say ("   Dry run:      " ++ of_bool (DRY_RUN ENV)) ;;
  say ("   Bulk sync:    " ++ of_bool (BULK_SYNC ENV)) ;;
  say ("   Close after:  " ++ of_bool (CLOSE_AFTER_SYNC ENV)) ;;
  if BULK_SYNC ENV then
    r <- bulkSync respond toISOString ENV fuel ;;
    match r with
    | None => ret None
    | Some s =>
        say (String LF ("📊 Bulk sync complete — synced: " ++ Js.of_nat (synced s)
                          ++ ", skipped: " ++ Js.of_nat (skipped s)
                          ++ ", failed: " ++ Js.of_nat (failed s))) ;;
        if Nat.ltb 0 (failed s) then ret (Some (ProcessExit 1))
        else ret (Some Returned)
    end
  else
    match if_truthy (GH_ISSUE_NUMBER ENV) with
    | None => throw (Error "GH_ISSUE_NUMBER required for single-issue sync")
    | Some text =>
        match parseInt10 text with
        | Some issueNumber =>
            syncIssue respond toISOString ENV issueNumber ;;
            ret (Some Returned)
        | None => ret None
        end
    end.

(** [main().catch((err) => { console.error('Fatal:', err.message);
    process.exit(1); })]: a process whose [main] returns ends with the
    exit code 0. *)
Definition entry_point (fuel : nat) : M (option Exit) :=
  try_catch
    (e <- main fuel ;;
     ret (match e with
          | Some Returned => Some {| exit_code := 0; fatal := None |}
          | Some (ProcessExit code) => Some {| exit_code := code; fatal := None |}
          | None => None
          end))
    (fun err => ret (Some {| exit_code := 1; fatal := Some (message_of err) |})).

End Main.

(* ------------------------------------------------------------------ *)
(** * The sync label, in the words of the specification                 *)
(* ------------------------------------------------------------------ *)

(** A project key: one uppercase letter followed by uppercase letters or
    digits (at least one of them, as in [[A-Z][A-Z0-9]+]). *)
Definition project_key_shape (p : string) : Prop :=
  exists c cs,
    p = String c cs /\ Str.is_upper c = true /\
    cs <> "" /\ Str.all Str.is_upper_or_digit cs = true.

(** A Jira key: a project key, a dash, one or more digits. *)
Definition key_shape (k : string) : Prop :=
  exists p ds,
    k = p ++ "-" ++ ds /\ project_key_shape p /\
    ds <> "" /\ Str.all Str.is_digit ds = true.

(** A sync label name: the marker [jira:] followed by a Jira key. *)
Definition is_sync_name (n : string) : Prop :=
  exists k, n = "jira:" ++ k /\ key_shape k.

(** [buildSyncLabelName]: the name [applyJiraLabel] writes. *)
Definition sync_label_name (jiraKey : string) : string := "jira:" ++ jiraKey.

(* ------------------------------------------------------------------ *)
(** * A reference world                                                 *)
(* ------------------------------------------------------------------ *)

(** A small model of the two trackers and the runner, used to run the
    script on concrete inputs and to state what a second run sees after a
    first one.  GitHub keeps issues, the repository's labels and comments;
    Jira hands out the keys of [jira_keys] one per create request and
    answers 500 when it has none left. *)
Module Sim.

Record World := {
  gh_issues : list Issue;
  gh_labels : list string;
  gh_comments : list (nat * string);
  jira_keys : list string;
  jira_created : list Payload;
  output_file : list string;
  clock : string
}.

Definition is_number (n : nat) (i : Issue) : bool := Nat.eqb (number i) n.

Definition update_issue (f : Issue -> Issue) (n : nat) (l : list Issue) : list Issue :=
  map (fun i => if is_number n i then f i else i) l.

Definition has_label (i : Issue) (n : string) : bool :=
  existsb (fun l => name l =? n) (labels i).

Definition add_labels (names : list string) (i : Issue) : Issue :=
  {| number := number i; title := title i; body := body i; state := state i;
     labels := (labels i
                  ++ map (fun n => {| name := n |})
                       (filter (fun n => negb (has_label i n)) names))%list;
     html_url := html_url i; pull_request := pull_request i |}.

Definition set_state (st : string) (i : Issue) : Issue :=
  {| number := number i; title := title i; body := body i; state := st;
     labels := labels i; html_url := html_url i; pull_request := pull_request i |}.

Definition with_issues (w : World) (l : list Issue) : World :=
  {| gh_issues := l; gh_labels := gh_labels w; gh_comments := gh_comments w;
     jira_keys := jira_keys w; jira_created := jira_created w;
     output_file := output_file w; clock := clock w |}.

Definition not_found {A : Type} : thrown + A := inl (Error "Not Found").

Definition respond (T : Type) (w : World) (c : Call T) : World * (thrown + T) :=
  match c in Call T return World * (thrown + T) with
  | issues_get n =>
      match find (is_number n) (gh_issues w) with
      | Some i => (w, inr i)
      | None => (w, not_found)
      end
  | issues_listForRepo st per_page page =>
      (w, inr (firstn per_page
                 (skipn ((page - 1) * per_page)
                    (filter (fun i => state i =? st) (gh_issues w)))))
  | issues_getLabel n =>
      if mem_string n (gh_labels w) then (w, inr tt) else (w, not_found)
  | issues_createLabel n _ _ =>
      if mem_string n (gh_labels w) then (w, inl (Error "Validation Failed"))
      else ({| gh_issues := gh_issues w; gh_labels := (gh_labels w ++ [n])%list;
               gh_comments := gh_comments w; jira_keys := jira_keys w;
               jira_created := jira_created w; output_file := output_file w;
               clock := clock w |}, inr tt)
  | issues_addLabels n names =>
      match find (is_number n) (gh_issues w) with
      | Some _ => (with_issues w (update_issue (add_labels names) n (gh_issues w)), inr tt)
      | None => (w, not_found)
      end
  | issues_createComment n b =>
      match find (is_number n) (gh_issues w) with
      | Some _ =>
          ({| gh_issues := gh_issues w; gh_labels := gh_labels w;
              gh_comments := (gh_comments w ++ [(n, b)])%list;
              jira_keys := jira_keys w; jira_created := jira_created w;
              output_file := output_file w; clock := clock w |}, inr tt)
      | None => (w, not_found)
      end
  | issues_update n st _ =>
      match find (is_number n) (gh_issues w) with
      | Some _ => (with_issues w (update_issue (set_state st) n (gh_issues w)), inr tt)
      | None => (w, not_found)
      end
  | fetch _ _ payload =>
      match jira_keys w, payload with
      | key :: keys, Some p =>
          ({| gh_issues := gh_issues w; gh_labels := gh_labels w;
              gh_comments := gh_comments w; jira_keys := keys;
              jira_created := (jira_created w ++ [p])%list;
              output_file := output_file w; clock := clock w |},
           inr {| ok := true; status := 201; statusText := "Created";
                  response_text := ""; json_key := inr key |})
      | _, _ =>
          (w, inr {| ok := false; status := 500;
                     statusText := "Internal Server Error";
                     response_text := "no key"; json_key := inl (Error "no body") |})
      end
  | fs_appendFileSync _ data =>
      ({| gh_issues := gh_issues w; gh_labels := gh_labels w;
          gh_comments := gh_comments w; jira_keys := jira_keys w;
          jira_created := jira_created w;
          output_file := (output_file w ++ [data])%list; clock := clock w |}, inr tt)
  end.

Definition syncIssue (env : Env) (n : nat) (w : World) : Outcome World SyncResult :=
  syncIssue respond clock env n w.

Definition bulkSync (env : Env) (fuel : nat) (w : World) : Outcome World (option Summary) :=
  bulkSync respond clock env fuel w.

End Sim.

(** A configuration and a repository to run the script on. *)
Definition env0 : Env :=
  {| GITHUB_TOKEN := "t"; GH_REPO := "acme/app"; GH_ISSUE_NUMBER := Some "1";
     JIRA_BASE_URL := "https://acme.atlassian.net"; JIRA_USER_EMAIL := "bot@acme.io";
     JIRA_API_TOKEN := "s"; JIRA_PROJECT_KEY := "OLSF";
     DRY_RUN := false; BULK_SYNC := false; CLOSE_AFTER_SYNC := true;
     JIRA_ISSUE_TYPE_DEFAULT := "Task"; GITHUB_OUTPUT := Some "/tmp/out" |}.

Definition env0_dry : Env :=
  {| GITHUB_TOKEN := "t"; GH_REPO := "acme/app"; GH_ISSUE_NUMBER := Some "1";
     JIRA_BASE_URL := "https://acme.atlassian.net"; JIRA_USER_EMAIL := "bot@acme.io";
     JIRA_API_TOKEN := "s"; JIRA_PROJECT_KEY := "OLSF";
     DRY_RUN := true; BULK_SYNC := false; CLOSE_AFTER_SYNC := true;
     JIRA_ISSUE_TYPE_DEFAULT := "Task"; GITHUB_OUTPUT := Some "/tmp/out" |}.

Definition issue1 : Issue :=
  {| number := 1; title := "[TODO][P1 CRITICAL] Fix race condition";
     body := Str "| File | `src/a.js` |"; state := "open";
     labels := [ {| name := "bug" |}; {| name := "priority:high" |} ];
     html_url := "https://github.com/acme/app/issues/1"; pull_request := false |}.

Definition issue2 : Issue :=
  {| number := 2; title := "Add retries"; body := Null; state := "open";
     labels := [ {| name := "enhancement" |} ];
     html_url := "https://github.com/acme/app/issues/2"; pull_request := false |}.

Definition issue3 : Issue :=
  {| number := 3; title := "Bump deps"; body := Str ""; state := "open";
     labels := []; html_url := "https://github.com/acme/app/pull/3";
     pull_request := true |}.

Definition issue4 : Issue :=
  {| number := 4; title := "Old one"; body := Str "text"; state := "open";
     labels := [ {| name := "jira:OLSF-7" |} ];
     html_url := "https://github.com/acme/app/issues/4"; pull_request := false |}.

Definition issue5 : Issue :=
  {| number := 5; title := "Document the flags"; body := Undefined; state := "open";
     labels := []; html_url := "https://github.com/acme/app/issues/5";
     pull_request := false |}.

Definition world0 : Sim.World :=
  {| Sim.gh_issues := [issue1; issue2; issue3; issue4; issue5];
     Sim.gh_labels := ["bug"; "enhancement"; "priority:high"; "jira:OLSF-7"];
     Sim.gh_comments := [];
     Sim.jira_keys := ["OLSF-42"; "OLSF-43"];
     Sim.jira_created := [];
     Sim.output_file := [];
     Sim.clock := "2026-01-01T00:00:00.000Z" |}.

(* ------------------------------------------------------------------ *)
(** * Vocabulary of the properties                                      *)
(* ------------------------------------------------------------------ *)

(** ** Labels and keys *)

(** The part of the label pattern after the marker: [[A-Z][A-Z0-9]+-\d+$]. *)
Definition key_re : regex :=
  ([Cls Str.is_upper; Rep true 1 Str.is_upper_or_digit]
     ++ lit "-" ++ [Rep true 1 Str.is_digit; Eol])%list.

(** A label list without a sync label. *)
Definition no_sync_label (labels : list Label) : Prop :=
  forall l, In l labels -> ~ is_sync_name (name l).

(** Where the input cannot extend a run of the class [p]. *)
Definition run_ends (p : ascii -> bool) (s : string) : Prop :=
  match s with
  | String a _ => p a = false
  | EmptyString => True
  end.

(** The last character of a string, if it has one. *)
Fixpoint last_char (s : string) : option ascii :=
  match s with
  | EmptyString => None
  | String c EmptyString => Some c
  | String _ s' => last_char s'
  end.

(** A label name that is neither a key of the table nor the name of a
    member objects inherit reads as [undefined]. *)
Definition unmapped (o : list (string * string)) (n : string) : Prop :=
  own_property o n = None /\ mem_string n object_prototype_members = false.

(** ** Descriptions *)

(** The first block of every description. *)
Definition provenance : Adf.node :=
  Adf.paragraph
    [ Adf.text "Auto-migrated from GitHub Issues by " [Adf.em];
      Adf.text "gh-issue-jira-sync" [Adf.em; Adf.strong];
      Adf.text "." [Adf.em] ].

(** The rows of the Details table for the extracted fields, in the order of
    the script. *)
Definition field_rows (meta : Meta) : list (string * string) :=
  filter_Boolean
    [ and_row "File" (file meta);
      and_row "Line" (line meta);
      and_row "Branch" (branch meta);
      and_row "Commit" (commit meta);
      and_row "Introduced" (introduced meta);
      and_row "Author" (author meta) ].

(** ** Runs *)

(** An outcome with more events in front. *)
Definition after {World A : Type} (evs : list Event) (o : Outcome World A)
  : Outcome World A :=
  {| final := final o; events := (evs ++ events o)%list; result := result o |}.

(** Every event of every run of [m] satisfies [P]. *)
Definition only {World : Type} (P : Event -> Prop) {A : Type} (m : M World A) : Prop :=
  forall w, Forall P (events (m w)).

(** Every value a run of [m] returns satisfies [Q]. *)
Definition returns {World A : Type} (Q : A -> Prop) (m : M World A) : Prop :=
  forall w a, result (m w) = inr a -> Q a.

(** A run of [m] keeps the property [Inv] of the world. *)
Definition keeps {World : Type} (Inv : World -> Prop) {A : Type} (m : M World A) : Prop :=
  forall w, Inv w -> Inv (final (m w)).

Definition is_call (e : Event) : bool :=
  match e with
  | Called _ _ => true
  | _ => false
  end.

(** The calls of a run, console lines and the like left out. *)
Definition calls (t : list Event) : list Event := filter is_call t.

(** ** The guard and the label write *)

(** The result [{ status: 'skipped', reason: 'already_synced', jiraKey }]. *)
Definition already_synced (k : string) : SyncResult :=
  {| sync_status := "skipped"; reason := Some "already_synced"; jiraKey := Some k |}.

(** The label names an event attaches to an issue. *)
Definition attached_names (e : Event) : list string :=
  match e with
  | Called c _ =>
      match c with
      | issues_addLabels _ names => names
      | _ => []
      end
  | _ => []
  end.

(** A fulfilled attach of the label [label] to the issue [n]. *)
Definition attached (n : nat) (label : string) (e : Event) : bool :=
  match e with
  | Called c r =>
      fulfilled_of r
      && match c with
         | issues_addLabels m names => Nat.eqb m n && existsb (String.eqb label) names
         | _ => false
         end
  | _ => false
  end.

(** The run completed the LABELED transition of issue [n] with key [k]. *)
Definition labeled (n : nat) (k : string) (t : list Event) : bool :=
  existsb (attached n (sync_label_name k)) t.

(** No fulfilled attach of [label] to the issue [n]. *)
Definition no_attach (n : nat) (label : string) (e : Event) : Prop :=
  attached n label e = false.

(** In the reference world, issue [n] carries the sync label of key [k]
    first. *)
Definition synced_as (n : nat) (k : string) (w : Sim.World) : Prop :=
  exists i, find (Sim.is_number n) (Sim.gh_issues w) = Some i
            /\ getJiraKeyFromLabels (labels i) = Some k.

(** The calls that change an issue of the reference world. *)
Definition touches_issues {T : Type} (c : Call T) : bool :=
  match c with
  | issues_addLabels _ _ => true
  | issues_update _ _ _ => true
  | _ => false
  end.

(** ** The write steps of one issue *)

(** The write steps of the state machine of one issue. *)
Inductive Step :=
| StepCreate                                       (* CREATING: POST /issue *)
| StepEnsure (name : string)                       (* LABELING: createLabel *)
| StepAttach (n : nat) (names : list string)       (* LABELING: addLabels *)
| StepComment (n : nat)                            (* CLOSING: createComment *)
| StepClose (n : nat) (state state_reason : string).   (* CLOSING: update *)

(** The step an event makes, if it is a write on a tracker. *)
Definition step_of (e : Event) : option Step :=
  match e with
  | Called c _ =>
      match c with
      | fetch _ method _ => if method =? "GET" then None else Some StepCreate
      | issues_createLabel name _ _ => Some (StepEnsure name)
      | issues_addLabels n names => Some (StepAttach n names)
      | issues_createComment n _ => Some (StepComment n)
      | issues_update n st r => Some (StepClose n st r)
      | _ => None
      end
  | _ => None
  end.

(** The steps of a run, in order. *)
Definition steps (t : list Event) : list Step := filter_Boolean (map step_of t).

(** The full sequence for issue [n] once Jira has returned the key [k]:
    create; the label -- created in the repository when it was not there,
    then attached; and, when closing after sync is on, comment then close. *)
Definition plan (env : Env) (n : nat) (k : string) (label_created : bool) : list Step :=
  let name := "jira:" ++ k in
  (StepCreate
     :: (if label_created then [StepEnsure name] else [])
     ++ StepAttach n [name]
     :: (if CLOSE_AFTER_SYNC env
         then [StepComment n; StepClose n "closed" "not_planned"] else []))%list.

(** Every write but the last one was fulfilled: a write that is rejected
    ends the run. *)
Fixpoint all_but_last_fulfilled (t : list Event) : bool :=
  match t with
  | [] => true
  | e :: t' =>
      match t' with
      | [] => true
      | _ => fulfilled e && all_but_last_fulfilled t'
      end
  end.

(** [l1] is an initial part of [l2]. *)
Definition prefix {A : Type} (l1 l2 : list A) : Prop :=
  exists rest, l2 = (l1 ++ rest)%list.

(** An outcome that went through the steps [p], or through the first of
    them up to a write that was rejected; when it returned, it went through
    all of [p], every write was fulfilled and the value satisfies [Q]. *)
Definition phase {World A : Type} (p : list Step) (Q : A -> Prop) (o : Outcome World A)
  : Prop :=
  prefix (steps (events o)) p
  /\ all_but_last_fulfilled (writes (events o)) = true
  /\ forall a, result o = inr a ->
       Q a /\ steps (events o) = p /\ forallb fulfilled (writes (events o)) = true.

(** The first write of the run is the Jira request of [createJiraIssue]; it
    was fulfilled and returned the key [k]. *)
Definition created_as (k : string) (t : list Event) : Prop :=
  exists url payload res,
    hd_error (writes t) = Some (Called (fetch url "POST" (Some payload)) (inr res))
    /\ ok res = true /\ json_key res = inr k.

(** ** The bulk loop *)

(** The issue number an event fetches with [issues.get]. *)
Definition fetched_number (e : Event) : option nat :=
  match e with
  | Called c _ =>
      match c with
      | issues_get n => Some n
      | _ => None
      end
  | _ => None
  end.

(** The issue numbers a run fetches, in order. *)
Definition fetched (t : list Event) : list nat := filter_Boolean (map fetched_number t).

Fixpoint starts_with (p s : string) : bool :=
  match p, s with
  | EmptyString, _ => true
  | String a p', String b s' => Ascii.eqb a b && starts_with p' s'
  | String _ _, EmptyString => false
  end.

(** The line the [catch] of the bulk loop writes for the issue [i]. *)
Definition failure_line (i : Issue) (err : thrown) : Event :=
  Logged [LText ("  ❌ #" ++ Js.of_nat (number i) ++ ": " ++ message_of err)].

Definition is_failure_line (e : Event) : bool :=
  match e with
  | Logged [LText s] => starts_with "  ❌ #" s
  | _ => false
  end.

(** How many failure lines a run wrote. *)
Definition failure_lines (t : list Event) : nat := List.length (filter is_failure_line t).

Definition not_pull_request (i : Issue) : bool := negb (pull_request i).

(** [summary.synced++], [summary.skipped++], [summary.failed++]. *)
Definition count_synced (s : Summary) : Summary :=
  {| synced := S (synced s); skipped := skipped s; failed := failed s |}.

Definition count_skipped (s : Summary) : Summary :=
  {| synced := synced s; skipped := S (skipped s); failed := failed s |}.

Definition count_failed (s : Summary) : Summary :=
  {| synced := synced s; skipped := skipped s; failed := S (failed s) |}.

(** The issues a summary accounts for. *)
Definition total (s : Summary) : nat := synced s + skipped s + failed s.

(** ** Configuration *)

(** The variables the validation loop requires, in its order. *)
Definition required_names : list string :=
  [ "GITHUB_TOKEN"; "GH_REPO"; "JIRA_BASE_URL"; "JIRA_USER_EMAIL";
    "JIRA_API_TOKEN"; "JIRA_PROJECT_KEY" ].

(** [/\/$/] *)
Definition trailing_slash_re : regex := (lit "/" ++ [Eol])%list.

(** What the validation loop reads for a required variable: the variable
    of the environment, the base URL without its trailing slash. *)
Definition required_value (penv : process_env) (key : string) : string :=
  if key =? "JIRA_BASE_URL"
  then remove_first trailing_slash_re (or_else (penv key) "")
  else or_else (penv key) "".

(** An environment of the process that yields the configuration [env0],
    with the base URL written with a slash at its end. *)
Definition penv0 : process_env :=
  fun key =>
    own_property
      [ ("GITHUB_TOKEN", "t"); ("GH_REPO", "acme/app"); ("GH_ISSUE_NUMBER", "1");
        ("JIRA_BASE_URL", "https://acme.atlassian.net/");
        ("JIRA_USER_EMAIL", "bot@acme.io"); ("JIRA_API_TOKEN", "s");
        ("JIRA_PROJECT_KEY", "OLSF"); ("GITHUB_OUTPUT", "/tmp/out") ]
      key.

(** The same environment with one variable left unset. *)
Definition without (key : string) (penv : process_env) : process_env :=
  fun k => if k =? key then None else penv k.

(** ** Jira requests *)

(** What an event exchanges with Jira: the URL, the method and the body of
    the request, and the answer. *)
Definition jira_exchange (e : Event)
  : option (string * string * option Payload * (thrown + HttpResponse)) :=
  match e with
  | Called c r =>
      match c in Call T
            return thrown + T
                   -> option (string * string * option Payload * (thrown + HttpResponse))
      with
      | fetch url method payload => fun r => Some (url, method, payload, r)
      | _ => fun _ => None
      end r
  | _ => None
  end.

(** The exchanges of a run with Jira, in order. *)
Definition jira_exchanges (t : list Event)
  : list (string * string * option Payload * (thrown + HttpResponse)) :=
  filter_Boolean (map jira_exchange t).

(** The reference world once Jira has no key left: it answers 500. *)
Definition world_jira_down : Sim.World :=
  {| Sim.gh_issues := Sim.gh_issues world0;
     Sim.gh_labels := Sim.gh_labels world0;
     Sim.gh_comments := [];
     Sim.jira_keys := [];
     Sim.jira_created := [];
     Sim.output_file := [];
     Sim.clock := Sim.clock world0 |}.

(** ** Single-issue runs *)

(** The result [{ status: 'skipped', reason: 'already_closed' }]. *)
Definition already_closed : SyncResult :=
  {| sync_status := "skipped"; reason := Some "already_closed"; jiraKey := None |}.

(** The result [{ status: 'synced', jiraKey }]. *)
Definition synced_result (k : string) : SyncResult :=
  {| sync_status := "synced"; reason := None; jiraKey := Some k |}.

(** A closed issue that was never synced, and a repository that holds it. *)
Definition issue6 : Issue :=
  {| number := 6; title := "Drop the old API"; body := Str "done by hand";
     state := "closed"; labels := [ {| name := "tech-debt" |} ];
     html_url := "https://github.com/acme/app/issues/6"; pull_request := false |}.

Definition world_closed : Sim.World := Sim.with_issues world0 [issue6].

(** ** The output file *)

(** What an event appends to a file: the path and the data. *)
Definition appended (e : Event) : option (string * string) :=
  match e with
  | Called c _ =>
      match c with
      | fs_appendFileSync path data => Some (path, data)
      | _ => None
      end
  | _ => None
  end.

(** What a run appends to files, in order. *)
Definition appends (t : list Event) : list (string * string) :=
  filter_Boolean (map appended t).

(** The line [jira_key=<key>] of the output file. *)
Definition output_line (k : string) : string := "jira_key=" ++ k ++ String LF "".

(** A run of [m] that returns had every one of its writes fulfilled. *)
Definition returns_clean {World A : Type} (m : M World A) : Prop :=
  forall w a, result (m w) = inr a -> forallb fulfilled (writes (events (m w))) = true.

(** The reference world with an output file that cannot be written. *)
Definition respond_read_only (T : Type) (w : Sim.World) (c : Call T)
  : Sim.World * (thrown + T) :=
  match c in Call T return Sim.World * (thrown + T) with
  | fs_appendFileSync _ _ => (w, inl (Error "EACCES: permission denied"))
  | c' => Sim.respond w c'
  end.

(** ** The reach of a run *)

(** An event that stays within the issue [n]: it reads or changes no
    other issue, lists nothing, sets no state but closed / not_planned,
    looks up, creates and attaches labels of the [jira:] family only, and
    sends Jira nothing but POST requests. *)
Definition within_issue (n : nat) (e : Event) : bool :=
  match e with
  | Called c _ =>
      match c with
      | issues_get m => Nat.eqb m n
      | issues_listForRepo _ _ _ => false
      | issues_getLabel name => starts_with "jira:" name
      | issues_createLabel name _ _ => starts_with "jira:" name
      | issues_addLabels m names => Nat.eqb m n && forallb (starts_with "jira:") names
      | issues_createComment m _ => Nat.eqb m n
      | issues_update m st r => Nat.eqb m n && (st =? "closed") && (r =? "not_planned")
      | fetch _ method _ => method =? "POST"
      | fs_appendFileSync _ _ => true
      end
  | _ => true
  end.

(** ** Paging *)

(** The page an event requests from the issue listing: state, page size
    and page number. *)
Definition listing (e : Event) : option (string * nat * nat) :=
  match e with
  | Called c _ =>
      match c with
      | issues_listForRepo st per_page page => Some (st, per_page, page)
      | _ => None
      end
  | _ => None
  end.

(** The pages a run requests, in order. *)
Definition listings (t : list Event) : list (string * nat * nat) :=
  filter_Boolean (map listing t).

(** The number of entries of a page that was delivered. *)
Definition page_size (e : Event) : option nat :=
  match e with
  | Called c r =>
      match c in Call T return thrown + T -> option nat with
      | issues_listForRepo _ _ _ =>
          fun r => match r with
                   | inr issues => Some (List.length issues)
                   | inl _ => None
                   end
      | _ => fun _ => None
      end r
  | _ => None
  end.

(** The sizes of the pages a run was delivered, in order. *)
Definition page_sizes (t : list Event) : list nat :=
  filter_Boolean (map page_size t).

(** What a call was rejected with, if it was rejected. *)
Definition rejection (e : Event) : option thrown :=
  match e with
  | Called _ (inl err) => Some err
  | _ => None
  end.

(** What the requests for a page were rejected with, in order. *)
Definition listing_rejections (t : list Event) : list thrown :=
  filter_Boolean
    (map (fun e => match listing e with
                   | Some _ => rejection e
                   | None => None
                   end) t).

(** ** Bodies *)

(** A string without the character [c]. *)
Definition free_of (c : ascii) (s : string) : Prop :=
  Str.all (fun x => negb (Str.is_char c x)) s = true.

(** The metadata of a body that holds none. *)
Definition no_meta : Meta :=
  {| todoText := None; codeBlock := None; file := None; line := None;
     branch := None; commit := None; introduced := None; author := None |}.

(** The fields of the table, by the name of their row. *)
Definition field_names : list string :=
  [ "File"; "Line"; "Branch"; "Commit"; "Introduced"; "Author" ].

Definition meta_field (name : string) (meta : Meta) : option string :=
  if name =? "File" then file meta
  else if name =? "Line" then line meta
  else if name =? "Branch" then branch meta
  else if name =? "Commit" then commit meta
  else if name =? "Introduced" then introduced meta
  else if name =? "Author" then author meta
  else None.

(** A row of the table: [| name | `value` |], with any white space around
    the cells. *)
Definition table_row (ws1 name ws2 ws3 v ws4 : string) : string :=
  "|" ++ ws1 ++ name ++ ws2 ++ "|" ++ ws3 ++ String backtick (v ++ String backtick (ws4 ++ "|")).

(** The start of a row of the field [name]: a bar, white space, the name. *)
Definition row_start_re (name : string) : regex :=
  (lit "|" ++ [Rep true 0 Str.is_space] ++ lit name)%list.

(** ** Entry point *)

(** The seven lines [main] prints first. *)
Definition banner (env : Env) : list Event :=
  [ Logged [LText "🚀 gh-issue-jira-sync"];
    Logged [LText ("   Repo:         " ++ GH_REPO env)];
    Logged [LText ("   Jira project: " ++ JIRA_PROJECT_KEY env)];
    Logged [LText ("   Jira URL:     " ++ JIRA_BASE_URL env)];
    Logged [LText ("   Dry run:      " ++ of_bool (DRY_RUN env))];
    Logged [LText ("   Bulk sync:    " ++ of_bool (BULK_SYNC env))];
    Logged [LText ("   Close after:  " ++ of_bool (CLOSE_AFTER_SYNC env))] ].

(** The reference configuration in bulk mode, and with no issue number. *)
Definition env0_bulk : Env :=
  {| GITHUB_TOKEN := "t"; GH_REPO := "acme/app"; GH_ISSUE_NUMBER := None;
     JIRA_BASE_URL := "https://acme.atlassian.net"; JIRA_USER_EMAIL := "bot@acme.io";
     JIRA_API_TOKEN := "s"; JIRA_PROJECT_KEY := "OLSF";
     DRY_RUN := false; BULK_SYNC := true; CLOSE_AFTER_SYNC := true;
     JIRA_ISSUE_TYPE_DEFAULT := "Task"; GITHUB_OUTPUT := None |}.

Definition env0_no_number : Env :=
  {| GITHUB_TOKEN := "t"; GH_REPO := "acme/app"; GH_ISSUE_NUMBER := Some "";
     JIRA_BASE_URL := "https://acme.atlassian.net"; JIRA_USER_EMAIL := "bot@acme.io";
     JIRA_API_TOKEN := "s"; JIRA_PROJECT_KEY := "OLSF";
     DRY_RUN := false; BULK_SYNC := false; CLOSE_AFTER_SYNC := true;
     JIRA_ISSUE_TYPE_DEFAULT := "Task"; GITHUB_OUTPUT := None |}.

(* ------------------------------------------------------------------ *)
(** * Facts about strings and the matcher                               *)
(* ------------------------------------------------------------------ *)

Lemma append_assoc (a b c : string) : (a ++ b) ++ c = a ++ (b ++ c).
Proof. induction a as [|x a IH]; simpl; [reflexivity | now rewrite IH]. Qed.

Lemma append_empty_r (a : string) : a ++ "" = a.
Proof. induction a as [|x a IH]; simpl; [reflexivity | now rewrite IH]. Qed.

Lemma length_append (a b : string) :
  String.length (a ++ b) = String.length a + String.length b.
Proof. induction a as [|x a IH]; simpl; [reflexivity | now rewrite IH]. Qed.

Lemma all_append (p : ascii -> bool) (a b : string) :
  Str.all p (a ++ b) = Str.all p a && Str.all p b.
Proof.
  induction a as [|x a IH]; simpl; [reflexivity|].
  now rewrite IH, andb_assoc.
Qed.

Lemma is_char_true (a c : ascii) : Str.is_char a c = true -> c = a.
Proof. unfold Str.is_char. apply Ascii.eqb_eq. Qed.

Lemma is_char_refl (a : ascii) : Str.is_char a a = true.
Proof. unfold Str.is_char. apply Ascii.eqb_refl. Qed.

Section Matcher.

Variable k : nat -> string -> groups -> option found.
Variable p : ascii -> bool.

(** A greedy repetition that can take a whole run and then go on does so. *)
Lemma rep_greedy_run (cs s : string) (r : found) :
  forall pos min g,
    Str.all p cs = true ->
    min <= String.length cs ->
    run_ends p s ->
    k (pos + String.length cs) s g = Some r ->
    rep k true min p pos (cs ++ s) g = Some r.
Proof.
  induction cs as [|c cs IH]; intros pos min g Hall Hmin Hend Hk.
  - simpl in *. assert (min = 0) by lia. subst min.
    rewrite Nat.add_0_r in Hk.
    destruct s as [|a s']; simpl; [exact Hk|].
    simpl in Hend. now rewrite Hend.
  - simpl in Hall. apply andb_true_iff in Hall as [Hc Hall].
    simpl in Hmin, Hk. rewrite <- plus_n_Sm in Hk.
    destruct min as [|m]; simpl; rewrite Hc.
    + rewrite (IH (S pos) 0 g); auto. lia.
    + apply IH; auto. lia.
Qed.

(** Whatever a repetition matched is a run of the class, long enough,
    after which the continuation succeeded. *)
Lemma rep_sound (greedy : bool) (s : string) (r : found) :
  forall pos min g,
    rep k greedy min p pos s g = Some r ->
    exists cs s',
      s = cs ++ s' /\ Str.all p cs = true /\ min <= String.length cs /\
      k (pos + String.length cs) s' g = Some r.
Proof.
  assert (Hnil : forall pos s0 g, k pos s0 g = Some r ->
            exists cs s', s0 = cs ++ s' /\ Str.all p cs = true /\
              0 <= String.length cs /\ k (pos + String.length cs) s' g = Some r).
  { intros pos s0 g Hk. exists "", s0. simpl. rewrite Nat.add_0_r. auto with arith. }
  assert (Hcons : forall a s0 pos min g, p a = true ->
            (exists cs s', s0 = cs ++ s' /\ Str.all p cs = true /\
               Nat.pred min <= String.length cs /\
               k (S pos + String.length cs) s' g = Some r) ->
            exists cs s', String a s0 = cs ++ s' /\ Str.all p cs = true /\
               min <= String.length cs /\ k (pos + String.length cs) s' g = Some r).
  { intros a s0 pos min g Ha (cs & s' & -> & Hall & Hmin & Hk).
    exists (String a cs), s'. simpl. rewrite Ha, Hall, <- plus_n_Sm.
    repeat split; auto. lia. }
  induction s as [|a s IH]; intros pos min g H.
  - destruct min as [|m]; simpl in H; [|discriminate].
    destruct greedy; [now apply Hnil|].
    destruct (k pos "" g) eqn:Hk; [|discriminate].
    injection H as <-. now apply Hnil.
  - destruct min as [|m]; simpl in H.
    + destruct greedy.
      * destruct (p a) eqn:Ha; [|now apply Hnil].
        destruct (rep k true 0 p (S pos) s g) eqn:Hrep.
        -- injection H as <-. apply Hcons; auto.
        -- now apply Hnil.
      * destruct (k pos (String a s) g) eqn:Hk.
        -- injection H as <-. now apply Hnil.
        -- destruct (p a) eqn:Ha; [|discriminate]. apply Hcons; auto.
    + destruct (p a) eqn:Ha; [|discriminate]. apply Hcons; auto.
Qed.

End Matcher.

Lemma exec_lit (w : string) (re : regex) :
  forall pos s g r,
    exec_at (lit w ++ re)%list pos s g = Some r <->
    exists s', s = w ++ s' /\ exec_at re (pos + String.length w) s' g = Some r.
Proof.
  induction w as [|c w IH]; intros pos s g r; simpl.
  - rewrite Nat.add_0_r. split; [intros H; now exists s | now intros (s' & -> & H)].
  - destruct s as [|a s0].
    + split; [discriminate | intros (s' & Hs & _); discriminate].
    + destruct (Str.is_char c a) eqn:Hc.
      * apply is_char_true in Hc. subst a. rewrite IH, <- plus_n_Sm. simpl.
        split; intros (s' & Hs & H); exists s'; split; auto; congruence.
      * split; [discriminate|]. intros (s' & Hs & _).
        injection Hs as -> _. now rewrite is_char_refl in Hc.
Qed.

(** A pattern that starts with [^] can only match at the start. *)
Lemma search_bol_later (re : regex) (s : string) :
  forall pos, search (Bol :: re) (S pos) s = None.
Proof. induction s as [|a s IH]; intros pos; simpl; auto. Qed.

Lemma test_bol (re : regex) (s : string) :
  test (Bol :: re) s = true <-> exists r, exec_at re 0 s no_groups = Some r.
Proof.
  unfold test. destruct s as [|a s]; simpl.
  - destruct (exec_at re 0 "" no_groups) as [r|]; split; eauto; try discriminate.
    now intros (r & H).
  - destruct (exec_at re 0 (String a s) no_groups) as [r|]; [split; eauto|].
    rewrite search_bol_later. split; [discriminate | now intros (r & H)].
Qed.

Lemma sync_label_re_eq : sync_label_re = Bol :: (lit "jira:" ++ key_re)%list.
Proof. reflexivity. Qed.

Lemma length_pos_nonempty (s : string) : 1 <= String.length s <-> s <> "".
Proof.
  destruct s; simpl; split; intros H; try lia; try congruence.
Qed.

(** The pattern accepts exactly the keys of the specified shape. *)
Lemma exec_key_re (k : string) (pos : nat) (g : groups) :
  (exists r, exec_at key_re pos k g = Some r) <-> key_shape k.
Proof.
  unfold key_re. split.
  - intros (r & H). destruct k as [|c k']; [discriminate|].
    cbn [app exec_at] in H.
    destruct (Str.is_upper c) eqn:Hc; [|discriminate].
    apply rep_sound in H as (cs & s' & -> & Hcs & Hlen & H).
    apply exec_lit in H as (s'' & -> & H).
    cbn [exec_at] in H.
    apply rep_sound in H as (ds & s3 & -> & Hds & Hlen' & H).
    destruct s3; [|discriminate].
    exists (String c cs), ds. rewrite append_empty_r. simpl.
    split; [reflexivity|]. split; [|split; [now apply length_pos_nonempty | exact Hds]].
    exists c, cs. repeat split; auto. now apply length_pos_nonempty.
  - intros (p & ds & -> & (c & cs & -> & Hc & Hcs & Hall) & Hds & Hdall).
    apply length_pos_nonempty in Hcs, Hds.
    exists {| stop := S pos + String.length cs + String.length "-" + String.length ds;
              rest := ""; group1 := captured g |}.
    cbn [app exec_at append]. rewrite Hc.
    apply rep_greedy_run; auto; [reflexivity|].
    apply exec_lit. exists ds; split; [reflexivity|].
    cbn [exec_at]. rewrite <- (append_empty_r ds) at 1.
    apply rep_greedy_run; auto. exact I.
Qed.

(** [sync_label_re.test(n)] holds exactly for the sync label names. *)
Lemma test_sync_label (n : string) :
  test sync_label_re n = true <-> is_sync_name n.
Proof.
  rewrite sync_label_re_eq, test_bol. unfold is_sync_name. split.
  - intros (r & H). apply exec_lit in H as (k & -> & H).
    exists k. split; auto. apply (exec_key_re k (0 + String.length "jira:") no_groups).
    now exists r.
  - intros (k & -> & Hk).
    apply (exec_key_re k (0 + String.length "jira:") no_groups) in Hk as (r & H).
    exists r. apply exec_lit. now exists k.
Qed.

Lemma test_sync_label_false (n : string) :
  test sync_label_re n = false <-> ~ is_sync_name n.
Proof.
  rewrite <- test_sync_label. destruct (test sync_label_re n); split; congruence.
Qed.

Lemma getJiraKeyFromLabels_none (labels : list Label) :
  getJiraKeyFromLabels labels = None <-> no_sync_label labels.
Proof.
  unfold getJiraKeyFromLabels, no_sync_label.
  destruct (find _ labels) as [l|] eqn:Hfind; split; try discriminate; auto.
  - intros H. apply find_some in Hfind as [Hin Ht].
    apply test_sync_label in Ht. now apply H in Hin.
  - intros _ l Hin. apply test_sync_label_false.
    now apply (find_none _ _ Hfind).
Qed.

(** The first sync label decides: labels before it that are no sync labels
    are passed over, labels after it are not looked at. *)
Lemma getJiraKeyFromLabels_first (pre post : list Label) (l : Label) (k : string) :
  no_sync_label pre ->
  name l = sync_label_name k ->
  key_shape k ->
  getJiraKeyFromLabels (pre ++ l :: post)%list = Some k.
Proof.
  intros Hpre Hname Hk. unfold getJiraKeyFromLabels.
  induction pre as [|x pre IH]; simpl.
  - assert (Ht : test sync_label_re (name l) = true).
    { apply test_sync_label. exists k. now split. }
    rewrite Ht, Hname. reflexivity.
  - assert (Hx : test sync_label_re (name x) = false).
    { apply test_sync_label_false. apply Hpre. now left. }
    rewrite Hx. apply IH. intros y Hy. apply Hpre. now right.
Qed.

(** Conversely, a key that is returned is the key of a sync label. *)
Lemma getJiraKeyFromLabels_some (labels : list Label) (k : string) :
  getJiraKeyFromLabels labels = Some k ->
  key_shape k /\ exists pre l post,
    labels = (pre ++ l :: post)%list /\ no_sync_label pre /\
    name l = sync_label_name k.
Proof.
  unfold getJiraKeyFromLabels.
  induction labels as [|x ls IH]; simpl; [discriminate|].
  destruct (test sync_label_re (name x)) eqn:Ht.
  - intros H. injection H as <-.
    apply test_sync_label in Ht as (k & Hn & Hk). rewrite Hn. simpl.
    split; auto. exists [], x, ls. repeat split; auto. intros l [].
  - intros H. destruct (IH H) as (Hk & pre & l & post & -> & Hpre & Hn).
    split; auto. exists (x :: pre), l, post. repeat split; auto.
    intros y [<-|Hy]; [now apply test_sync_label_false | now apply Hpre].
Qed.

(* ------------------------------------------------------------------ *)
(** * Reasoning about runs                                              *)
(* ------------------------------------------------------------------ *)

Section Runs.

Variable World : Type.
Variable respond : forall T : Type, World -> Call T -> World * (thrown + T).

Lemma bind_run {A B : Type} (m : M World A) (f : A -> M World B) (w : World) :
  bind m f w =
  match result (m w) with
  | inl e => {| final := final (m w); events := events (m w); result := inl e |}
  | inr a => after (events (m w)) (f a (final (m w)))
  end.
Proof. reflexivity. Qed.

Lemma bind_call {T B : Type} (c : Call T) (f : T -> M World B) (w : World) :
  bind (call respond c) f w =
  match snd (respond w c) with
  | inl e => {| final := fst (respond w c); events := [Called c (inl e)];
                result := inl e |}
  | inr a => after [Called c (inr a)] (f a (fst (respond w c)))
  end.
Proof.
  unfold bind, call, after. simpl.
  destruct (snd (respond w c)); reflexivity.
Qed.

Lemma bind_log {B : Type} (args : list LogArg) (f : unit -> M World B) (w : World) :
  bind (log args) f w = after [Logged args] (f tt w).
Proof. reflexivity. Qed.

Lemma bind_say {B : Type} (s : string) (f : unit -> M World B) (w : World) :
  bind (say s) f w = after [Logged [LText s]] (f tt w).
Proof. reflexivity. Qed.

Lemma bind_ret {A B : Type} (a : A) (f : A -> M World B) (w : World) :
  bind (ret a) f w = after [] (f a w).
Proof. reflexivity. Qed.

Lemma bind_assoc_run {A B C : Type}
      (m : M World A) (f : A -> M World B) (g : B -> M World C) (w : World) :
  bind (bind m f) g w = bind m (fun a => bind (f a) g) w.
Proof.
  unfold bind. destruct (result (m w)) as [e|a]; simpl; [reflexivity|].
  destruct (result (f a (final (m w)))); simpl; [reflexivity|].
  now rewrite app_assoc.
Qed.

Lemma bind_lift {A B : Type} (r : thrown + A) (f : A -> M World B) (w : World) :
  bind (lift r) f w =
  match r with
  | inl e => {| final := w; events := []; result := inl e |}
  | inr a => after [] (f a w)
  end.
Proof. destruct r; reflexivity. Qed.


Lemma after_nil {A : Type} (o : Outcome World A) : after [] o = o.
Proof. destruct o; reflexivity. Qed.

Lemma after_after {A : Type} (e1 e2 : list Event) (o : Outcome World A) :
  after e1 (after e2 o) = after (e1 ++ e2) o.
Proof. unfold after. simpl. now rewrite app_assoc. Qed.

Variable P : Event -> Prop.

Lemma only_ret {A : Type} (a : A) : only P (ret (World := World) a).
Proof. intros w. constructor. Qed.

Lemma only_throw {A : Type} (e : thrown) : only P (throw (World := World) (A := A) e).
Proof. intros w. constructor. Qed.

Lemma only_lift {A : Type} (r : thrown + A) : only P (lift (World := World) r).
Proof. intros w. constructor. Qed.

Lemma only_log (args : list LogArg) :
  P (Logged args) -> only P (log (World := World) args).
Proof. intros H w. repeat constructor. exact H. Qed.

Lemma only_say (s : string) :
  P (Logged [LText s]) -> only P (say (World := World) s).
Proof. apply only_log. Qed.

Lemma only_sleep (ms : nat) : P (Slept ms) -> only P (sleep (World := World) ms).
Proof. intros H w. repeat constructor. exact H. Qed.

Lemma only_now (clock : World -> string) : P ClockRead -> only P (now clock).
Proof. intros H w. repeat constructor. exact H. Qed.

Lemma only_call {T : Type} (c : Call T) :
  (forall r, P (Called c r)) -> only P (call respond c).
Proof. intros H w. repeat constructor. apply H. Qed.

Lemma only_bind {A B : Type} (m : M World A) (f : A -> M World B) :
  only P m -> (forall a, only P (f a)) -> only P (bind m f).
Proof.
  intros Hm Hf w. rewrite bind_run.
  destruct (result (m w)) as [e|a]; simpl; [apply Hm|].
  apply Forall_app. split; [apply Hm | apply Hf].
Qed.

Lemma only_try_catch {A : Type} (m : M World A) (h : thrown -> M World A) :
  only P m -> (forall e, only P (h e)) -> only P (try_catch m h).
Proof.
  intros Hm Hh w. unfold try_catch.
  destruct (result (m w)) as [e|a]; simpl; [|apply Hm].
  apply Forall_app. split; [apply Hm | apply Hh].
Qed.

Lemma returns_ret {A : Type} (Q : A -> Prop) (a : A) :
  Q a -> returns Q (ret (World := World) a).
Proof. intros H w b E. injection E as <-. exact H. Qed.

Lemma returns_throw {A : Type} (Q : A -> Prop) (e : thrown) :
  returns Q (throw (World := World) e).
Proof. intros w b E. discriminate. Qed.

Lemma returns_bind {A B : Type} (Qm : A -> Prop) (Q : B -> Prop)
      (m : M World A) (f : A -> M World B) :
  returns Qm m -> (forall a, Qm a -> returns Q (f a)) -> returns Q (bind m f).
Proof.
  intros Hm Hf w b. rewrite bind_run.
  destruct (result (m w)) as [e|a] eqn:E; simpl; [discriminate|].
  apply (Hf a (Hm w a E)).
Qed.

Lemma returns_any {A : Type} (m : M World A) : returns (fun _ => True) m.
Proof. intros w a _. exact I. Qed.

Variable Inv : World -> Prop.

Lemma keeps_ret {A : Type} (a : A) : keeps Inv (ret a).
Proof. intros w H. exact H. Qed.

Lemma keeps_throw {A : Type} (e : thrown) : keeps Inv (throw (A := A) e).
Proof. intros w H. exact H. Qed.

Lemma keeps_lift {A : Type} (r : thrown + A) : keeps Inv (lift r).
Proof. intros w H. exact H. Qed.

Lemma keeps_log (args : list LogArg) : keeps Inv (log args).
Proof. intros w H. exact H. Qed.

Lemma keeps_say (s : string) : keeps Inv (say s).
Proof. intros w H. exact H. Qed.

Lemma keeps_sleep (ms : nat) : keeps Inv (sleep ms).
Proof. intros w H. exact H. Qed.

Lemma keeps_now (clock : World -> string) : keeps Inv (now clock).
Proof. intros w H. exact H. Qed.

Lemma keeps_call {T : Type} (c : Call T) :
  (forall w, Inv w -> Inv (fst (respond w c))) -> keeps Inv (call respond c).
Proof. intros H w Hw. apply H, Hw. Qed.

Lemma keeps_bind {A B : Type} (m : M World A) (f : A -> M World B) :
  keeps Inv m -> (forall a, keeps Inv (f a)) -> keeps Inv (bind m f).
Proof.
  intros Hm Hf w Hw. rewrite bind_run.
  destruct (result (m w)) as [e|a]; simpl; [apply Hm, Hw|].
  apply Hf, Hm, Hw.
Qed.

Lemma keeps_try_catch {A : Type} (m : M World A) (h : thrown -> M World A) :
  keeps Inv m -> (forall e, keeps Inv (h e)) -> keeps Inv (try_catch m h).
Proof.
  intros Hm Hh w Hw. unfold try_catch.
  destruct (result (m w)) as [e|a]; simpl; [|apply Hm, Hw].
  apply Hh, Hm, Hw.
Qed.

End Runs.

Lemma filter_none {A : Type} (f : A -> bool) (l : list A) :
  Forall (fun x => f x = false) l -> filter f l = [].
Proof.
  induction 1 as [|x l Hx _ IH]; simpl; [reflexivity|]. now rewrite Hx.
Qed.

Ltac script_step :=
  match goal with
  | |- only _ _ =>
      first [ apply only_bind | apply only_try_catch | apply only_say | apply only_log
            | apply only_ret | apply only_throw | apply only_lift | apply only_call
            | apply only_now | apply only_sleep ]
  | |- keeps _ _ =>
      first [ apply keeps_bind | apply keeps_try_catch | apply keeps_say | apply keeps_log
            | apply keeps_ret | apply keeps_throw | apply keeps_lift | apply keeps_call
            | apply keeps_now | apply keeps_sleep ]
  end.

Ltac script_intro :=
  match goal with
  | |- forall _, _ => intro
  end.

Ltac script_auto := repeat (script_step || script_intro).

(* ------------------------------------------------------------------ *)
(** * Label codec                                                       *)
(* ------------------------------------------------------------------ *)

(** A key has the specified shape when the pattern says so; this decides
    the shape of a concrete key by running the matcher. *)
Lemma key_shape_by_matcher (k : string) (r : found) :
  exec_at key_re 0 k no_groups = Some r -> key_shape k.
Proof. intros H. apply (exec_key_re k 0 no_groups). now exists r. Qed.

Lemma not_key_shape_by_matcher (k : string) :
  exec_at key_re 0 k no_groups = None -> ~ key_shape k.
Proof.
  intros H Hk. apply (exec_key_re k 0 no_groups) in Hk as (r & Hr). congruence.
Qed.

Lemma not_sync_name_by_matcher (n : string) :
  test sync_label_re n = false -> ~ is_sync_name n.
Proof. apply test_sync_label_false. Qed.

(** Project keys of a single letter are not of the shape: [jira:A-1] is not
    a sync label. *)
Example single_letter_project_is_no_sync_label :
  getJiraKeyFromLabels [ {| name := "jira:A-1" |} ] = None.
Proof. reflexivity. Qed.

Lemma getJiraKeyFromLabels_finds (labels : list Label) :
  (exists l, In l labels /\ is_sync_name (name l)) ->
  exists pre l post k,
    labels = (pre ++ l :: post)%list /\ no_sync_label pre /\
    name l = "jira:" ++ k /\ key_shape k /\
    getJiraKeyFromLabels labels = Some k.
Proof.
  intros (l & Hin & Hl).
  destruct (getJiraKeyFromLabels labels) as [k|] eqn:Hget.
  - apply getJiraKeyFromLabels_some in Hget as (Hk & pre & l' & post & -> & Hpre & Hn).
    exists pre, l', post, k. repeat split; auto.
  - apply getJiraKeyFromLabels_none in Hget. now apply Hget in Hin.
Qed.

(** C2. For every label set that contains a sync label name (the marker
    [jira:] followed by a key made of a project key -- one uppercase letter
    followed by uppercase letters or digits -- a dash and one or more
    digits), [getJiraKeyFromLabels] returns exactly the key of the first
    such label in list order, that is, what follows the marker; for every
    label set without such a name it returns nothing.  It is a function of
    the label list alone and has no failing case. *)
Theorem getJiraKeyFromLabels_spec (labels : list Label) :
  ((exists l, In l labels /\ is_sync_name (name l)) ->
   exists pre l post k,
     labels = (pre ++ l :: post)%list /\ no_sync_label pre /\
     name l = "jira:" ++ k /\ key_shape k /\
     getJiraKeyFromLabels labels = Some k)
  /\ (no_sync_label labels -> getJiraKeyFromLabels labels = None).
Proof.
  split.
  - apply getJiraKeyFromLabels_finds.
  - apply getJiraKeyFromLabels_none.
Qed.

Lemma getJiraKeyFromLabels_spec_witness :
  (exists pre l post k,
     [ {| name := "bug" |}; {| name := "jira:OLSF-42" |}; {| name := "jira:AB1-7" |} ]
       = (pre ++ l :: post)%list /\ no_sync_label pre /\
     name l = "jira:" ++ k /\ key_shape k /\
     getJiraKeyFromLabels
       [ {| name := "bug" |}; {| name := "jira:OLSF-42" |}; {| name := "jira:AB1-7" |} ]
       = Some k)
  /\ getJiraKeyFromLabels [ {| name := "bug" |}; {| name := "jira:olsf-42" |} ] = None.
Proof.
  split.
  - apply (proj1 (getJiraKeyFromLabels_spec _)).
    exists {| name := "jira:OLSF-42" |}. split; [simpl; auto|].
    exists "OLSF-42". split; [reflexivity|].
    eapply key_shape_by_matcher. reflexivity.
  - apply (proj2 (getJiraKeyFromLabels_spec _)).
    intros l [<-|[<-|[]]]; apply not_sync_name_by_matcher; reflexivity.
Defined.

(** C10. Round trip of the label codec: for every Jira key [k] of the
    specified shape and every label list without a sync label, putting the
    label named ["jira:" ++ k] into the list (at any place) and reading the
    list back with [getJiraKeyFromLabels] returns exactly [k]; and the name
    [applyJiraLabel] attaches for the key [k] is that name. *)
Theorem label_codec_round_trip (k : string) (pre post : list Label) :
  key_shape k ->
  no_sync_label (pre ++ post)%list ->
  getJiraKeyFromLabels (pre ++ {| name := sync_label_name k |} :: post)%list = Some k
  /\ forall (World : Type) (respond : forall T, World -> Call T -> World * (thrown + T))
            (env : Env) (n : nat) (w : World) (e : Event),
       In e (events (applyJiraLabel respond env n k w)) ->
       attached_names e = [] \/ attached_names e = [sync_label_name k].
Proof.
  intros Hk Hno. split.
  - apply getJiraKeyFromLabels_first; auto.
    intros l Hl. apply Hno. apply in_or_app. now left.
  - intros World respond env n w e He.
    assert (Hall : only (fun e => attached_names e = [] \/
                                  attached_names e = [sync_label_name k])
                     (applyJiraLabel respond env n k)).
    { unfold applyJiraLabel, ensureLabel.
      destruct (DRY_RUN env); script_auto; simpl; auto. }
    exact (proj1 (Forall_forall _ _) (Hall w) e He).
Qed.

Lemma label_codec_round_trip_witness :
  getJiraKeyFromLabels
    ([ {| name := "bug" |} ] ++ {| name := sync_label_name "OLSF-42" |}
       :: [ {| name := "priority:high" |} ])%list = Some "OLSF-42".
Proof.
  apply (label_codec_round_trip (k := "OLSF-42") [ {| name := "bug" |} ]
           [ {| name := "priority:high" |} ]).
  - eapply key_shape_by_matcher. reflexivity.
  - intros l [<-|[<-|[]]]; apply not_sync_name_by_matcher; reflexivity.
Defined.

(* ------------------------------------------------------------------ *)
(** * Summary derivation                                                *)
(* ------------------------------------------------------------------ *)

Lemma take_length (n : nat) (s : string) : String.length (Str.take n s) <= n.
Proof.
  revert s. induction n as [|n IH]; intros [|c s]; simpl; try lia.
  specialize (IH s). lia.
Qed.

Lemma take_all (n : nat) (s : string) : String.length s <= n -> Str.take n s = s.
Proof.
  revert s. induction n as [|n IH]; intros [|c s]; simpl; intros H; try lia; auto.
  rewrite IH; auto. lia.
Qed.

(** The summary is clamped to 255 characters. *)
Lemma summary_of_length (title : string) : String.length (summary_of title) <= 255.
Proof. apply take_length. Qed.

(** Past the start of the input a pattern that begins with [^] matches
    nowhere, so a global replace only drops what is left of a match that
    began at the start. *)
Lemma remove_all_bol_later (re : regex) (s : string) :
  forall pos skip, remove_all_from (Bol :: re) (S pos) skip s = Str.slice skip s.
Proof.
  induction s as [|c s IH]; intros pos [|n]; simpl; auto.
  now rewrite IH.
Qed.

(** A title that does not start with an opening bracket is only trimmed and
    clamped. *)
Lemma summary_of_no_bracket (title : string) :
  match title with
  | String c _ => c <> "["%char
  | EmptyString => True
  end ->
  summary_of title = Str.take 255 (Str.trim title).
Proof.
  unfold summary_of, remove_all. destruct title as [|c s]; intros H; [reflexivity|].
  assert (Hc : Str.is_char "[" c = false).
  { unfold Str.is_char. now apply Ascii.eqb_neq. }
  unfold title_prefix_re. cbn [app lit remove_all_from exec_at Nat.eqb].
  rewrite Hc. fold title_prefix_re.
  now rewrite (remove_all_bol_later _ s 0 0).
Qed.

(** A title without bracket prefix and without white space around it is
    only clamped. *)
Lemma summary_of_plain_title (title : string) :
  match title with
  | String c _ => c <> "["%char
  | EmptyString => True
  end ->
  Str.trim title = title ->
  summary_of title = Str.take 255 title.
Proof. intros H Ht. now rewrite summary_of_no_bracket, Ht. Qed.

(** X15. What the global replace does to a title with bracket groups in front:
    the first group and the white space after it go, the rest stays, a
    second group included. *)
Lemma summary_of_strips_first_group (a ws tail : string) :
  Str.all not_close_bracket a = true ->
  Str.all Str.is_space ws = true ->
  run_ends Str.is_space tail ->
  summary_of ("[" ++ a ++ "]" ++ ws ++ tail) = Str.take 255 (Str.trim tail).
Proof.
  intros Ha Hws Htail. unfold summary_of, remove_all. f_equal. f_equal.
  assert (Hexec :
    exec_at title_prefix_re 0 ("[" ++ a ++ "]" ++ ws ++ tail) no_groups
    = Some {| stop := 1 + String.length a + 1 + String.length ws;
              rest := tail; group1 := None |}).
  { unfold title_prefix_re. cbn [app lit exec_at Nat.eqb append].
    rewrite is_char_refl.
    apply rep_greedy_run; auto; [lia | reflexivity |].
    cbn [exec_at append]. rewrite is_char_refl.
    apply rep_greedy_run; auto; [lia|].
    cbn [exec_at]. f_equal. f_equal. lia. }
  cbn [append] in *. cbn [remove_all_from]. rewrite Hexec. cbn [stop].
  replace (1 + String.length a + 1 + String.length ws - 0)
    with (S (String.length a + 1 + String.length ws)) by lia.
  unfold title_prefix_re. cbn [app]. rewrite remove_all_bol_later.
  clear. induction a as [|c a IH]; simpl.
  - induction ws as [|c ws IH]; simpl; auto.
  - exact IH.
Qed.

(** C5 (the code departs from it). For the title
    ["[TODO][P1 CRITICAL] Fix race condition"] the summary the script
    derives is ["[P1 CRITICAL] Fix race condition"]: the pattern is anchored
    at the start, so its global replace removes the first bracket group only
    and the second group stays in the summary, where the specification (and
    the comment above the statement) want ["Fix race condition"]. *)
Theorem summary_of_todo_title :
  summary_of "[TODO][P1 CRITICAL] Fix race condition"
  = "[P1 CRITICAL] Fix race condition"
  /\ summary_of "[TODO][P1 CRITICAL] Fix race condition" <> "Fix race condition".
Proof. split; [reflexivity | discriminate]. Qed.

(* ------------------------------------------------------------------ *)
(** * Field mapper                                                      *)
(* ------------------------------------------------------------------ *)

(** The values of the type table are non-empty strings. *)
Lemma TYPE_MAP_values (n v : string) :
  own_property TYPE_MAP n = Some v -> (v =? "") = false.
Proof.
  unfold TYPE_MAP. simpl.
  repeat match goal with
         | |- context [if ?b then _ else _] => destruct b
         end; intros H; inversion H; reflexivity.
Qed.

Lemma get_unmapped (o : list (string * string)) (n : string) :
  unmapped o n -> get o n = VUndefined.
Proof. intros [H1 H2]. unfold get. now rewrite H1, H2. Qed.

(** Without a label the table knows, and without a label named like an
    inherited member, the result is the configured default. *)
Lemma deriveIssueType_default (env : Env) (labels : list Label) :
  (forall l, In l labels -> unmapped TYPE_MAP (name l)) ->
  deriveIssueType env labels = VString (JIRA_ISSUE_TYPE_DEFAULT env).
Proof.
  induction labels as [|l ls IH]; intros H; simpl; [reflexivity|].
  rewrite (get_unmapped (H l (or_introl eq_refl))). simpl.
  apply IH. intros x Hx. apply H. now right.
Qed.

(** X8. The first label with an entry in the type table decides the issue
    type: labels before it are passed over when the table does not know
    them and they are not named like a member objects inherit, labels
    after it are not looked at. *)
Lemma deriveIssueType_first (env : Env) (pre post : list Label) (l : Label) (v : string) :
  (forall x, In x pre -> unmapped TYPE_MAP (name x)) ->
  own_property TYPE_MAP (name l) = Some v ->
  deriveIssueType env (pre ++ l :: post)%list = VString v.
Proof.
  intros Hpre Hl. induction pre as [|x pre IH]; simpl.
  - unfold get. rewrite Hl. simpl. now rewrite (TYPE_MAP_values _ Hl).
  - rewrite (get_unmapped (Hpre x (or_introl eq_refl))). simpl.
    apply IH. intros y Hy. apply Hpre. now right.
Qed.

(** The default comes from the configuration: [JIRA_ISSUE_TYPE_DEFAULT] of
    the environment when it is set and non-empty. *)
Lemma loadEnv_issue_type_default (penv : process_env) (env : Env) (d : string) :
  loadEnv penv = inr env ->
  penv "JIRA_ISSUE_TYPE_DEFAULT" = Some d -> d <> "" ->
  JIRA_ISSUE_TYPE_DEFAULT env = d.
Proof.
  unfold loadEnv. intros H Hd Hne.
  destruct (find _ _) as [[key v]|]; [discriminate|].
  injection H as <-. simpl. rewrite Hd. simpl.
  apply String.eqb_neq in Hne. now rewrite Hne.
Qed.

(** C6 (the code departs from it). A label named like a member every
    object inherits from [Object.prototype] -- [constructor] here -- has no
    entry in the issue-type table, yet [TYPE_MAP[l.name]] is truthy for it,
    so [deriveIssueType] returns that inherited member and not the
    configured default; such a label also hides a mapped label after it. *)
Theorem deriveIssueType_inherited_member (env : Env) :
  own_property TYPE_MAP "constructor" = None
  /\ deriveIssueType env [ {| name := "constructor" |} ] = VInherited "constructor"
  /\ deriveIssueType env [ {| name := "constructor" |} ]
     <> VString (JIRA_ISSUE_TYPE_DEFAULT env)
  /\ deriveIssueType env [ {| name := "constructor" |}; {| name := "bug" |} ]
     <> VString "Bug".
Proof. repeat split; try reflexivity; discriminate. Qed.

(* ------------------------------------------------------------------ *)
(** * Description composer                                              *)
(* ------------------------------------------------------------------ *)

Lemma filter_Boolean_app {A : Type} (l1 l2 : list (option A)) :
  filter_Boolean (l1 ++ l2) = (filter_Boolean l1 ++ filter_Boolean l2)%list.
Proof.
  induction l1 as [|[x|] l1 IH]; simpl; auto. now rewrite IH.
Qed.

(** The shape of every description: provenance, quote, heading, the table
    with the rows of the populated fields and the GitHub row last, and then
    nothing or the two code-context blocks. *)
Lemma buildDescription_shape (issue : Issue) (meta : Meta) :
  exists code_context,
    Adf.content (buildDescription issue meta)
    = ([ provenance;
         Adf.blockquote
           [Adf.paragraph [Adf.text (or_else (todoText meta) (title issue)) []]];
         Adf.heading 3 [Adf.text "Details" []];
         Adf.table false "default"
           (adfTableRow ["Field"; "Value"] true
              :: map (fun kv => adfTableRow [fst kv; snd kv] false)
                   (field_rows meta ++ [("GitHub Issue", html_url issue)])) ]
         ++ code_context)%list.
Proof.
  unfold buildDescription, field_rows.
  rewrite <- (filter_Boolean_app _ [Some ("GitHub Issue", html_url issue)]).
  destruct (if_truthy (codeBlock meta)); eexists; simpl; [reflexivity|].
  instantiate (1 := []). reflexivity.
Qed.

(** C7. For metadata in which only [file] and [author] are populated (the
    other four fields absent or empty), the table under the heading
    "Details" is the header row followed by exactly the row of the file, the
    row of the author and, last, the row with the URL of the GitHub issue:
    two field rows in the fixed order and the link row, and no row for a
    field that is absent. *)
Theorem details_table_file_and_author
        (issue : Issue) (meta : Meta) (f a : string) :
  file meta = Some f -> f <> "" ->
  author meta = Some a -> a <> "" ->
  if_truthy (line meta) = None ->
  if_truthy (branch meta) = None ->
  if_truthy (commit meta) = None ->
  if_truthy (introduced meta) = None ->
  nth_error (Adf.content (buildDescription issue meta)) 2
  = Some (Adf.heading 3 [Adf.text "Details" []])
  /\ nth_error (Adf.content (buildDescription issue meta)) 3
     = Some (Adf.table false "default"
               [ Adf.tableRow
                   [ Adf.tableHeader [Adf.paragraph [Adf.text "Field" []]];
                     Adf.tableHeader [Adf.paragraph [Adf.text "Value" []]] ];
                 Adf.tableRow
                   [ Adf.tableCell [Adf.paragraph [Adf.text "File" []]];
                     Adf.tableCell [Adf.paragraph [Adf.text f []]] ];
                 Adf.tableRow
                   [ Adf.tableCell [Adf.paragraph [Adf.text "Author" []]];
                     Adf.tableCell [Adf.paragraph [Adf.text a []]] ];
                 Adf.tableRow
                   [ Adf.tableCell [Adf.paragraph [Adf.text "GitHub Issue" []]];
                     Adf.tableCell [Adf.paragraph [Adf.text (html_url issue) []]] ] ]).
Proof.
  intros Hf Hfne Ha Hane Hl Hb Hc Hi.
  destruct (buildDescription_shape issue meta) as (cc & ->).
  unfold field_rows, and_row. rewrite Hf, Ha, Hl, Hb, Hc, Hi. simpl.
  apply String.eqb_neq in Hfne, Hane. rewrite Hfne, Hane. simpl. auto.
Qed.

Lemma details_table_file_and_author_witness :
  nth_error
    (Adf.content
       (buildDescription issue1
          {| todoText := None; codeBlock := None; file := Some "src/a.js";
             line := None; branch := Some ""; commit := None; introduced := None;
             author := Some "bob" |})) 3
  = Some (Adf.table false "default"
            [ Adf.tableRow
                [ Adf.tableHeader [Adf.paragraph [Adf.text "Field" []]];
                  Adf.tableHeader [Adf.paragraph [Adf.text "Value" []]] ];
              Adf.tableRow
                [ Adf.tableCell [Adf.paragraph [Adf.text "File" []]];
                  Adf.tableCell [Adf.paragraph [Adf.text "src/a.js" []]] ];
              Adf.tableRow
                [ Adf.tableCell [Adf.paragraph [Adf.text "Author" []]];
                  Adf.tableCell [Adf.paragraph [Adf.text "bob" []]] ];
              Adf.tableRow
                [ Adf.tableCell [Adf.paragraph [Adf.text "GitHub Issue" []]];
                  Adf.tableCell
                    [Adf.paragraph
                       [Adf.text "https://github.com/acme/app/issues/1" []]] ] ]).
Proof.
  apply (details_table_file_and_author issue1
           {| todoText := None; codeBlock := None; file := Some "src/a.js";
              line := None; branch := Some ""; commit := None; introduced := None;
              author := Some "bob" |} (f := "src/a.js") (a := "bob"));
    try reflexivity; discriminate.
Defined.

(** X14. The composer proper, [buildDescription], has a result for every issue
    and every metadata record: its first block is the provenance
    paragraph, and its fourth block is the table, whose first row is the
    header row with the cells "Field" and "Value" and whose last row has
    the two cells "GitHub Issue" and the URL of the issue. *)
Lemma buildDescription_provenance_and_link (issue : Issue) (meta : Meta) :
  nth_error (Adf.content (buildDescription issue meta)) 0
  = Some (Adf.paragraph
            [ Adf.text "Auto-migrated from GitHub Issues by " [Adf.em];
              Adf.text "gh-issue-jira-sync" [Adf.em; Adf.strong];
              Adf.text "." [Adf.em] ])
  /\ exists rows,
       nth_error (Adf.content (buildDescription issue meta)) 3
       = Some (Adf.table false "default"
                 (Adf.tableRow
                    [ Adf.tableHeader [Adf.paragraph [Adf.text "Field" []]];
                      Adf.tableHeader [Adf.paragraph [Adf.text "Value" []]] ]
                    :: rows
                    ++ [ Adf.tableRow
                           [ Adf.tableCell [Adf.paragraph [Adf.text "GitHub Issue" []]];
                             Adf.tableCell
                               [Adf.paragraph [Adf.text (html_url issue) []]] ] ])%list).
Proof.
  destruct (buildDescription_shape issue meta) as (cc & ->). split; [reflexivity|].
  exists (map (fun kv => adfTableRow [fst kv; snd kv] false) (field_rows meta)).
  simpl. now rewrite map_app.
Qed.

(** With a body that is a string, or with no [body] property at all, the
    metadata is extracted and the description is composed. *)
Lemma parseBody_returns (b : jsstr) :
  b <> Null -> exists meta, parseBody b = inr meta.
Proof. destruct b; intros H; [| congruence |]; eexists; reflexivity. Qed.

(** C8 (the code departs from it). For an issue whose body is absent the
    way the GitHub API reports it -- [body: null] -- the description is never
    composed: [parseBody] is given [null], for which the default [''] of its
    parameter does not stand in, and its first [body.match] throws a
    [TypeError]; [createJiraIssue] ends there, before it logs or calls
    anything, whatever the world and the configuration. *)
Theorem description_of_null_body_throws
        (World : Type) (respond : forall T, World -> Call T -> World * (thrown + T))
        (env : Env) (issue : Issue) (w : World) :
  body issue = Null ->
  parseBody (body issue)
  = inl (TypeError "Cannot read properties of null (reading 'match')")
  /\ result (createJiraIssue respond env issue w)
     = inl (TypeError "Cannot read properties of null (reading 'match')")
  /\ events (createJiraIssue respond env issue w) = [].
Proof.
  intros H. unfold createJiraIssue. rewrite bind_run. unfold lift. simpl.
  rewrite H. simpl. auto.
Qed.

Lemma description_of_null_body_throws_witness :
  result (createJiraIssue Sim.respond env0 issue2 world0)
  = inl (TypeError "Cannot read properties of null (reading 'match')").
Proof.
  apply (description_of_null_body_throws Sim.respond env0 issue2 world0).
  reflexivity.
Defined.

(* ------------------------------------------------------------------ *)
(** * Dry run                                                           *)
(* ------------------------------------------------------------------ *)

Lemma last_char_append (a b : string) :
  b <> "" -> last_char (a ++ b) = last_char b.
Proof.
  intros Hb. induction a as [|c a IH]; simpl; [reflexivity|].
  rewrite IH. destruct (a ++ b) eqn:E; [|reflexivity].
  destruct a; simpl in E; [congruence | discriminate].
Qed.

Lemma last_char_all (p : ascii -> bool) (s : string) (c : ascii) :
  Str.all p s = true -> last_char s = Some c -> p c = true.
Proof.
  induction s as [|x s IH]; simpl; [discriminate|].
  intros H. apply andb_true_iff in H as [Hx Hs].
  destruct s; [intros E; injection E as <-; exact Hx | now apply IH].
Qed.

(** A Jira key ends in a digit. *)
Lemma key_shape_ends_in_digit (k : string) :
  key_shape k -> exists c, last_char k = Some c /\ Str.is_digit c = true.
Proof.
  intros (p & ds & -> & _ & Hds & Hall).
  rewrite last_char_append.
  2:{ destruct ds; simpl; congruence. }
  rewrite (last_char_append "-" Hds).
  destruct (last_char ds) as [c|] eqn:E.
  - exists c. split; auto. now apply (last_char_all _ _ Hall).
  - destruct ds as [|x ds]; [congruence|]. exfalso. clear -E.
    revert x E. induction ds as [|y ds IH]; intros x E; simpl in E; [discriminate|].
    now apply (IH y).
Qed.

(** The placeholder of a dry run is no Jira key, whatever the project. *)
Lemma dry_run_key_is_no_key (project : string) : ~ key_shape (project ++ "-DRY").
Proof.
  intros H. apply key_shape_ends_in_digit in H as (c & Hc & Hd).
  rewrite last_char_append in Hc by discriminate.
  simpl in Hc. injection Hc as <-. discriminate.
Qed.

Ltac script_cases :=
  repeat (script_step || script_intro
          || match goal with
             | |- only _ (match ?x with _ => _ end) => destruct x
             | |- keeps _ (match ?x with _ => _ end) => destruct x
             end).

Section DryRun.

Variable World : Type.
Variable respond : forall T : Type, World -> Call T -> World * (thrown + T).
Variable clock : World -> string.
Variable env : Env.
Hypothesis dry : DRY_RUN env = true.

Lemma syncIssue_dry_no_write (n : nat) :
  only (fun e => is_write e = false) (syncIssue respond clock env n).
Proof.
  unfold syncIssue, createJiraIssue, applyJiraLabel, closeIssue. rewrite dry.
  script_cases; reflexivity.
Qed.

Lemma createJiraIssue_dry (issue : Issue) (meta : Meta) (w : World) :
  parseBody (body issue) = inr meta ->
  final (createJiraIssue respond env issue w) = w
  /\ result (createJiraIssue respond env issue w) = inr (JIRA_PROJECT_KEY env ++ "-DRY")
  /\ In (Logged [LText "  [DRY RUN] Skipping Jira API call"])
        (events (createJiraIssue respond env issue w)).
Proof.
  intros Hmeta. unfold createJiraIssue. rewrite dry, Hmeta.
  repeat split. simpl. auto.
Qed.

Lemma applyJiraLabel_dry (n : nat) (k : string) (w : World) :
  final (applyJiraLabel respond env n k w) = w
  /\ result (applyJiraLabel respond env n k w) = inr tt
  /\ In (Logged [LText "  [DRY RUN] Skipping label creation"])
        (events (applyJiraLabel respond env n k w)).
Proof. unfold applyJiraLabel. rewrite dry. repeat split. simpl. auto. Qed.

Lemma closeIssue_dry (n : nat) (k : string) (w : World) :
  final (closeIssue respond clock env n k w) = w
  /\ result (closeIssue respond clock env n k w) = inr tt
  /\ In (Logged [LText "  [DRY RUN] Skipping close"])
        (events (closeIssue respond clock env n k w)).
Proof. unfold closeIssue. rewrite dry. repeat split. simpl. auto. Qed.

Lemma syncIssue_dry_returns (n : nat) :
  returns (fun r => sync_status r = "synced" ->
                    jiraKey r = Some (JIRA_PROJECT_KEY env ++ "-DRY"))
          (syncIssue respond clock env n).
Proof.
  unfold syncIssue.
  eapply returns_bind; [apply returns_any | intros _ _].
  eapply returns_bind; [apply returns_any | intros issue _].
  destruct (getJiraKeyFromLabels (labels issue)).
  { eapply returns_bind; [apply returns_any | intros _ _].
    apply returns_ret. discriminate. }
  destruct (state issue =? "closed").
  { eapply returns_bind; [apply returns_any | intros _ _].
    apply returns_ret. discriminate. }
  eapply returns_bind with (Qm := fun k => k = JIRA_PROJECT_KEY env ++ "-DRY").
  { intros w k. unfold createJiraIssue. rewrite dry, bind_run. unfold lift. simpl.
    destruct (parseBody (body issue)); simpl; congruence. }
  intros k ->.
  repeat (eapply returns_bind; [apply returns_any | intros _ _]).
  apply returns_ret. reflexivity.
Qed.

(** With dry run on, an open issue without a sync label and with a body
    that can be parsed goes through the whole sequence: every write is
    replaced by a line on the console and the run returns the
    placeholder. *)
Lemma syncIssue_dry_completes (n : nat) (w : World) (issue : Issue) :
  snd (respond w (issues_get n)) = inr issue ->
  getJiraKeyFromLabels (labels issue) = None ->
  state issue <> "closed" ->
  body issue <> Null ->
  (forall w' path data, snd (respond w' (fs_appendFileSync path data)) = inr tt) ->
  let o := syncIssue respond clock env n w in
  result o = inr {| sync_status := "synced"; reason := None;
                    jiraKey := Some (JIRA_PROJECT_KEY env ++ "-DRY") |}
  /\ In (Logged [LText "  [DRY RUN] Skipping Jira API call"]) (events o)
  /\ In (Logged [LText "  [DRY RUN] Skipping label creation"]) (events o)
  /\ (CLOSE_AFTER_SYNC env = true ->
      In (Logged [LText "  [DRY RUN] Skipping close"]) (events o)).
Proof.
  intros Hget Hkey Hstate Hbody Hout.
  destruct (parseBody_returns Hbody) as [meta Hmeta].
  apply String.eqb_neq in Hstate.
  unfold syncIssue. rewrite bind_say, bind_call, Hget, Hkey, Hstate.
  set (w1 := fst (respond w (issues_get n))).
  destruct (createJiraIssue_dry issue w1 Hmeta) as (Hf1 & Hr1 & Hin1).
  rewrite bind_run, Hr1, Hf1, bind_say.
  set (k := JIRA_PROJECT_KEY env ++ "-DRY").
  destruct (applyJiraLabel_dry n k w1) as (Hf2 & Hr2 & Hin2).
  rewrite bind_run, Hr2, Hf2.
  assert (Hclose :
    let c := (if CLOSE_AFTER_SYNC env then closeIssue respond clock env n k else ret tt)
               w1 in
    final c = w1 /\ result c = inr tt /\
    (CLOSE_AFTER_SYNC env = true ->
     In (Logged [LText "  [DRY RUN] Skipping close"]) (events c))).
  { destruct (CLOSE_AFTER_SYNC env).
    - destruct (closeIssue_dry n k w1) as (H1 & H2 & H3). auto.
    - simpl. repeat split. discriminate. }
  destruct Hclose as (Hf3 & Hr3 & Hin3).
  rewrite bind_run, Hr3, Hf3.
  assert (Hsink :
    let c := match if_truthy (GITHUB_OUTPUT env) with
             | Some path =>
                 call respond
                   (fs_appendFileSync path ("jira_key=" ++ k ++ String LF ""))
             | None => ret tt
             end w1 in
    result c = inr tt).
  { destruct (if_truthy (GITHUB_OUTPUT env)); [apply Hout | reflexivity]. }
  rewrite bind_run, Hsink, bind_say. cbn [after events result ret].
  split; [reflexivity|].
  repeat split; intros; repeat (apply in_cons || apply in_or_app);
    auto 10 using in_or_app, in_cons.
Qed.

End DryRun.

(** C4. With dry run enabled, a run of [syncIssue] makes no write call on
    the trackers -- no Jira create, no label creation, no label attach, no
    comment, no state update -- whatever the world answers; a run that
    returns [synced] carries the placeholder [<project>-DRY], which no Jira
    key equals since a key ends in digits; and for an open issue without a
    sync label (fetched, body parsed, the runner's output file writable)
    the whole sequence is walked: each skipped write leaves its line on the
    console and the run returns [synced] with the placeholder.  The line
    for the runner's output file is not a tracker write and is still
    appended. *)
Theorem dry_run_makes_no_write
        (World : Type) (respond : forall T, World -> Call T -> World * (thrown + T))
        (clock : World -> string) (env : Env) (n : nat) (w : World) :
  DRY_RUN env = true ->
  let o := syncIssue respond clock env n w in
  writes (events o) = []
  /\ (forall r, result o = inr r -> sync_status r = "synced" ->
                jiraKey r = Some (JIRA_PROJECT_KEY env ++ "-DRY"))
  /\ ~ key_shape (JIRA_PROJECT_KEY env ++ "-DRY")
  /\ (forall issue,
        snd (respond _ w (issues_get n)) = inr issue ->
        getJiraKeyFromLabels (labels issue) = None ->
        state issue <> "closed" ->
        body issue <> Null ->
        (forall w' path data, snd (respond _ w' (fs_appendFileSync path data)) = inr tt) ->
        result o = inr {| sync_status := "synced"; reason := None;
                          jiraKey := Some (JIRA_PROJECT_KEY env ++ "-DRY") |}
        /\ In (Logged [LText "  [DRY RUN] Skipping Jira API call"]) (events o)
        /\ In (Logged [LText "  [DRY RUN] Skipping label creation"]) (events o)
        /\ (CLOSE_AFTER_SYNC env = true ->
            In (Logged [LText "  [DRY RUN] Skipping close"]) (events o))).
Proof.
  intros dry o. split; [|split; [|split]].
  - apply filter_none. now apply syncIssue_dry_no_write.
  - intros r Hr. revert w o r Hr. now apply syncIssue_dry_returns.
  - apply dry_run_key_is_no_key.
  - intros issue Hget Hkey Hstate Hbody Hout.
    exact (@syncIssue_dry_completes World respond clock env dry n w issue
             Hget Hkey Hstate Hbody Hout).
Qed.

Lemma dry_run_makes_no_write_witness :
  writes (events (Sim.syncIssue env0_dry 1 world0)) = []
  /\ result (Sim.syncIssue env0_dry 1 world0)
     = inr {| sync_status := "synced"; reason := None; jiraKey := Some "OLSF-DRY" |}.
Proof.
  destruct (dry_run_makes_no_write Sim.respond Sim.clock env0_dry 1 world0 eq_refl)
    as (Hw & _ & _ & Hrun).
  split; [exact Hw|].
  apply (Hrun issue1); try reflexivity; try discriminate.
Defined.

(* ------------------------------------------------------------------ *)
(** * Idempotence                                                       *)
(* ------------------------------------------------------------------ *)

(** The guard: when the fetched issue carries a sync label, [syncIssue]
    returns at once; its only call is the read of the issue. *)
Lemma syncIssue_guard
      (World : Type) (respond : forall T, World -> Call T -> World * (thrown + T))
      (clock : World -> string) (env : Env) (n : nat) (w : World)
      (issue : Issue) (k : string) :
  snd (respond _ w (issues_get n)) = inr issue ->
  getJiraKeyFromLabels (labels issue) = Some k ->
  let o := syncIssue respond clock env n w in
  result o = inr (already_synced k)
  /\ calls (events o) = [Called (issues_get n) (inr issue)]
  /\ writes (events o) = []
  /\ final o = fst (respond _ w (issues_get n)).
Proof.
  intros Hget Hkey. unfold syncIssue.
  rewrite bind_say, bind_call, Hget, Hkey. repeat split.
Qed.

Lemma labeled_none (n : nat) (k : string) (t : list Event) :
  Forall (fun e => attached n (sync_label_name k) e = false) t -> labeled n k t = false.
Proof.
  unfold labeled. induction 1 as [|e t He _ IH]; cbn [existsb]; [reflexivity|].
  now rewrite He, IH.
Qed.

Lemma labeled_app (n : nat) (k : string) (t1 t2 : list Event) :
  labeled n k (t1 ++ t2) = labeled n k t1 || labeled n k t2.
Proof. apply existsb_app. Qed.

Lemma getJiraKeyFromLabels_app (l1 l2 : list Label) (k : string) :
  getJiraKeyFromLabels l1 = Some k -> getJiraKeyFromLabels (l1 ++ l2) = Some k.
Proof.
  unfold getJiraKeyFromLabels.
  induction l1 as [|x l1 IH]; simpl; [discriminate|].
  destruct (test sync_label_re (name x)); auto.
Qed.

Section SimRuns.

Variable n : nat.
Variable k : string.

Lemma find_update_issue (f : Issue -> Issue) (m : nat) (l : list Issue) :
  (forall i, number (f i) = number i) ->
  find (Sim.is_number n) (Sim.update_issue f m l)
  = match find (Sim.is_number n) l with
    | Some i => Some (if Sim.is_number m i then f i else i)
    | None => None
    end.
Proof.
  intros Hf. induction l as [|x l IH]; simpl; [reflexivity|].
  assert (Hx : Sim.is_number n (if Sim.is_number m x then f x else x) = Sim.is_number n x).
  { unfold Sim.is_number. destruct (Nat.eqb (number x) m); [now rewrite Hf | reflexivity]. }
  rewrite Hx. destruct (Sim.is_number n x); auto.
Qed.

(** Nothing the reference world does removes or reorders labels: once an
    issue is synced as [k] it stays so. *)
Lemma sim_respond_keeps_synced (T : Type) (c : Call T) (w : Sim.World) :
  synced_as n k w -> synced_as n k (fst (Sim.respond w c)).
Proof.
  intros (i & Hfind & Hkey). unfold synced_as.
  destruct c; simpl;
    repeat match goal with
           | |- context [match find ?p ?l with _ => _ end] => destruct (find p l) eqn:?
           | |- context [if ?b then _ else _] => destruct b
           | |- context [match Sim.jira_keys ?w with _ => _ end] => destruct (Sim.jira_keys w)
           | |- context [match ?b with Some _ => _ | None => _ end] => destruct b
           end; simpl; eauto.
  - rewrite find_update_issue, Hfind by reflexivity.
    eexists; split; [reflexivity|].
    destruct (Sim.is_number issue_number i); auto.
    simpl. now apply getJiraKeyFromLabels_app.
  - rewrite find_update_issue, Hfind by reflexivity.
    eexists; split; [reflexivity|].
    destruct (Sim.is_number issue_number i); auto.
Qed.

Lemma sim_respond_issues (T : Type) (c : Call T) (w : Sim.World) :
  touches_issues c = false -> Sim.gh_issues (fst (Sim.respond w c)) = Sim.gh_issues w.
Proof.
  destruct c; simpl; try discriminate; intros _;
    repeat match goal with
           | |- context [match find ?p ?l with _ => _ end] => destruct (find p l)
           | |- context [if ?b then _ else _] => destruct b
           | |- context [match Sim.jira_keys ?w with _ => _ end] => destruct (Sim.jira_keys w)
           | |- context [match ?b with Some _ => _ | None => _ end] => destruct b
           end; reflexivity.
Qed.

End SimRuns.

Section NoAttach.

Variable World : Type.
Variable respond : forall T : Type, World -> Call T -> World * (thrown + T).
Variable clock : World -> string.
Variable env : Env.
Variable n : nat.
Variable label : string.

Ltac quiet_leaf := unfold no_attach; intros; simpl; try apply andb_false_r; reflexivity.

Lemma createJiraIssue_no_attach (issue : Issue) :
  only (no_attach n label) (createJiraIssue respond env issue).
Proof. unfold createJiraIssue, jira. script_cases; quiet_leaf. Qed.

Lemma ensureLabel_no_attach (name color description : string) :
  only (no_attach n label) (ensureLabel respond name color description).
Proof. unfold ensureLabel. script_cases; quiet_leaf. Qed.

Lemma closeIssue_no_attach (m : nat) (key : string) :
  only (no_attach n label) (closeIssue respond clock env m key).
Proof. unfold closeIssue. script_cases; quiet_leaf. Qed.

End NoAttach.

Section SimFirstRun.

Variable env : Env.
Variable n : nat.
Variable k : string.

Lemma sim_keeps_issues_createJiraIssue (issue : Issue) (L : list Issue) :
  keeps (fun w => Sim.gh_issues w = L) (createJiraIssue Sim.respond env issue).
Proof.
  unfold createJiraIssue, jira.
  script_cases; rewrite sim_respond_issues by reflexivity; assumption.
Qed.

Lemma sim_keeps_issues_ensureLabel (name color description : string) (L : list Issue) :
  keeps (fun w => Sim.gh_issues w = L)
        (ensureLabel Sim.respond name color description).
Proof.
  unfold ensureLabel.
  script_cases; rewrite sim_respond_issues by reflexivity; assumption.
Qed.

Lemma sim_keeps_synced_closeIssue (m : nat) (key : string) :
  keeps (synced_as n k) (closeIssue Sim.respond Sim.clock env m key).
Proof. unfold closeIssue. script_cases; now apply sim_respond_keeps_synced. Qed.

End SimFirstRun.

(** On the reference world, a fulfilled attach of [jira:k] to an issue that
    had no sync label leaves the issue synced as [k]. *)
Lemma sim_applyJiraLabel (env : Env) (n : nat) (k key0 : string) (w1 : Sim.World) (issue : Issue) :
  key_shape k ->
  find (Sim.is_number n) (Sim.gh_issues w1) = Some issue ->
  getJiraKeyFromLabels (labels issue) = None ->
  let o := applyJiraLabel Sim.respond env n key0 w1 in
  labeled n k (events o) = true ->
  synced_as n k (final o).
Proof.
  intros Hk Hfind Hkey o. subst o. unfold applyJiraLabel.
  destruct (DRY_RUN env); [discriminate|].
  rewrite bind_say, bind_run.
  set (o1 := ensureLabel Sim.respond _ _ _ w1).
  assert (Hq : labeled n k (events o1) = false).
  { apply labeled_none. apply ensureLabel_no_attach. }
  assert (Hi : Sim.gh_issues (final o1) = Sim.gh_issues w1).
  { now apply sim_keeps_issues_ensureLabel. }
  destruct (result o1) as [e|[]].
  - cbn [after events final]. rewrite labeled_app, Hq. discriminate.
  - unfold call. cbn [after events final fst snd Sim.respond]. rewrite Hi, Hfind.
    cbn [fst snd]. rewrite !labeled_app, Hq.
    intros Hl. unfold labeled in Hl. cbn [existsb attached fulfilled_of] in Hl.
    rewrite !orb_false_r, !orb_false_l, Bool.andb_true_l in Hl. simpl orb in Hl.
    apply andb_true_iff in Hl as [_ Hl].
    assert (Hname : sync_label_name k = "jira:" ++ key0).
    { destruct (String.eqb_spec (sync_label_name k) ("jira:" ++ key0)); auto.
      discriminate. }
    injection Hname as <-.
    exists (Sim.add_labels ["jira:" ++ k] issue). split.
    + cbn [Sim.with_issues Sim.gh_issues].
      rewrite find_update_issue, Hfind by reflexivity.
      now rewrite (proj2 (find_some _ _ Hfind)).
    + cbn [Sim.add_labels labels filter map].
      destruct (Sim.has_label issue ("jira:" ++ k)) eqn:Hhas; cbn [negb map].
      * exfalso. unfold Sim.has_label in Hhas.
        apply existsb_exists in Hhas as (l & Hin & Hl').
        apply String.eqb_eq in Hl'.
        apply getJiraKeyFromLabels_none in Hkey. apply (Hkey l Hin).
        exists k. split; auto.
      * apply getJiraKeyFromLabels_first; auto.
        now apply getJiraKeyFromLabels_none.
Qed.

(** A run that completed the LABELED transition with a key of the Jira
    shape leaves the issue synced as that key, whether or not the later
    steps (comment, close, output line) went through. *)
Lemma sim_first_run (env : Env) (n : nat) (k : string) (w : Sim.World) :
  key_shape k ->
  labeled n k (events (Sim.syncIssue env n w)) = true ->
  synced_as n k (final (Sim.syncIssue env n w)).
Proof.
  intros Hk. unfold Sim.syncIssue, syncIssue.
  rewrite bind_say, bind_call. cbn [Sim.respond].
  destruct (find (Sim.is_number n) (Sim.gh_issues w)) as [issue|] eqn:Hfind;
    cbn [fst snd Sim.not_found]; [|discriminate].
  destruct (getJiraKeyFromLabels (labels issue)) eqn:Hkey; [discriminate|].
  destruct (state issue =? "closed"); [discriminate|].
  rewrite bind_run.
  set (o1 := createJiraIssue Sim.respond env issue w).
  assert (Hq1 : labeled n k (events o1) = false).
  { apply labeled_none. apply createJiraIssue_no_attach. }
  assert (Hi1 : Sim.gh_issues (final o1) = Sim.gh_issues w).
  { now apply sim_keeps_issues_createJiraIssue. }
  destruct (result o1) as [e|key0].
  { cbn [after events]. rewrite !labeled_app, Hq1. discriminate. }
  rewrite bind_say, bind_run.
  set (o2 := applyJiraLabel Sim.respond env n key0 (final o1)).
  match goal with
  | |- context [bind ?a ?f (final o2)] => set (tail := bind a f)
  end.
  assert (Hq3 : forall w2, labeled n k (events (tail w2)) = false).
  { intros w2. apply labeled_none. revert w2.
    change (only (fun e => attached n (sync_label_name k) e = false) tail).
    subst tail. script_cases; try apply closeIssue_no_attach;
      intros; simpl; try apply andb_false_r; reflexivity. }
  assert (Hk3 : keeps (synced_as n k) tail).
  { subst tail. script_cases; try apply sim_keeps_synced_closeIssue;
      try (now apply sim_respond_keeps_synced); auto. }
  destruct (labeled n k (events o2)) eqn:Hl2.
  - intros _.
    assert (Hs2 : synced_as n k (final o2)).
    { apply (@sim_applyJiraLabel env n k key0 (final o1) issue); auto.
      now rewrite Hi1. }
    destruct (result o2) as [e|[]]; cbn [after final]; auto.
  - destruct (result o2) as [e|[]]; cbn [after events];
      rewrite ?labeled_app, ?Hq1, ?Hl2, ?Hq3; discriminate.
Qed.

(** C1. Whenever the fetched issue carries a sync label, [syncIssue]
    returns [skipped] with reason [already_synced] and the key of the first
    sync label, having made one call only, the read of the issue, and no
    write; this holds for every world and every configuration.  In
    particular, on the reference world: after a run that attached the label
    [jira:k] to the issue (the LABELED transition completed, with [k] a key
    of the Jira shape), a second run on the same issue returns
    [skipped(already_synced)] with [k], writes nothing and leaves the world
    as it found it. *)
Theorem sync_is_idempotent :
  (forall (World : Type) (respond : forall T, World -> Call T -> World * (thrown + T))
          (clock : World -> string) (env : Env) (n : nat) (w : World) (issue : Issue),
      snd (respond _ w (issues_get n)) = inr issue ->
      (exists l, In l (labels issue) /\ is_sync_name (name l)) ->
      exists pre l post k,
        labels issue = (pre ++ l :: post)%list /\ no_sync_label pre /\
        name l = "jira:" ++ k /\ key_shape k /\
        let o := syncIssue respond clock env n w in
        result o = inr (already_synced k)
        /\ writes (events o) = []
        /\ calls (events o) = [Called (issues_get n) (inr issue)])
  /\ (forall (env env' : Env) (n : nat) (k : string) (w : Sim.World),
        key_shape k ->
        labeled n k (events (Sim.syncIssue env n w)) = true ->
        let w1 := final (Sim.syncIssue env n w) in
        let o := Sim.syncIssue env' n w1 in
        result o = inr (already_synced k) /\ writes (events o) = [] /\ final o = w1).
Proof.
  split.
  - intros World respond clock env n w issue Hget Hsync.
    destruct (getJiraKeyFromLabels_finds (labels issue) Hsync)
      as (pre & l & post & k & Hl & Hpre & Hn & Hk & Hkey).
    exists pre, l, post, k. repeat split; auto;
      now apply (syncIssue_guard respond clock env n w Hget Hkey).
  - intros env env' n k w Hk Hlab w1 o.
    destruct (sim_first_run env n w Hk Hlab) as (i & Hfind & Hkey).
    fold w1 in Hfind.
    assert (Hget : snd (Sim.respond w1 (issues_get n)) = inr i).
    { cbn [Sim.respond]. now rewrite Hfind. }
    destruct (syncIssue_guard Sim.respond Sim.clock env' n w1 Hget Hkey)
      as (Hr & _ & Hw & Hf).
    repeat split; auto.
    unfold o, Sim.syncIssue. rewrite Hf. cbn [Sim.respond]. now rewrite Hfind.
Qed.

Lemma sync_is_idempotent_witness :
  result (Sim.syncIssue env0 1 (final (Sim.syncIssue env0 1 world0)))
  = inr (already_synced "OLSF-42")
  /\ writes (events (Sim.syncIssue env0 1 (final (Sim.syncIssue env0 1 world0)))) = []
  /\ final (Sim.syncIssue env0 1 (final (Sim.syncIssue env0 1 world0)))
     = final (Sim.syncIssue env0 1 world0).
Proof.
  apply (proj2 sync_is_idempotent env0 env0 1 "OLSF-42" world0).
  - eapply key_shape_by_matcher. reflexivity.
  - reflexivity.
Defined.

(* ------------------------------------------------------------------ *)
(** * The order of the writes                                           *)
(* ------------------------------------------------------------------ *)



Lemma writes_app (t1 t2 : list Event) : writes (t1 ++ t2) = (writes t1 ++ writes t2)%list.
Proof. apply filter_app. Qed.




Section Phases.

Variable World : Type.
Variable respond : forall T : Type, World -> Call T -> World * (thrown + T).
Variable clock : World -> string.


Lemma phase_silent {A : Type} (Q : A -> Prop) (o : Outcome World A) :
  steps (events o) = [] -> writes (events o) = [] ->
  (forall a, result o = inr a -> Q a) ->
  phase [] Q o.
Proof.
  intros Hs Hw HQ. unfold phase. rewrite Hs, Hw. repeat split; auto.
  now exists [].
Qed.



Lemma phase_now (w : World) : phase [] (fun _ => True) (now clock w).
Proof. apply phase_silent; auto. Qed.

Lemma phase_lift {A : Type} (r : thrown + A) (w : World) :
  phase [] (fun a => r = inr a) (lift r w).
Proof. apply phase_silent; auto. Qed.





End Phases.

Arguments summary_of : simpl never.
Arguments buildDescription : simpl never.
Arguments deriveIssueType : simpl never.
Arguments derivePriority : simpl never.
Arguments Js.to_string : simpl never.
Arguments Js.of_nat : simpl never.
Arguments Str.join : simpl never.
Arguments append : simpl never.

Section WritePhases.

Variable World : Type.
Variable respond : forall T : Type, World -> Call T -> World * (thrown + T).
Variable clock : World -> string.
Variable env : Env.
Hypothesis wet : DRY_RUN env = false.



Lemma phase_rejected {A : Type} (p : list Step) (Q : A -> Prop)
      (o : Outcome World A) (e : thrown) :
  result o = inl e ->
  prefix (steps (events o)) p ->
  all_but_last_fulfilled (writes (events o)) = true ->
  phase p Q o.
Proof. intros Hr Hp Hf. repeat split; auto; rewrite Hr in *; discriminate. Qed.

Lemma createJiraIssue_phase (issue : Issue) (w : World) :
  phase [StepCreate]
        (fun k => created_as k (events (createJiraIssue respond env issue w)))
        (createJiraIssue respond env issue w).
Proof.
  unfold createJiraIssue, jira. rewrite wet.
  destruct (parseBody (body issue)) as [e|meta].
  { apply phase_rejected with (e := e); [reflexivity | now eexists | reflexivity]. }
  rewrite bind_lift, bind_say, bind_assoc_run, bind_call.
  destruct (snd (respond _ (fetch _ _ _))) as [e|res] eqn:Hres.
  { apply phase_rejected with (e := e); [reflexivity | now exists [] | reflexivity]. }
  destruct (ok res) eqn:Hok; cbn [negb].
  2:{ eapply phase_rejected; [reflexivity | now exists [] | reflexivity]. }
  destruct (Nat.eqb (status res) 204).
  { eapply phase_rejected; [reflexivity | now exists [] | reflexivity]. }
  destruct (json_key res) as [e|k] eqn:Hkey.
  { eapply phase_rejected; [reflexivity | now exists [] | reflexivity]. }
  unfold phase, created_as. cbn.
  split; [now exists []|]. split; [reflexivity|].
  intros a [= <-]. split; [|split; reflexivity]. eauto 6.
Qed.




End WritePhases.


Lemma created_as_app (k : string) (t1 t2 : list Event) :
  created_as k t1 -> created_as k (t1 ++ t2).
Proof.
  intros (url & p & res & H & Hok & Hkey). exists url, p, res.
  rewrite writes_app. destruct (writes t1); [discriminate|]. auto.
Qed.

Lemma created_as_after (k : string) (evs t : list Event) :
  writes evs = [] -> created_as k t -> created_as k (evs ++ t).
Proof.
  intros Hw (url & p & res & H & Hok & Hkey). exists url, p, res.
  now rewrite writes_app, Hw.
Qed.

Section AfterCreate.
Variable World : Type.
Variable respond : forall T : Type, World -> Call T -> World * (thrown + T).
Variable clock : World -> string.
Variable env : Env.
Hypothesis wet : DRY_RUN env = false.

End AfterCreate.



(** The run of the first issue of the reference repository goes through
    the whole plan, the label being new to the repository. *)
Example steps_of_issue1 :
  steps (events (Sim.syncIssue env0 1 world0)) = plan env0 1 "OLSF-42" true.
Proof. reflexivity. Qed.

(* ------------------------------------------------------------------ *)
(** * Bulk driver                                                       *)
(* ------------------------------------------------------------------ *)

Lemma fetched_app (t1 t2 : list Event) : fetched (t1 ++ t2) = (fetched t1 ++ fetched t2)%list.
Proof. unfold fetched. now rewrite map_app, filter_Boolean_app. Qed.

Lemma failure_lines_app (t1 t2 : list Event) :
  failure_lines (t1 ++ t2) = failure_lines t1 + failure_lines t2.
Proof. unfold failure_lines. now rewrite filter_app, length_app. Qed.

Lemma fetched_none (t : list Event) :
  Forall (fun e => fetched_number e = None) t -> fetched t = [].
Proof.
  unfold fetched. induction 1 as [|e t He _ IH]; simpl; [reflexivity|]. now rewrite He.
Qed.

Lemma failure_lines_none (t : list Event) :
  Forall (fun e => is_failure_line e = false) t -> failure_lines t = 0.
Proof. intros H. unfold failure_lines. now rewrite filter_none. Qed.

Section Bulk.

Variable World : Type.
Variable respond : forall T : Type, World -> Call T -> World * (thrown + T).
Variable clock : World -> string.
Variable env : Env.

Lemma syncIssue_no_failure_line (n : nat) :
  only (fun e => is_failure_line e = false) (syncIssue respond clock env n).
Proof.
  unfold syncIssue, createJiraIssue, jira, applyJiraLabel, ensureLabel, closeIssue.
  script_cases; reflexivity.
Qed.

Lemma syncIssue_fetches_once (n : nat) (w : World) :
  fetched (events (syncIssue respond clock env n w)) = [n].
Proof.
  unfold syncIssue. rewrite bind_say, bind_call.
  destruct (snd (respond w (issues_get n))) as [e|issue]; [reflexivity|].
  cbn [after events]. rewrite !fetched_app. cbn [fetched map fetched_number filter_Boolean app].
  rewrite fetched_none; [reflexivity|].
  match goal with
  | |- Forall ?P (events (?m ?w1)) => generalize w1; change (only P m)
  end.
  unfold createJiraIssue, jira, applyJiraLabel, ensureLabel, closeIssue.
  script_cases; reflexivity.
Qed.

Lemma try_catch_run {A : Type} (m : M World A) (h : thrown -> M World A) (w : World) :
  try_catch m h w =
  match result (m w) with
  | inl e => after (events (m w)) (h e (final (m w)))
  | inr _ => m w
  end.
Proof. reflexivity. Qed.

Lemma bulkSync_page_pull_request (i : Issue) (rest : list Issue) (s : Summary) (w : World) :
  pull_request i = true ->
  bulkSync_page respond clock env (i :: rest) s w = bulkSync_page respond clock env rest s w.
Proof. intros H. cbn [bulkSync_page]. now rewrite H. Qed.

Lemma bulkSync_page_rejected (i : Issue) (rest : list Issue) (s : Summary) (w : World)
      (err : thrown) :
  pull_request i = false ->
  result (syncIssue respond clock env (number i) w) = inl err ->
  bulkSync_page respond clock env (i :: rest) s w
  = after (events (syncIssue respond clock env (number i) w) ++ [failure_line i err])
          (bulkSync_page respond clock env rest (count_failed s)
             (final (syncIssue respond clock env (number i) w))).
Proof.
  intros Hpr Hr. cbn [bulkSync_page]. rewrite Hpr.
  rewrite bind_run, try_catch_run, (bind_run (syncIssue respond clock env (number i))), Hr.
  cbn [result final events after]. rewrite bind_say.
  cbn [result final events after ret]. unfold after. cbn [result final events].
  now rewrite app_nil_r.
Qed.

Lemma bulkSync_page_returned (i : Issue) (rest : list Issue) (s : Summary) (w : World)
      (r : SyncResult) :
  pull_request i = false ->
  result (syncIssue respond clock env (number i) w) = inr r ->
  bulkSync_page respond clock env (i :: rest) s w
  = after (events (syncIssue respond clock env (number i) w)
             ++ (if sync_status r =? "synced" then [Slept 400] else []))
          (bulkSync_page respond clock env rest
             (if sync_status r =? "synced" then count_synced s else count_skipped s)
             (final (syncIssue respond clock env (number i) w))).
Proof.
  intros Hpr Hr. cbn [bulkSync_page]. rewrite Hpr.
  rewrite bind_run, try_catch_run, (bind_run (syncIssue respond clock env (number i))), Hr.
  destruct (sync_status r =? "synced");
    cbn [result final events after sleep ret bind]; unfold after;
    cbn [result final events]; rewrite ?app_nil_r; reflexivity.
Qed.

Lemma failure_line_counts (i : Issue) (err : thrown) :
  failure_lines [failure_line i err] = 1 /\ fetched [failure_line i err] = [].
Proof. split; reflexivity. Qed.

Lemma sleep_is_quiet : failure_lines [Slept 400] = 0 /\ fetched [Slept 400] = [].
Proof. split; reflexivity. Qed.

(** One page of the bulk loop. *)
Lemma bulkSync_page_spec (issues : list Issue) :
  forall (s : Summary) (w : World),
    let o := bulkSync_page respond clock env issues s w in
    let todo := filter not_pull_request issues in
    exists s',
      result o = inr s'
      /\ total s' = total s + List.length todo
      /\ synced s <= synced s' /\ skipped s <= skipped s'
      /\ failed s' = failed s + failure_lines (events o)
      /\ fetched (events o) = map number todo.
Proof.
  induction issues as [|i rest IH]; intros s w.
  - exists s. cbn. unfold total. repeat split; auto; lia.
  - destruct (pull_request i) eqn:Hpr.
    + assert (Hnp : not_pull_request i = false) by (unfold not_pull_request; now rewrite Hpr).
      cbn zeta. rewrite bulkSync_page_pull_request by exact Hpr.
      cbn [filter]. rewrite Hnp. apply IH.
    + assert (Hnp : not_pull_request i = true) by (unfold not_pull_request; now rewrite Hpr).
      cbn zeta. cbn [filter]. rewrite Hnp.
      pose proof (syncIssue_fetches_once (number i) w) as Hfetch.
      pose proof (failure_lines_none (syncIssue_no_failure_line (number i) w)) as Hquiet.
      destruct (result (syncIssue respond clock env (number i) w)) as [err|r] eqn:Hr.
      * rewrite (@bulkSync_page_rejected i rest s w err Hpr Hr).
        destruct (IH (count_failed s) (final (syncIssue respond clock env (number i) w)))
          as (s' & Hres & Htot & Hsy & Hsk & Hfa & Hfe).
        exists s'. cbn [after result events].
        rewrite !failure_lines_app, !fetched_app, Hfetch, Hquiet, Hfe.
        rewrite (proj1 (failure_line_counts i err)), (proj2 (failure_line_counts i err)).
        unfold total, count_failed in *. cbn [synced skipped failed List.length map app] in *.
        repeat split; auto; lia.
      * rewrite (@bulkSync_page_returned i rest s w r Hpr Hr).
        destruct (sync_status r =? "synced").
        -- destruct (IH (count_synced s) (final (syncIssue respond clock env (number i) w)))
             as (s' & Hres & Htot & Hsy & Hsk & Hfa & Hfe).
           exists s'. cbn [after result events].
           rewrite !failure_lines_app, !fetched_app, Hfetch, Hquiet, Hfe.
           rewrite (proj1 sleep_is_quiet), (proj2 sleep_is_quiet).
           unfold total, count_synced in *. cbn [synced skipped failed List.length map app] in *.
           repeat split; auto; lia.
        -- destruct (IH (count_skipped s) (final (syncIssue respond clock env (number i) w)))
             as (s' & Hres & Htot & Hsy & Hsk & Hfa & Hfe).
           exists s'. cbn [after result events].
           rewrite !failure_lines_app, !fetched_app, Hfetch, Hquiet, Hfe.
           unfold total, count_skipped in *.
           cbn [synced skipped failed List.length map app failure_lines fetched filter
                filter_Boolean] in *.
           repeat split; auto; lia.
Qed.

(** The bulk run as a whole is only ever ended by a rejected listing. *)
Lemma bulkSync_from_rejected (fuel : nat) :
  forall (page : nat) (s : Summary) (w : World) (e : thrown),
    result (bulkSync_from respond clock env fuel page s w) = inl e ->
    exists t p,
      events (bulkSync_from respond clock env fuel page s w)
      = (t ++ [Called (issues_listForRepo "open" 100 p) (inl e)])%list.
Proof.
  induction fuel as [|fuel IH]; intros page s w e; [discriminate|].
  cbn [bulkSync_from]. rewrite bind_call.
  destruct (snd (respond w (issues_listForRepo "open" 100 page))) as [e0|issues].
  { intros [= <-]. now exists [], page. }
  destruct (Nat.eqb (List.length issues) 0); [discriminate|].
  rewrite bind_run.
  destruct (bulkSync_page_spec issues s (fst (respond w (issues_listForRepo "open" 100 page))))
    as (s' & Hres & _).
  rewrite Hres.
  destruct (Nat.ltb (List.length issues) 100); [discriminate|].
  cbn [after result events]. intros Hr.
  destruct (IH _ _ _ _ Hr) as (t & p & ->).
  eexists (_ :: _ ++ t)%list, p. cbn [app]. now rewrite app_assoc.
Qed.

(** Fuel for one page is enough when the first page is the last one. *)
Lemma bulkSync_from_last_page (fuel page : nat) (s : Summary) (w : World)
      (issues : list Issue) :
  snd (respond w (issues_listForRepo "open" 100 page)) = inr issues ->
  List.length issues < 100 ->
  exists s',
    result (bulkSync_from respond clock env (S fuel) page s w) = inr (Some s')
    /\ total s' = total s + List.length (filter not_pull_request issues).
Proof.
  intros Hlist Hlen. cbn [bulkSync_from]. rewrite bind_call, Hlist.
  destruct (Nat.eqb (List.length issues) 0) eqn:Hz.
  { exists s. apply Nat.eqb_eq in Hz. destruct issues; [|discriminate].
    cbn. split; auto. }
  rewrite bind_run.
  destruct (bulkSync_page_spec issues s (fst (respond w (issues_listForRepo "open" 100 page))))
    as (s' & Hres & Htot & _).
  rewrite Hres. apply Nat.ltb_lt in Hlen. rewrite Hlen.
  exists s'. split; auto.
Qed.

End Bulk.

(** C9. In a bulk run a failure while one issue is processed is caught,
    adds one to [failed] and leaves its line on the console, and the loop
    goes on with the issues after it: the loop over a page never throws,
    fetches exactly the entries of the page that are no pull requests, in
    order, and counts each of them once as synced, skipped or failed, the
    failed ones being as many as the failure lines; pull requests are
    neither fetched nor counted.  The bulk run as a whole can only be ended
    by a rejected listing call, and one round of the paging loop is enough
    when the page is the last one. *)
Theorem bulk_sync_isolates_failures
        (World : Type) (respond : forall T, World -> Call T -> World * (thrown + T))
        (clock : World -> string) (env : Env)
        (issues : list Issue) (s : Summary) (w : World) :
  let o := bulkSync_page respond clock env issues s w in
  let todo := filter not_pull_request issues in
  (exists s',
      result o = inr s'
      /\ total s' = total s + List.length todo
      /\ synced s <= synced s' /\ skipped s <= skipped s'
      /\ failed s' = failed s + failure_lines (events o))
  /\ fetched (events o) = map number todo
  /\ (forall i rest err,
        issues = i :: rest -> pull_request i = false ->
        result (syncIssue respond clock env (number i) w) = inl err ->
        o = after (events (syncIssue respond clock env (number i) w)
                     ++ [failure_line i err])
                  (bulkSync_page respond clock env rest (count_failed s)
                     (final (syncIssue respond clock env (number i) w))))
  /\ (forall fuel page e,
        result (bulkSync_from respond clock env fuel page s w) = inl e ->
        exists t p,
          events (bulkSync_from respond clock env fuel page s w)
          = (t ++ [Called (issues_listForRepo "open" 100 p) (inl e)])%list)
  /\ (forall fuel page,
        snd (respond _ w (issues_listForRepo "open" 100 page)) = inr issues ->
        List.length issues < 100 ->
        exists s',
          result (bulkSync_from respond clock env (S fuel) page s w) = inr (Some s')
          /\ total s' = total s + List.length todo).
Proof.
  intros o todo.
  destruct (bulkSync_page_spec respond clock env issues s w)
    as (s' & Hres & Htot & Hsy & Hsk & Hfa & Hfe).
  split; [exists s'; auto|]. split; [exact Hfe|]. split; [|split].
  - intros i rest err -> Hpr Hr. now apply bulkSync_page_rejected.
  - intros fuel page e. apply bulkSync_from_rejected.
  - intros fuel page Hlist Hlen. now apply bulkSync_from_last_page.
Qed.

Lemma bulk_sync_isolates_failures_witness :
  fetched (events (bulkSync_page Sim.respond Sim.clock env0
                     [issue1; issue2; issue3; issue4; issue5]
                     {| synced := 0; skipped := 0; failed := 0 |} world0))
  = [1; 2; 4; 5].
Proof.
  exact (proj1 (proj2 (bulk_sync_isolates_failures Sim.respond Sim.clock env0
                         [issue1; issue2; issue3; issue4; issue5]
                         {| synced := 0; skipped := 0; failed := 0 |} world0))).
Defined.

(** The bulk run on the reference repository: the second issue has no
    body and fails, the others go on; the pull request is left out. *)
Example bulkSync_on_reference_repository :
  result (Sim.bulkSync env0 1 world0)
  = inr (Some {| synced := 2; skipped := 1; failed := 1 |}).
Proof. reflexivity. Qed.

(* ------------------------------------------------------------------ *)
(** * Priority and issue type                                           *)
(* ------------------------------------------------------------------ *)

(** The values of the priority table are non-empty strings. *)
Lemma PRIORITY_MAP_values (n v : string) :
  own_property PRIORITY_MAP n = Some v -> (v =? "") = false.
Proof.
  unfold PRIORITY_MAP. simpl.
  repeat match goal with
         | |- context [if ?b then _ else _] => destruct b
         end; intros H; inversion H; reflexivity.
Qed.

Lemma derivePriority_cons (l : Label) (ls : list Label) :
  derivePriority (l :: ls)
  = if truthy (get PRIORITY_MAP (name l)) then get PRIORITY_MAP (name l)
    else derivePriority ls.
Proof. reflexivity. Qed.

Lemma deriveIssueType_cons (env : Env) (l : Label) (ls : list Label) :
  deriveIssueType env (l :: ls)
  = if truthy (get TYPE_MAP (name l)) then get TYPE_MAP (name l)
    else deriveIssueType env ls.
Proof. reflexivity. Qed.

(** A label named like an inherited member reads as that member in any
    table without an entry of that name. *)
Lemma get_inherited (o : list (string * string)) (n : string) :
  own_property o n = None ->
  mem_string n object_prototype_members = true ->
  get o n = VInherited n.
Proof. intros H1 H2. unfold get. now rewrite H1, H2. Qed.

(** X5. The first label with an entry in the priority table decides the
    priority: labels before it that the table does not know are passed
    over, labels after it are not looked at. *)
Theorem derivePriority_first_mapped
  (pre post : list Label) (l : Label) (v : string) :
  (forall x, In x pre -> unmapped PRIORITY_MAP (name x)) ->
  own_property PRIORITY_MAP (name l) = Some v ->
  derivePriority (pre ++ l :: post) = VString v.
Proof.
  intros Hpre Hl. induction pre as [|x pre IH].
  - cbn [app]. rewrite derivePriority_cons. unfold get. rewrite Hl. simpl.
    now rewrite (PRIORITY_MAP_values _ Hl).
  - cbn [app]. rewrite derivePriority_cons.
    rewrite (get_unmapped (Hpre x (or_introl eq_refl))). simpl.
    apply IH. intros y Hy. apply Hpre. now right.
Qed.

Lemma derivePriority_first_mapped_witness :
  derivePriority [ {| name := "todo" |}; {| name := "priority:low" |};
                   {| name := "priority:critical" |} ]
  = VString "Low".
Proof.
  apply (@derivePriority_first_mapped
           [ {| name := "todo" |} ] [ {| name := "priority:critical" |} ]
           {| name := "priority:low" |} "Low").
  - intros x [<-|[]]. split; reflexivity.
  - reflexivity.
Defined.

(** X6. When no label is named like a member objects inherit, the priority is
    one of the four names of the table, and it is [Medium] when the table
    knows none of the labels. *)
Theorem derivePriority_range (labels : list Label) :
  (forall l, In l labels -> mem_string (name l) object_prototype_members = false) ->
  In (derivePriority labels)
     [VString "Highest"; VString "High"; VString "Medium"; VString "Low"]
  /\ ((forall l, In l labels -> own_property PRIORITY_MAP (name l) = None) ->
      derivePriority labels = VString "Medium").
Proof.
  induction labels as [|l ls IH]; intros H.
  - split; [right; right; left; reflexivity | reflexivity].
  - rewrite derivePriority_cons.
    destruct IH as [IH1 IH2]; [intros x Hx; apply H; now right|].
    assert (Hl := H l (or_introl eq_refl)).
    unfold get. destruct (own_property PRIORITY_MAP (name l)) as [v|] eqn:Hv.
    + split.
      * simpl. rewrite (PRIORITY_MAP_values _ Hv). simpl.
        revert Hv. unfold PRIORITY_MAP. simpl.
        repeat match goal with
               | |- context [if ?b then _ else _] => destruct b
               end; intros Hv; inversion Hv; simpl; auto 6.
      * intros Hnone. rewrite (Hnone l (or_introl eq_refl)) in Hv. discriminate.
    + rewrite Hl. simpl. split; [exact IH1|].
      intros Hnone. apply IH2. intros x Hx. apply Hnone. now right.
Qed.

Lemma derivePriority_range_witness :
  In (derivePriority [ {| name := "bug" |}; {| name := "priority:high" |} ])
     [VString "Highest"; VString "High"; VString "Medium"; VString "Low"].
Proof.
  apply (derivePriority_range [ {| name := "bug" |}; {| name := "priority:high" |} ]).
  intros l [<-|[<-|[]]]; reflexivity.
Defined.

(** X7. A label named like a member objects inherit, ahead of every label the
    table knows, makes the priority that inherited member, which is no
    priority name: the lookup [PRIORITY_MAP[l.name]] is truthy for it. *)
Theorem derivePriority_inherited_member
  (pre post : list Label) (l : Label) :
  (forall x, In x pre -> unmapped PRIORITY_MAP (name x)) ->
  mem_string (name l) object_prototype_members = true ->
  derivePriority (pre ++ l :: post) = VInherited (name l).
Proof.
  intros Hpre Hl. induction pre as [|x pre IH].
  - cbn [app]. rewrite derivePriority_cons.
    assert (Hown : own_property PRIORITY_MAP (name l) = None).
    { apply existsb_exists in Hl as (m & Hin & Hm).
      apply String.eqb_eq in Hm. rewrite <- Hm.
      repeat (destruct Hin as [<-|Hin]; [reflexivity|]). destruct Hin. }
    now rewrite (@get_inherited _ _ Hown Hl).
  - cbn [app]. rewrite derivePriority_cons.
    rewrite (get_unmapped (Hpre x (or_introl eq_refl))). simpl.
    apply IH. intros y Hy. apply Hpre. now right.
Qed.

Lemma derivePriority_inherited_member_witness :
  derivePriority [ {| name := "todo" |}; {| name := "toString" |};
                   {| name := "priority:high" |} ]
  = VInherited "toString".
Proof.
  apply (@derivePriority_inherited_member
           [ {| name := "todo" |} ] [ {| name := "priority:high" |} ]
           {| name := "toString" |}).
  - intros x [<-|[]]. split; reflexivity.
  - reflexivity.
Defined.

(** X9. When no label is named like a member objects inherit, the issue type
    is a name of the type table or the configured default. *)
Theorem deriveIssueType_range (env : Env) (labels : list Label) :
  (forall l, In l labels -> mem_string (name l) object_prototype_members = false) ->
  In (deriveIssueType env labels)
     [VString "Bug"; VString "Task"; VString "Story";
      VString (JIRA_ISSUE_TYPE_DEFAULT env)].
Proof.
  induction labels as [|l ls IH]; intros H.
  - right; right; right; left; reflexivity.
  - rewrite deriveIssueType_cons.
    assert (IH1 : In (deriveIssueType env ls)
                     [VString "Bug"; VString "Task"; VString "Story";
                      VString (JIRA_ISSUE_TYPE_DEFAULT env)]).
    { apply IH. intros x Hx. apply H. now right. }
    assert (Hl := H l (or_introl eq_refl)).
    unfold get. destruct (own_property TYPE_MAP (name l)) as [v|] eqn:Hv.
    + simpl. rewrite (TYPE_MAP_values _ Hv). simpl.
      revert Hv. unfold TYPE_MAP. simpl.
      repeat match goal with
             | |- context [if ?b then _ else _] => destruct b
             end; intros Hv; inversion Hv; simpl; auto 6.
    + rewrite Hl. simpl. exact IH1.
Qed.

Lemma deriveIssueType_range_witness :
  In (deriveIssueType env0 [ {| name := "todo" |}; {| name := "feature" |} ])
     [VString "Bug"; VString "Task"; VString "Story";
      VString (JIRA_ISSUE_TYPE_DEFAULT env0)].
Proof.
  apply (deriveIssueType_range env0 [ {| name := "todo" |}; {| name := "feature" |} ]).
  intros l [<-|[<-|[]]]; reflexivity.
Defined.

(* ------------------------------------------------------------------ *)
(** * Configuration                                                     *)
(* ------------------------------------------------------------------ *)

Lemma take_length_append (u s : string) : Str.take (String.length u) (u ++ s) = u.
Proof. induction u as [|c u IH]; simpl; [now destruct s | now rewrite IH]. Qed.

(** The slash pattern matches at the last character only. *)
Lemma search_trailing_slash (u : string) :
  forall pos,
    search trailing_slash_re pos (u ++ "/")
    = Some (pos + String.length u,
            {| stop := S (pos + String.length u); rest := ""; group1 := None |}).
Proof.
  induction u as [|a u IH]; intros pos.
  - simpl. now rewrite Nat.add_0_r.
  - change (String a u ++ "/") with (String a (u ++ "/")).
    cbn [search trailing_slash_re lit app exec_at].
    assert (E : (if Str.is_char "/" a
                 then match u ++ "/" with
                      | "" => Some {| stop := S pos; rest := u ++ "/";
                                      group1 := captured no_groups |}
                      | String _ _ => None
                      end
                 else None) = None).
    { destruct (Str.is_char "/" a); [|reflexivity]. now destruct u. }
    rewrite E. fold trailing_slash_re. rewrite IH. simpl String.length.
    now rewrite <- plus_n_Sm.
Qed.

Lemma search_no_trailing_slash (s : string) :
  last_char s <> Some "/"%char ->
  forall pos, search trailing_slash_re pos s = None.
Proof.
  induction s as [|a s IH]; intros Hlast pos; [reflexivity|].
  cbn [search trailing_slash_re lit app exec_at].
  destruct s as [|b s].
  - destruct (Str.is_char "/" a) eqn:Ha; [|reflexivity].
    apply is_char_true in Ha. subst a. now contradiction Hlast.
  - assert (E : (if Str.is_char "/" a then @None found else None) = None)
      by now destruct (Str.is_char "/" a).
    rewrite E. apply IH. exact Hlast.
Qed.

(** [replace(/\/$/, '')] drops one slash at the end, and nothing else. *)
Lemma remove_trailing_slash (u : string) :
  remove_first trailing_slash_re (u ++ "/") = u.
Proof.
  unfold remove_first. rewrite search_trailing_slash. simpl.
  now rewrite take_length_append, append_empty_r.
Qed.

Lemma remove_no_trailing_slash (s : string) :
  last_char s <> Some "/"%char -> remove_first trailing_slash_re s = s.
Proof. intros H. unfold remove_first. now rewrite search_no_trailing_slash. Qed.

Lemma loadEnv_eq (penv : process_env) :
  loadEnv penv =
  match find (fun kv => snd kv =? "")
             (map (fun k => (k, required_value penv k)) required_names) with
  | Some (key, _) => inl (Error ("Missing required environment variable: " ++ key))
  | None =>
      inr {| GITHUB_TOKEN := or_else (penv "GITHUB_TOKEN") "";
             GH_REPO := or_else (penv "GH_REPO") "";
             GH_ISSUE_NUMBER := penv "GH_ISSUE_NUMBER";
             JIRA_BASE_URL := required_value penv "JIRA_BASE_URL";
             JIRA_USER_EMAIL := or_else (penv "JIRA_USER_EMAIL") "";
             JIRA_API_TOKEN := or_else (penv "JIRA_API_TOKEN") "";
             JIRA_PROJECT_KEY := or_else (penv "JIRA_PROJECT_KEY") "";
             DRY_RUN := is_value (penv "DRY_RUN") "true";
             BULK_SYNC := is_value (penv "BULK_SYNC") "true";
             CLOSE_AFTER_SYNC := negb (is_value (penv "CLOSE_AFTER_SYNC") "false");
             JIRA_ISSUE_TYPE_DEFAULT := or_else (penv "JIRA_ISSUE_TYPE_DEFAULT") "Task";
             GITHUB_OUTPUT := penv "GITHUB_OUTPUT" |}
  end.
Proof. reflexivity. Qed.

Lemma find_missing_first (penv : process_env) (pre post : list string) (key : string) :
  (forall k, In k pre -> required_value penv k <> "") ->
  required_value penv key = "" ->
  find (fun kv : string * string => snd kv =? "")
       (map (fun k => (k, required_value penv k)) (pre ++ key :: post))
  = Some (key, "").
Proof.
  intros Hpre Hkey. induction pre as [|x pre IH]; simpl.
  - now rewrite Hkey.
  - assert (Hx : required_value penv x <> "") by (apply Hpre; now left).
    apply String.eqb_neq in Hx. rewrite Hx. apply IH.
    intros k Hk. apply Hpre. now right.
Qed.

Lemma find_missing_none (penv : process_env) (names : list string) :
  (forall k, In k names -> required_value penv k <> "") ->
  find (fun kv : string * string => snd kv =? "")
       (map (fun k => (k, required_value penv k)) names) = None.
Proof.
  induction names as [|x names IH]; intros H; simpl; [reflexivity|].
  assert (Hx : required_value penv x <> "") by (apply H; now left).
  apply String.eqb_neq in Hx. rewrite Hx. apply IH.
  intros k Hk. apply H. now right.
Qed.

(** X1. The script refuses to start without its six required variables: it
    throws, naming the first one in the order of the validation loop that
    is unset or empty. *)
Theorem loadEnv_first_missing
  (penv : process_env) (pre post : list string) (key : string) :
  required_names = (pre ++ key :: post)%list ->
  (forall k, In k pre -> required_value penv k <> "") ->
  required_value penv key = "" ->
  loadEnv penv = inl (Error ("Missing required environment variable: " ++ key)).
Proof.
  intros Hnames Hpre Hkey. rewrite loadEnv_eq, Hnames.
  now rewrite (@find_missing_first penv pre post key Hpre Hkey).
Qed.

(** X2. The configuration is accepted exactly when the six required variables
    are non-empty. *)
Theorem loadEnv_accepts (penv : process_env) :
  (exists env, loadEnv penv = inr env)
  <-> (forall k, In k required_names -> required_value penv k <> "").
Proof.
  split.
  - intros (env & H) k Hk Hempty.
    apply in_split in Hk as (pre & post & Hnames).
    assert (Hfind : exists key,
               find (fun kv : string * string => snd kv =? "")
                    (map (fun k => (k, required_value penv k)) required_names)
               = Some (key, "")).
    { rewrite Hnames. clear Hnames H.
      induction pre as [|x pre IH]; simpl.
      - rewrite Hempty. simpl. now exists k.
      - destruct (required_value penv x =? "") eqn:Hx; [|exact IH].
        apply String.eqb_eq in Hx. rewrite Hx. now exists x. }
    destruct Hfind as (key & Hfind).
    rewrite loadEnv_eq, Hfind in H. discriminate.
  - intros H. rewrite loadEnv_eq, (@find_missing_none penv required_names H).
    eexists. reflexivity.
Qed.

Lemma loadEnv_first_missing_witness :
  loadEnv (without "JIRA_USER_EMAIL" (without "JIRA_PROJECT_KEY" penv0))
  = inl (Error "Missing required environment variable: JIRA_USER_EMAIL").
Proof.
  apply (@loadEnv_first_missing
           (without "JIRA_USER_EMAIL" (without "JIRA_PROJECT_KEY" penv0))
           [ "GITHUB_TOKEN"; "GH_REPO"; "JIRA_BASE_URL" ]
           [ "JIRA_API_TOKEN"; "JIRA_PROJECT_KEY" ] "JIRA_USER_EMAIL").
  - reflexivity.
  - intros k [<-|[<-|[<-|[]]]]; vm_compute; discriminate.
  - reflexivity.
Defined.

Lemma loadEnv_inr (penv : process_env) (env : Env) :
  loadEnv penv = inr env ->
  JIRA_BASE_URL env = required_value penv "JIRA_BASE_URL"
  /\ DRY_RUN env = is_value (penv "DRY_RUN") "true"
  /\ BULK_SYNC env = is_value (penv "BULK_SYNC") "true"
  /\ CLOSE_AFTER_SYNC env = negb (is_value (penv "CLOSE_AFTER_SYNC") "false")
  /\ JIRA_ISSUE_TYPE_DEFAULT env = or_else (penv "JIRA_ISSUE_TYPE_DEFAULT") "Task".
Proof.
  rewrite loadEnv_eq. destruct (find _ _) as [[key v]|]; [discriminate|].
  intros H. injection H as <-. repeat split.
Qed.

Lemma is_value_true (x : option string) (v : string) :
  is_value x v = true <-> x = Some v.
Proof.
  destruct x as [s|]; simpl; [|split; discriminate].
  rewrite String.eqb_eq. split; [now intros -> | now intros [= ->]].
Qed.

(** X3. Exactly one slash at the end of [JIRA_BASE_URL] is dropped; a base URL
    without one is taken as it is. *)
Theorem loadEnv_base_url (penv : process_env) (env : Env) (url : string) :
  loadEnv penv = inr env ->
  penv "JIRA_BASE_URL" = Some url ->
  (forall u, url = u ++ "/" -> JIRA_BASE_URL env = u)
  /\ (last_char url <> Some "/"%char -> JIRA_BASE_URL env = url).
Proof.
  intros H Hurl. apply loadEnv_inr in H as (-> & _).
  unfold required_value. simpl. rewrite Hurl.
  assert (E : or_else (Some url) "" = url).
  { simpl. destruct (url =? "") eqn:Hu; [|reflexivity].
    apply String.eqb_eq in Hu. now subst. }
  rewrite E. split.
  - intros u ->. apply remove_trailing_slash.
  - apply remove_no_trailing_slash.
Qed.

Lemma loadEnv_base_url_witness :
  exists env,
    loadEnv penv0 = inr env
    /\ (forall u, "https://acme.atlassian.net/" = u ++ "/" -> JIRA_BASE_URL env = u)
    /\ (last_char "https://acme.atlassian.net/" <> Some "/"%char ->
        JIRA_BASE_URL env = "https://acme.atlassian.net/").
Proof.
  eexists. split; [reflexivity|].
  apply (@loadEnv_base_url penv0); reflexivity.
Defined.

(** X4. The switches are read by exact comparison: [DRY_RUN] and [BULK_SYNC]
    are on only for the value [true], [CLOSE_AFTER_SYNC] is off only for
    the value [false], and the default issue type is [Task] when
    [JIRA_ISSUE_TYPE_DEFAULT] is unset or empty. *)
Theorem loadEnv_switches (penv : process_env) (env : Env) :
  loadEnv penv = inr env ->
  (DRY_RUN env = true <-> penv "DRY_RUN" = Some "true")
  /\ (BULK_SYNC env = true <-> penv "BULK_SYNC" = Some "true")
  /\ (CLOSE_AFTER_SYNC env = false <-> penv "CLOSE_AFTER_SYNC" = Some "false")
  /\ (penv "JIRA_ISSUE_TYPE_DEFAULT" = None \/ penv "JIRA_ISSUE_TYPE_DEFAULT" = Some ""
      -> JIRA_ISSUE_TYPE_DEFAULT env = "Task").
Proof.
  intros H. apply loadEnv_inr in H as (_ & -> & -> & -> & ->).
  split; [apply is_value_true|]. split; [apply is_value_true|]. split.
  - rewrite negb_false_iff. apply is_value_true.
  - intros [-> | ->]; reflexivity.
Qed.

Lemma loadEnv_switches_witness :
  exists env,
    loadEnv penv0 = inr env
    /\ (DRY_RUN env = true <-> penv0 "DRY_RUN" = Some "true")
    /\ (BULK_SYNC env = true <-> penv0 "BULK_SYNC" = Some "true")
    /\ (CLOSE_AFTER_SYNC env = false <-> penv0 "CLOSE_AFTER_SYNC" = Some "false")
    /\ (penv0 "JIRA_ISSUE_TYPE_DEFAULT" = None
        \/ penv0 "JIRA_ISSUE_TYPE_DEFAULT" = Some ""
        -> JIRA_ISSUE_TYPE_DEFAULT env = "Task").
Proof.
  eexists. split; [reflexivity|].
  apply (@loadEnv_switches penv0). reflexivity.
Defined.

(** The reference environment yields the reference configuration. *)
Example loadEnv_penv0 : loadEnv penv0 = inr env0.
Proof. reflexivity. Qed.

(* ------------------------------------------------------------------ *)
(** * Jira requests                                                     *)
(* ------------------------------------------------------------------ *)

Section JiraRequests.

Variable World : Type.
Variable respond : forall T : Type, World -> Call T -> World * (thrown + T).
Variable env : Env.
Hypothesis wet : DRY_RUN env = false.

(** The run of [createJiraIssue] outside dry run, for a body that parses:
    one console line, one request, and what [jira] makes of the answer. *)
Lemma createJiraIssue_run (issue : Issue) (meta : Meta) (w : World) :
  parseBody (body issue) = inr meta ->
  exists line payload,
    project_key payload = JIRA_PROJECT_KEY env
    /\ summary payload = summary_of (title issue)
    /\ issuetype_name payload = deriveIssueType env (labels issue)
    /\ priority_name payload = derivePriority (labels issue)
    /\ payload_labels payload = ["auto-migrated"; "gh-issue-jira-sync"]
    /\ createJiraIssue respond env issue w
       = let c := fetch (JIRA_BASE_URL env ++ "/rest/api/3/issue") "POST" (Some payload) in
         let answer := snd (respond w c) in
         {| final := fst (respond w c);
            events := [Logged [LText line]; Called c answer];
            result :=
              match answer with
              | inl e => inl e
              | inr res =>
                  if negb (ok res) then
                    inl (Error ("Jira POST /issue → " ++ Js.of_nat (status res) ++ " "
                                  ++ statusText res ++ ": " ++ response_text res))
                  else if Nat.eqb (status res) 204 then
                    inl (TypeError "Cannot read properties of null (reading 'key')")
                  else json_key res
              end |}.
Proof.
  intros Hbody. unfold createJiraIssue, jira. rewrite Hbody, wet.
  exists ("  Creating Jira " ++ Js.to_string (deriveIssueType env (labels issue))
            ++ " [" ++ Js.to_string (derivePriority (labels issue))
            ++ "]: '" ++ summary_of (title issue) ++ "'").
  exists {| project_key := JIRA_PROJECT_KEY env;
            summary := summary_of (title issue);
            description := buildDescription issue meta;
            issuetype_name := deriveIssueType env (labels issue);
            priority_name := derivePriority (labels issue);
            payload_labels := ["auto-migrated"; "gh-issue-jira-sync"] |}.
  split; [|split; [|split; [|split; [|split]]]]; cycle 5.
  - rewrite bind_lift, after_nil, bind_say, bind_assoc_run, bind_call.
    cbv zeta.
    change (JIRA_BASE_URL env ++ "/rest/api/3" ++ "/issue")
      with (JIRA_BASE_URL env ++ "/rest/api/3/issue").
    destruct (snd (respond w _)) as [e|res] eqn:Hr; [reflexivity|].
    destruct (ok res); simpl; [|reflexivity].
    destruct (Nat.eqb (status res) 204); simpl; [reflexivity|].
    destruct (json_key res) as [e|k]; reflexivity.
  - reflexivity.
  - reflexivity.
  - reflexivity.
  - reflexivity.
  - reflexivity.
Qed.

(** X17. Outside dry run [createJiraIssue] sends exactly one request, whatever
    the answer, and calls nothing else: a POST to the issue endpoint under
    the configured base URL, for the configured project, with the two
    provenance labels, the derived issue type and priority, and a summary
    of at most 255 characters. *)
Theorem createJiraIssue_request (issue : Issue) (meta : Meta) (w : World) :
  parseBody (body issue) = inr meta ->
  let o := createJiraIssue respond env issue w in
  exists payload answer,
    jira_exchanges (events o)
    = [ (JIRA_BASE_URL env ++ "/rest/api/3/issue", "POST", Some payload, answer) ]
    /\ List.length (calls (events o)) = 1
    /\ project_key payload = JIRA_PROJECT_KEY env
    /\ payload_labels payload = ["auto-migrated"; "gh-issue-jira-sync"]
    /\ issuetype_name payload = deriveIssueType env (labels issue)
    /\ priority_name payload = derivePriority (labels issue)
    /\ String.length (summary payload) <= 255.
Proof.
  intros Hbody o.
  destruct (createJiraIssue_run issue w Hbody)
    as (line & payload & Hp & Hs & Ht & Hpr & Hl & Hrun).
  subst o. rewrite Hrun. cbv zeta. cbn [events].
  exists payload. eexists.
  split; [reflexivity|]. split; [reflexivity|].
  repeat (split; [assumption|]).
  rewrite Hs. apply summary_of_length.
Qed.

(** X18. What [createJiraIssue] makes of the answer to its request: a rejected
    request is thrown on; an answer that is not ok throws an error that
    reports the status and the text of the response; an ok answer without
    content (204) throws a [TypeError]; and a key is returned exactly when
    the answer is ok, has content, and holds that key. *)
Theorem createJiraIssue_outcome (issue : Issue) (meta : Meta) (w : World) :
  parseBody (body issue) = inr meta ->
  let o := createJiraIssue respond env issue w in
  forall request answer,
    In (request, answer) (jira_exchanges (events o)) ->
    (forall e, answer = inl e -> result o = inl e)
    /\ (forall res, answer = inr res -> ok res = false ->
        result o = inl (Error ("Jira POST /issue → " ++ Js.of_nat (status res) ++ " "
                                 ++ statusText res ++ ": " ++ response_text res)))
    /\ (forall res, answer = inr res -> ok res = true -> status res = 204 ->
        result o = inl (TypeError "Cannot read properties of null (reading 'key')"))
    /\ (forall k, result o = inr k <->
                  exists res, answer = inr res /\ ok res = true
                              /\ status res <> 204 /\ json_key res = inr k).
Proof.
  intros Hbody o request answer Hin.
  destruct (createJiraIssue_run issue w Hbody)
    as (line & payload & _ & _ & _ & _ & _ & Hrun).
  subst o. rewrite Hrun in *. cbv zeta in *. cbn [events result] in *.
  destruct Hin as [Hin|[]]. injection Hin as _ <-.
  destruct (snd (respond w _)) as [e|res].
  - split; [now intros e' [= ->]|]. split; [discriminate|]. split; [discriminate|].
    intros k. split; [discriminate | now intros (res & H & _)].
  - split; [discriminate|]. split; [|split].
    + intros res' [= <-] Hok. now rewrite Hok.
    + intros res' [= <-] Hok H204. now rewrite Hok, H204.
    + intros k. split.
      * destruct (ok res) eqn:Hok; simpl; [|discriminate].
        destruct (Nat.eqb (status res) 204) eqn:H204; [discriminate|].
        intros Hk. exists res. apply Nat.eqb_neq in H204. auto.
      * intros (res' & [= <-] & Hok & H204 & Hk).
        apply Nat.eqb_neq in H204. now rewrite Hok, H204.
Qed.

End JiraRequests.

Lemma createJiraIssue_request_witness :
  exists payload answer,
    jira_exchanges (events (createJiraIssue Sim.respond env0 issue1 world0))
    = [ ("https://acme.atlassian.net/rest/api/3/issue", "POST", Some payload, answer) ]
    /\ List.length (calls (events (createJiraIssue Sim.respond env0 issue1 world0))) = 1
    /\ project_key payload = "OLSF"
    /\ payload_labels payload = ["auto-migrated"; "gh-issue-jira-sync"]
    /\ issuetype_name payload = VString "Bug"
    /\ priority_name payload = VString "High"
    /\ String.length (summary payload) <= 255.
Proof.
  exact (@createJiraIssue_request Sim.World Sim.respond env0 eq_refl issue1 _ world0
           eq_refl).
Defined.

Lemma createJiraIssue_outcome_witness :
  result (createJiraIssue Sim.respond env0 issue1 world_jira_down)
  = inl (Error "Jira POST /issue → 500 Internal Server Error: no key").
Proof.
  pose proof (@createJiraIssue_outcome Sim.World Sim.respond env0 eq_refl issue1 _
                world_jira_down eq_refl) as H.
  cbv zeta in H.
  eassert (Hin : In _ (jira_exchanges
                         (events (createJiraIssue Sim.respond env0 issue1 world_jira_down))))
    by (vm_compute; left; reflexivity).
  destruct (H _ _ Hin) as (_ & Hnot_ok & _).
  apply (Hnot_ok _ eq_refl eq_refl).
Defined.

(* ------------------------------------------------------------------ *)
(** * Labels in the repository                                          *)
(* ------------------------------------------------------------------ *)

(** X19. [ensureLabel] creates the label exactly when looking it up was
    rejected, whatever the rejection was: a label that is found is not
    created again and nothing is written; after a rejected lookup the
    label is created with the given colour and description, and the
    outcome of [ensureLabel] is the outcome of that creation -- the error
    of the lookup is never thrown. *)
Theorem ensureLabel_creates_when_lookup_fails
        (World : Type) (respond : forall T, World -> Call T -> World * (thrown + T))
        (name color description : string) (w : World) :
  let o := ensureLabel respond name color description w in
  let lookup := respond _ w (issues_getLabel name) in
  let creation := respond _ (fst lookup) (issues_createLabel name color description) in
  (fulfilled_of (snd lookup) = true ->
   events o = [Called (issues_getLabel name) (snd lookup)]
   /\ result o = inr tt /\ final o = fst lookup)
  /\ (fulfilled_of (snd lookup) = false ->
      events o = [Called (issues_getLabel name) (snd lookup);
                  Called (issues_createLabel name color description) (snd creation)]
      /\ result o = snd creation /\ final o = fst creation).
Proof.
  intros o lookup creation. subst o lookup creation.
  unfold ensureLabel, try_catch, call. simpl.
  destruct (snd (respond unit w (issues_getLabel name))) as [e|[]]; simpl.
  - split; [discriminate|]. intros _. auto.
  - split; [|discriminate]. intros _. auto.
Qed.

(* ------------------------------------------------------------------ *)
(** * Single-issue runs                                                 *)
(* ------------------------------------------------------------------ *)

Section SingleIssue.

Variable World : Type.
Variable respond : forall T : Type, World -> Call T -> World * (thrown + T).
Variable clock : World -> string.
Variable env : Env.

(** X20. A closed issue without a sync label is skipped as [already_closed]:
    the run reads the issue and makes no other call. *)
Theorem syncIssue_closed_is_skipped (n : nat) (w : World) (issue : Issue) :
  snd (respond w (issues_get n)) = inr issue ->
  no_sync_label (labels issue) ->
  state issue = "closed" ->
  let o := syncIssue respond clock env n w in
  result o = inr already_closed
  /\ calls (events o) = [Called (issues_get n) (inr issue)]
  /\ final o = fst (respond w (issues_get n)).
Proof.
  intros Hget Hlabels Hstate. apply getJiraKeyFromLabels_none in Hlabels.
  unfold syncIssue.
  rewrite bind_say, bind_call, Hget, Hlabels, Hstate, String.eqb_refl, bind_say.
  repeat split.
Qed.

(** X21. When the issue cannot be read the run throws what [issues.get] was
    rejected with, and makes no other call. *)
Theorem syncIssue_unreadable_issue (n : nat) (w : World) (e : thrown) :
  snd (respond w (issues_get n)) = inl e ->
  let o := syncIssue respond clock env n w in
  result o = inl e
  /\ calls (events o) = [Called (issues_get n) (inl e)]
  /\ final o = fst (respond w (issues_get n)).
Proof.
  intros Hget. unfold syncIssue. rewrite bind_say, bind_call, Hget.
  repeat split.
Qed.

(** What [syncIssue] returns once [createJiraIssue] has returned [k]. *)
Lemma after_create_returns (n : nat) (k : string) :
  returns (fun r => r = synced_result k)
    (say ("  ✅ Created: " ++ k);;
     applyJiraLabel respond env n k;;
     (if CLOSE_AFTER_SYNC env then closeIssue respond clock env n k else ret tt);;
     match if_truthy (GITHUB_OUTPUT env) with
     | Some path =>
         call respond (fs_appendFileSync path ("jira_key=" ++ k ++ String LF ""))
     | None => ret tt
     end;;
     say ("  🎉 Done → " ++ k);;
     ret {| sync_status := "synced"; reason := None; jiraKey := Some k |}).
Proof.
  do 5 (apply returns_bind with (Qm := fun _ => True); [apply returns_any|];
        intros _ _).
  now apply returns_ret.
Qed.

(** The key [createJiraIssue] returns: the placeholder in a dry run, and
    otherwise the key of the fulfilled create request. *)
Lemma createJiraIssue_key (issue : Issue) (w : World) (k : string) :
  result (createJiraIssue respond env issue w) = inr k ->
  if DRY_RUN env then k = JIRA_PROJECT_KEY env ++ "-DRY"
  else created_as k (events (createJiraIssue respond env issue w)).
Proof.
  intros Hr. destruct (DRY_RUN env) eqn:Hdry.
  - revert Hr. unfold createJiraIssue. rewrite Hdry, bind_lift.
    destruct (parseBody (body issue)); [discriminate|].
    cbn. now intros [= <-].
  - destruct (@createJiraIssue_phase World respond env Hdry issue w) as (_ & _ & H).
    now destruct (H k Hr).
Qed.

(** X22. A run that returns has read the issue and reports one of three
    results.  [synced] with the key that [createJiraIssue] returned: the
    issue had no sync label and was not closed, and the key is the one in
    the answer to the fulfilled create request, which is the first write of
    the run (in a dry run, the placeholder).  [skipped] as already synced
    with the key of the first sync label of the issue, which has the shape
    of a Jira key.  Or [skipped] as already closed, for a closed issue
    without a sync label. *)
Theorem syncIssue_result_shapes (n : nat) (w : World) (r : SyncResult) :
  let o := syncIssue respond clock env n w in
  result o = inr r ->
  exists issue,
    snd (respond w (issues_get n)) = inr issue
    /\ ((exists k,
            r = synced_result k
            /\ no_sync_label (labels issue) /\ state issue <> "closed"
            /\ (if DRY_RUN env then k = JIRA_PROJECT_KEY env ++ "-DRY"
                else created_as k (events o)))
        \/ (exists k pre l post,
               r = already_synced k /\ key_shape k
               /\ labels issue = (pre ++ l :: post)%list
               /\ no_sync_label pre /\ name l = sync_label_name k)
        \/ (r = already_closed
            /\ no_sync_label (labels issue) /\ state issue = "closed")).
Proof.
  intros o. subst o. unfold syncIssue. rewrite bind_say, bind_call.
  destruct (snd (respond w (issues_get n))) as [e|issue]; [discriminate|].
  intros Hr. exists issue. split; [reflexivity|].
  destruct (getJiraKeyFromLabels (labels issue)) as [k0|] eqn:Hk.
  { rewrite bind_say in Hr. injection Hr as <-. right. left.
    apply getJiraKeyFromLabels_some in Hk as (Hshape & pre & l & post & Hl & Hpre & Hn).
    exists k0, pre, l, post. auto. }
  apply getJiraKeyFromLabels_none in Hk.
  destruct (state issue =? "closed") eqn:Hstate.
  { rewrite bind_say in Hr. injection Hr as <-. right. right.
    apply String.eqb_eq in Hstate. auto. }
  apply String.eqb_neq in Hstate. left.
  rewrite bind_run in *.
  set (w1 := fst (respond w (issues_get n))) in *.
  pose proof (@createJiraIssue_key issue w1) as Hkey.
  set (o1 := createJiraIssue respond env issue w1) in *.
  destruct (result o1) as [e|k]; [discriminate|].
  specialize (Hkey k eq_refl).
  exists k. cbn [after result] in Hr.
  split; [exact (after_create_returns n k (final o1) Hr)|].
  split; [exact Hk|]. split; [exact Hstate|].
  destruct (DRY_RUN env); [exact Hkey|].
  cbn [after events].
  do 2 (apply created_as_after; [reflexivity|]).
  now apply created_as_app.
Qed.

End SingleIssue.

Lemma syncIssue_closed_is_skipped_witness :
  result (Sim.syncIssue env0 6 world_closed) = inr already_closed
  /\ calls (events (Sim.syncIssue env0 6 world_closed))
     = [Called (issues_get 6) (inr issue6)]
  /\ final (Sim.syncIssue env0 6 world_closed) = world_closed.
Proof.
  apply (@syncIssue_closed_is_skipped Sim.World Sim.respond Sim.clock env0 6
           world_closed issue6).
  - reflexivity.
  - intros l [<-|[]]. now apply not_sync_name_by_matcher.
  - reflexivity.
Defined.

Lemma syncIssue_unreadable_issue_witness :
  result (Sim.syncIssue env0 99 world0) = inl (Error "Not Found")
  /\ calls (events (Sim.syncIssue env0 99 world0))
     = [Called (issues_get 99) (inl (Error "Not Found"))]
  /\ final (Sim.syncIssue env0 99 world0) = world0.
Proof.
  apply (@syncIssue_unreadable_issue Sim.World Sim.respond Sim.clock env0 99 world0).
  reflexivity.
Defined.

Lemma syncIssue_result_shapes_witness :
  exists issue,
    snd (Sim.respond world0 (issues_get 1)) = inr issue
    /\ ((exists k,
            synced_result "OLSF-42" = synced_result k
            /\ no_sync_label (labels issue) /\ state issue <> "closed"
            /\ (if DRY_RUN env0 then k = JIRA_PROJECT_KEY env0 ++ "-DRY"
                else created_as k (events (Sim.syncIssue env0 1 world0))))
        \/ (exists k pre l post,
               synced_result "OLSF-42" = already_synced k /\ key_shape k
               /\ labels issue = (pre ++ l :: post)%list
               /\ no_sync_label pre /\ name l = sync_label_name k)
        \/ (synced_result "OLSF-42" = already_closed
            /\ no_sync_label (labels issue) /\ state issue = "closed")).
Proof.
  apply (@syncIssue_result_shapes Sim.World Sim.respond Sim.clock env0 1 world0).
  reflexivity.
Defined.

(* ------------------------------------------------------------------ *)
(** * The output file                                                   *)
(* ------------------------------------------------------------------ *)

Lemma appends_app (t1 t2 : list Event) :
  appends (t1 ++ t2) = (appends t1 ++ appends t2)%list.
Proof. unfold appends. now rewrite map_app, filter_Boolean_app. Qed.

Lemma appends_none (t : list Event) :
  Forall (fun e => appended e = None) t -> appends t = [].
Proof.
  unfold appends. induction 1 as [|e t He _ IH]; simpl; [reflexivity|]. now rewrite He.
Qed.

Lemma appends_cons_nil (e : Event) (t : list Event) :
  appends (e :: t) = [] -> appended e = None /\ appends t = [].
Proof.
  unfold appends. simpl. destruct (appended e); [discriminate | auto].
Qed.

(** An append that follows a part of the run without appends lies in the
    rest of the run. *)
Lemma split_after_quiet (A B : list Event) (e : Event) :
  forall pre post,
    (A ++ B)%list = (pre ++ e :: post)%list ->
    appends A = [] -> appended e <> None ->
    exists B1, pre = (A ++ B1)%list /\ B = (B1 ++ e :: post)%list.
Proof.
  induction A as [|a A IH]; intros pre post Heq HA He.
  - exists pre. auto.
  - apply appends_cons_nil in HA as [Ha HA].
    destruct pre as [|p pre]; simpl in Heq; injection Heq as -> Heq.
    + contradiction.
    + destruct (IH pre post Heq HA He) as (B1 & -> & ->). now exists B1.
Qed.

Lemma writes_nil_app (t1 t2 : list Event) :
  writes (t1 ++ t2) = [] -> writes t1 = [] /\ writes t2 = [].
Proof. rewrite writes_app. apply app_eq_nil. Qed.

Section Clean.

Variable World : Type.
Variable respond : forall T : Type, World -> Call T -> World * (thrown + T).

Lemma clean_ret {A : Type} (a : A) : returns_clean (ret (World := World) a).
Proof. intros w x _. reflexivity. Qed.

Lemma clean_throw {A : Type} (e : thrown) :
  returns_clean (throw (World := World) (A := A) e).
Proof. intros w x H. discriminate. Qed.

Lemma clean_lift {A : Type} (r : thrown + A) : returns_clean (lift (World := World) r).
Proof. intros w x _. reflexivity. Qed.

Lemma clean_log (args : list LogArg) : returns_clean (log (World := World) args).
Proof. intros w x _. reflexivity. Qed.

Lemma clean_say (s : string) : returns_clean (say (World := World) s).
Proof. intros w x _. reflexivity. Qed.

Lemma clean_now (clock : World -> string) : returns_clean (now clock).
Proof. intros w x _. reflexivity. Qed.

Lemma clean_call {T : Type} (c : Call T) : returns_clean (call respond c).
Proof.
  intros w a H. unfold call in *. simpl in *. rewrite H.
  clear H. unfold writes. destruct c; try reflexivity.
  simpl. destruct (negb (method =? "GET")); reflexivity.
Qed.

Lemma clean_bind {A B : Type} (m : M World A) (f : A -> M World B) :
  returns_clean m -> (forall a, returns_clean (f a)) -> returns_clean (bind m f).
Proof.
  intros Hm Hf w b. rewrite bind_run.
  destruct (result (m w)) as [e|a] eqn:E; simpl; [discriminate|].
  intros H. rewrite writes_app, forallb_app, (Hm w a E). simpl. now apply (Hf a) in H.
Qed.

Lemma ensureLabel_clean (name color description : string) :
  returns_clean (ensureLabel respond name color description).
Proof.
  intros w a. unfold ensureLabel, try_catch, call. simpl.
  destruct (snd (respond w (issues_getLabel name))) as [e|[]]; simpl; [|reflexivity].
  now intros ->.
Qed.

End Clean.

Ltac clean_step :=
  match goal with
  | |- returns_clean (if ?b then _ else _) => destruct b
  | |- returns_clean (match ?x with _ => _ end) => destruct x
  | |- returns_clean _ =>
      first [ apply clean_bind | apply clean_say | apply clean_log | apply clean_ret
            | apply clean_throw | apply clean_lift | apply clean_call | apply clean_now
            | apply ensureLabel_clean ]
  | |- forall _, _ => intro
  end.

Section Output.

Variable World : Type.
Variable respond : forall T : Type, World -> Call T -> World * (thrown + T).
Variable clock : World -> string.
Variable env : Env.

Lemma createJiraIssue_clean (issue : Issue) :
  returns_clean (createJiraIssue respond env issue).
Proof. unfold createJiraIssue, jira. repeat clean_step. Qed.

Lemma applyJiraLabel_clean (n : nat) (k : string) :
  returns_clean (applyJiraLabel respond env n k).
Proof. unfold applyJiraLabel. repeat clean_step. Qed.

Lemma closeIssue_clean (n : nat) (k : string) :
  returns_clean (closeIssue respond clock env n k).
Proof. unfold closeIssue. repeat clean_step. Qed.

Lemma createJiraIssue_no_append (issue : Issue) :
  only (fun e => appended e = None) (createJiraIssue respond env issue).
Proof. unfold createJiraIssue, jira. script_cases; reflexivity. Qed.

Lemma applyJiraLabel_no_append (n : nat) (k : string) :
  only (fun e => appended e = None) (applyJiraLabel respond env n k).
Proof. unfold applyJiraLabel, ensureLabel. script_cases; reflexivity. Qed.

Lemma closeIssue_no_append (n : nat) (k : string) :
  only (fun e => appended e = None) (closeIssue respond clock env n k).
Proof. unfold closeIssue. script_cases; reflexivity. Qed.

(** The run of [syncIssue] in two parts: a part without appends, and the
    output step when the run got that far. *)
Lemma syncIssue_output_shape (n : nat) (w : World) :
  let o := syncIssue respond clock env n w in
  exists A B,
    events o = (A ++ B)%list /\ appends A = [] /\ writes B = []
    /\ ((B = []
         /\ forall r, result o = inr r ->
                      r = already_closed \/ exists k, r = already_synced k)
        \/ exists k,
             forallb fulfilled (writes A) = true
             /\ ((if_truthy (GITHUB_OUTPUT env) = None
                  /\ appends B = [] /\ result o = inr (synced_result k))
                 \/ exists path,
                      if_truthy (GITHUB_OUTPUT env) = Some path
                      /\ appends B = [(path, output_line k)]
                      /\ ((result o = inr (synced_result k)
                           /\ forallb fulfilled B = true)
                          \/ ((exists e, result o = inl e)
                              /\ exists ev, B = [ev])))).
Proof.
  intros o. subst o. unfold syncIssue. rewrite bind_say, bind_call.
  set (hdr := Logged [LText (String LF ("── Issue #" ++ of_nat n ++ " ──"))]).
  destruct (snd (respond w (issues_get n))) as [e|issue] eqn:Hget.
  { exists [hdr; Called (issues_get n) (inl e)], [].
    repeat split; auto. left. split; [reflexivity|]. discriminate. }
  set (w1 := fst (respond w (issues_get n))).
  destruct (getJiraKeyFromLabels (labels issue)) as [k0|].
  { rewrite bind_say. eexists. exists [].
    split; [cbn [after events app]; now rewrite app_nil_r|].
    repeat split; auto. left. split; [reflexivity|].
    intros r [= <-]. right. now exists k0. }
  destruct (state issue =? "closed").
  { rewrite bind_say. eexists. exists [].
    split; [cbn [after events app]; now rewrite app_nil_r|].
    repeat split; auto. left. split; [reflexivity|].
    intros r [= <-]. now left. }
  rewrite bind_run.
  pose proof (createJiraIssue_clean issue w1) as Hc1.
  pose proof (createJiraIssue_no_append issue w1) as Hq1. apply appends_none in Hq1.
  set (o1 := createJiraIssue respond env issue w1) in *.
  destruct (result o1) as [e|k] eqn:Hr1.
  { exists (hdr :: Called (issues_get n) (inr issue) :: events o1), [].
    split; [cbn [after events app]; now rewrite app_nil_r|].
    split; [exact Hq1|]. split; [reflexivity|].
    left. split; [reflexivity|]. discriminate. }
  specialize (Hc1 k eq_refl).
  rewrite bind_say, bind_run.
  pose proof (applyJiraLabel_clean n k (final o1)) as Hc2.
  pose proof (applyJiraLabel_no_append n k (final o1)) as Hq2. apply appends_none in Hq2.
  set (o2 := applyJiraLabel respond env n k (final o1)) in *.
  set (created := Logged [LText ("  ✅ Created: " ++ k)]).
  destruct (result o2) as [e|[]] eqn:Hr2.
  { exists (hdr :: Called (issues_get n) (inr issue) :: events o1 ++ created :: events o2)%list, [].
    split; [cbn [after events app]; now rewrite app_nil_r|].
    split; [cbn [appends map appended filter_Boolean]; fold (appends (events o1 ++ created :: events o2));
            rewrite appends_app, Hq1; exact Hq2|].
    split; [reflexivity|]. left. split; [reflexivity|]. discriminate. }
  specialize (Hc2 tt eq_refl).
  rewrite bind_run.
  assert (Hc3 : returns_clean (if CLOSE_AFTER_SYNC env
                               then closeIssue respond clock env n k else ret tt)).
  { destruct (CLOSE_AFTER_SYNC env); [apply closeIssue_clean | apply clean_ret]. }
  assert (Hq3 : only (fun e => appended e = None)
                     (if CLOSE_AFTER_SYNC env
                      then closeIssue respond clock env n k else ret tt)).
  { destruct (CLOSE_AFTER_SYNC env); [apply closeIssue_no_append | apply only_ret]. }
  specialize (Hc3 (final o2)). specialize (Hq3 (final o2)). apply appends_none in Hq3.
  set (o3 := (if CLOSE_AFTER_SYNC env
              then closeIssue respond clock env n k else ret tt) (final o2)) in *.
  set (A := (hdr :: Called (issues_get n) (inr issue)
               :: events o1 ++ created :: events o2 ++ events o3)%list).
  assert (HA : appends A = []).
  { unfold A. cbn [appends map appended filter_Boolean].
    fold (appends (events o1 ++ created :: events o2 ++ events o3)).
    rewrite appends_app, Hq1. cbn [app appends map appended filter_Boolean].
    fold (appends (events o2 ++ events o3)). now rewrite appends_app, Hq2, Hq3. }
  destruct (result o3) as [e|[]] eqn:Hr3.
  { exists A, [].
    split; [unfold A; cbn [after events app]; now rewrite app_nil_r|].
    split; [exact HA|]. split; [reflexivity|].
    left. split; [reflexivity|]. discriminate. }
  specialize (Hc3 tt eq_refl).
  assert (HfA : forallb fulfilled (writes A) = true).
  { unfold A.
    change (hdr :: Called (issues_get n) (inr issue)
              :: events o1 ++ created :: events o2 ++ events o3)%list
      with ([hdr; Called (issues_get n) (inr issue)]
              ++ events o1 ++ [created] ++ events o2 ++ events o3)%list.
    rewrite !writes_app, !forallb_app, Hc1, Hc2, Hc3. reflexivity. }
  set (done := Logged [LText ("  🎉 Done → " ++ k)]).
  destruct (if_truthy (GITHUB_OUTPUT env)) as [path|] eqn:Hout.
  - rewrite bind_call.
    set (c := fs_appendFileSync path ("jira_key=" ++ k ++ String LF "")).
    destruct (snd (respond (final o3) c)) as [e|[]] eqn:Hr4.
    + exists A, [Called c (inl e)].
      split; [unfold A; cbn [after events app];
             do 3 (cbn [app]; rewrite <- ?app_assoc); reflexivity|].
      split; [exact HA|]. split; [reflexivity|].
      right. exists k. split; [exact HfA|]. right. exists path.
      split; [reflexivity|]. split; [reflexivity|].
      right. split; [now exists e | now eexists].
    + rewrite bind_say.
      exists A, [Called c (inr tt); done].
      split; [unfold A; cbn [after events app];
             do 3 (cbn [app]; rewrite <- ?app_assoc); reflexivity|].
      split; [exact HA|]. split; [reflexivity|].
      right. exists k. split; [exact HfA|]. right. exists path.
      split; [reflexivity|]. split; [reflexivity|].
      left. split; reflexivity.
  - rewrite bind_ret, after_nil, bind_say.
    exists A, [done].
    split; [unfold A; cbn [after events app];
             do 3 (cbn [app]; rewrite <- ?app_assoc); reflexivity|].
    split; [exact HA|]. split; [reflexivity|].
    right. exists k. split; [exact HfA|]. left. repeat split.
Qed.

Lemma syncIssue_appends_of_result (n : nat) (w : World) (r : SyncResult) :
  let o := syncIssue respond clock env n w in
  result o = inr r ->
  appends (events o)
  = match if_truthy (GITHUB_OUTPUT env), jiraKey r with
    | Some path, Some k =>
        if sync_status r =? "synced" then [(path, output_line k)] else []
    | _, _ => []
    end.
Proof.
  intros o Hr.
  destruct (syncIssue_output_shape n w) as (A & B & Hev & HA & HwB & Hcases).
  fold o in Hev, Hcases. rewrite Hev, appends_app, HA. cbn [app].
  destruct Hcases as [[-> Hskip] | (k & _ & [(Hnone & HB & Hres) | (path & Hout & HB & Hres)])].
  - destruct (Hskip r Hr) as [-> | (k & ->)];
      destruct (if_truthy (GITHUB_OUTPUT env)); reflexivity.
  - rewrite Hres in Hr. injection Hr as <-. now rewrite Hnone, HB.
  - destruct Hres as [[Hres _] | [(e & He) _]]; [|congruence].
    rewrite Hres in Hr. injection Hr as <-. now rewrite Hout, HB.
Qed.

(** X24. The line [jira_key=<key>] is the only thing a run appends to a file,
    and it is written last: a run that returns has appended it exactly
    when it synced the issue and [GITHUB_OUTPUT] names a file; no run
    appends more than once; and when the line is appended every write on
    the trackers has been made and fulfilled, and none follows. *)
Theorem syncIssue_writes_output_last (n : nat) (w : World) :
  let o := syncIssue respond clock env n w in
  (forall r, result o = inr r ->
     appends (events o)
     = match if_truthy (GITHUB_OUTPUT env), jiraKey r with
       | Some path, Some k =>
           if sync_status r =? "synced" then [(path, output_line k)] else []
       | _, _ => []
       end)
  /\ List.length (appends (events o)) <= 1
  /\ (forall pre e post,
        events o = (pre ++ e :: post)%list -> appended e <> None ->
        writes post = [] /\ forallb fulfilled (writes pre) = true).
Proof.
  intros o. split; [intros r; apply syncIssue_appends_of_result|].
  destruct (syncIssue_output_shape n w) as (A & B & Hev & HA & HwB & Hcases).
  fold o in Hev, Hcases. split.
  - rewrite Hev, appends_app, HA. cbn [app].
    destruct Hcases as [[-> _] | (k & _ & [(_ & -> & _) | (path & _ & -> & _)])];
      simpl; lia.
  - intros pre e post Heq He. rewrite Hev in Heq.
    destruct (@split_after_quiet A B e pre post Heq HA He) as (B1 & -> & ->).
    apply writes_nil_app in HwB as [HwB1 HwB2].
    split.
    + change (e :: post) with ([e] ++ post)%list in HwB2.
      now apply writes_nil_app in HwB2.
    + rewrite writes_app, HwB1, app_nil_r.
      destruct Hcases as [[Hnil _] | (k & HfA & _)]; [|exact HfA].
      now destruct B1.
Qed.

(** X25. A dry run that gets through still appends its placeholder key to the
    output file: [jira_key=<project>-DRY]. *)
Theorem dry_run_appends_placeholder_key
        (n : nat) (w : World) (r : SyncResult) (path : string) :
  DRY_RUN env = true ->
  if_truthy (GITHUB_OUTPUT env) = Some path ->
  let o := syncIssue respond clock env n w in
  result o = inr r ->
  sync_status r = "synced" ->
  appends (events o) = [(path, output_line (JIRA_PROJECT_KEY env ++ "-DRY"))].
Proof.
  intros dry Hout o Hr Hs.
  pose proof (@syncIssue_dry_returns World respond clock env dry n w r Hr Hs) as Hk.
  unfold o. rewrite (syncIssue_appends_of_result n w Hr), Hout, Hk, Hs. reflexivity.
Qed.

(** X26. When the output file cannot be written the run throws, and it does
    so at the very end: every write on the trackers was made and
    fulfilled before. *)
Theorem syncIssue_output_failure
        (n : nat) (w : World) (pre post : list Event) (e : Event) :
  let o := syncIssue respond clock env n w in
  events o = (pre ++ e :: post)%list ->
  appended e <> None ->
  fulfilled e = false ->
  post = []
  /\ (exists err, result o = inl err)
  /\ forallb fulfilled (writes pre) = true.
Proof.
  intros o Heq He Hrej.
  destruct (syncIssue_output_shape n w) as (A & B & Hev & HA & HwB & Hcases).
  fold o in Hev, Hcases. rewrite Hev in Heq.
  destruct (@split_after_quiet A B e pre post Heq HA He) as (B1 & -> & ->).
  destruct Hcases as [[Hnil _] | (k & HfA & Hcases)]; [now destruct B1|].
  assert (Hpre : forallb fulfilled (writes (A ++ B1)) = true).
  { apply writes_nil_app in HwB as [HwB1 _].
    now rewrite writes_app, HwB1, app_nil_r. }
  destruct Hcases as [(_ & HB & _) | (path & _ & HB & Hres)].
  - exfalso. rewrite appends_app in HB. apply app_eq_nil in HB as [_ HB].
    apply appends_cons_nil in HB as [HB _]. contradiction.
  - destruct Hres as [[_ Hall] | [Hthrown (ev & HB1)]].
    + exfalso. rewrite forallb_app in Hall. apply andb_true_iff in Hall as [_ Hall].
      simpl in Hall. rewrite Hrej in Hall. discriminate.
    + destruct B1 as [|b B1]; [|destruct B1; discriminate].
      injection HB1 as _ ->. auto.
Qed.

End Output.

Lemma dry_run_appends_placeholder_key_witness :
  appends (events (Sim.syncIssue env0_dry 1 world0)) = [("/tmp/out", output_line "OLSF-DRY")].
Proof.
  exact (@dry_run_appends_placeholder_key Sim.World Sim.respond Sim.clock env0_dry 1 world0
           (synced_result "OLSF-DRY") "/tmp/out" eq_refl eq_refl eq_refl eq_refl).
Defined.

Lemma syncIssue_output_failure_witness :
  exists err, result (syncIssue respond_read_only Sim.clock env0 1 world0) = inl err.
Proof.
  refine (proj1 (proj2
    (@syncIssue_output_failure Sim.World respond_read_only Sim.clock env0 1 world0
       (removelast (events (syncIssue respond_read_only Sim.clock env0 1 world0)))
       []
       (last (events (syncIssue respond_read_only Sim.clock env0 1 world0)) ClockRead)
       _ _ _))).
  - vm_compute. reflexivity.
  - vm_compute. discriminate.
  - vm_compute. reflexivity.
Defined.

(** With the output file read-only the reference run has created the Jira
    issue, attached the label and closed the issue when it throws. *)
Example read_only_output_after_all_writes :
  result (syncIssue respond_read_only Sim.clock env0 1 world0)
  = inl (Error "EACCES: permission denied")
  /\ steps (events (syncIssue respond_read_only Sim.clock env0 1 world0))
     = plan env0 1 "OLSF-42" true.
Proof. split; reflexivity. Qed.

(* ------------------------------------------------------------------ *)
(** * The reach of a run                                                *)
(* ------------------------------------------------------------------ *)

(** X23. A run of [syncIssue] for the issue [n] stays within that issue,
    whatever the world answers: it reads and changes no other issue and
    lists none, the only state it sets is closed / not_planned (it never
    reopens an issue), the only labels it looks up, creates or attaches
    are [jira:] labels, and Jira gets nothing but POST requests. *)
Theorem syncIssue_stays_within_its_issue
        (World : Type) (respond : forall T, World -> Call T -> World * (thrown + T))
        (clock : World -> string) (env : Env) (n : nat) (w : World) :
  Forall (fun e => within_issue n e = true) (events (syncIssue respond clock env n w)).
Proof.
  revert w.
  change (only (fun e => within_issue n e = true) (syncIssue respond clock env n)).
  unfold syncIssue, createJiraIssue, jira, applyJiraLabel, ensureLabel, closeIssue.
  script_cases; intros; cbn [within_issue]; rewrite ?Nat.eqb_refl; reflexivity.
Qed.

(* ------------------------------------------------------------------ *)
(** * Paging                                                            *)
(* ------------------------------------------------------------------ *)

Lemma listings_app (t1 t2 : list Event) :
  listings (t1 ++ t2) = (listings t1 ++ listings t2)%list.
Proof. unfold listings. now rewrite map_app, filter_Boolean_app. Qed.

Lemma page_sizes_app (t1 t2 : list Event) :
  page_sizes (t1 ++ t2) = (page_sizes t1 ++ page_sizes t2)%list.
Proof. unfold page_sizes. now rewrite map_app, filter_Boolean_app. Qed.

Lemma no_listing (t : list Event) :
  Forall (fun e => listing e = None /\ page_size e = None) t ->
  listings t = [] /\ page_sizes t = [].
Proof.
  unfold listings, page_sizes.
  induction 1 as [|e t [H1 H2] _ [IH1 IH2]]; simpl; [auto|]. now rewrite H1, H2.
Qed.

Section Paging.

Variable World : Type.
Variable respond : forall T : Type, World -> Call T -> World * (thrown + T).
Variable clock : World -> string.
Variable env : Env.

(** The work on the issues of a page requests no page. *)
Lemma bulkSync_page_no_listing (issues : list Issue) :
  forall s, only (fun e => listing e = None /\ page_size e = None)
                 (bulkSync_page respond clock env issues s).
Proof.
  induction issues as [|i rest IH]; intros s; cbn [bulkSync_page].
  - apply only_ret.
  - destruct (pull_request i); [apply IH|].
    apply only_bind; [|intros s'; apply IH].
    unfold syncIssue, createJiraIssue, jira, applyJiraLabel, ensureLabel, closeIssue.
    script_cases; intros; split; reflexivity.
Qed.

(** X27. The paging loop asks for the open issues page by page, a hundred to
    a page, from [page] on and in order, and it asks for the next page
    only after a full one: it stops at the first page that is short or
    empty, at the first request that is rejected (which it throws on), or
    when the model runs out of [fuel]. *)
Theorem bulkSync_requests_pages_in_order (fuel : nat) :
  forall (page : nat) (s : Summary) (w : World),
    let o := bulkSync_from respond clock env fuel page s w in
    exists k full,
      listings (events o) = map (fun p => ("open", 100, p)) (seq page k)
      /\ k <= fuel
      /\ Forall (fun n => 100 <= n) full
      /\ ((result o = inr None /\ page_sizes (events o) = full /\ k = fuel)
          \/ (exists e, result o = inl e
                        /\ page_sizes (events o) = full /\ k = S (List.length full))
          \/ (exists s' last,
                 result o = inr (Some s')
                 /\ page_sizes (events o) = (full ++ [last])%list
                 /\ last < 100 /\ k = S (List.length full))).
Proof.
  induction fuel as [|fuel IH]; intros page s w o; subst o.
  { exists 0, []. repeat split; auto. }
  cbn [bulkSync_from]. rewrite bind_call.
  set (c := issues_listForRepo "open" 100 page).
  destruct (snd (respond w c)) as [e|issues] eqn:Hlist.
  { exists 1, []. split; [reflexivity|]. split; [lia|]. split; [constructor|].
    right. left. exists e. repeat split. }
  destruct (Nat.eqb (List.length issues) 0) eqn:Hzero.
  { apply Nat.eqb_eq in Hzero.
    exists 1, []. split; [reflexivity|]. split; [lia|]. split; [constructor|].
    right. right. exists s, (List.length issues).
    split; [reflexivity|]. split; [reflexivity|]. split; [lia | reflexivity]. }
  rewrite bind_run.
  set (w1 := fst (respond w c)).
  destruct (bulkSync_page_spec respond clock env issues s w1) as (s1 & Hres & _).
  destruct (no_listing (bulkSync_page_no_listing issues s w1)) as [Hq1 Hq2].
  set (o1 := bulkSync_page respond clock env issues s w1) in *.
  rewrite Hres.
  destruct (Nat.ltb (List.length issues) 100) eqn:Hshort.
  { apply Nat.ltb_lt in Hshort.
    exists 1, []. cbn [after events result].
    rewrite !listings_app, !page_sizes_app, Hq1, Hq2.
    split; [reflexivity|]. split; [lia|]. split; [constructor|].
    right. right. exists s1, (List.length issues).
    split; [reflexivity|]. split; [reflexivity|]. split; [exact Hshort | reflexivity]. }
  apply Nat.ltb_ge in Hshort.
  destruct (IH (S page) s1 (final o1)) as (k & full & Hl & Hk & Hfull & Hcases).
  exists (S k), (List.length issues :: full).
  cbn [after events result].
  rewrite !listings_app, !page_sizes_app, Hq1, Hq2, Hl.
  split; [reflexivity|]. split; [lia|]. split; [now constructor|].
  destruct Hcases as [(Hr & Hs & ->) | [(e & Hr & Hs & ->) | (s' & last & Hr & Hs & Hlast & ->)]].
  - left. rewrite Hr, Hs. repeat split.
  - right. left. exists e. rewrite Hr, Hs. repeat split.
  - right. right. exists s', last. rewrite Hr, Hs. repeat split. exact Hlast.
Qed.

End Paging.

(** On the reference repository the first page is short, so one page is
    requested. *)
Example bulkSync_reference_pages :
  listings (events (Sim.bulkSync env0 5 world0)) = [("open", 100, 1)]
  /\ page_sizes (events (Sim.bulkSync env0 5 world0)) = [5].
Proof. split; reflexivity. Qed.

(* ------------------------------------------------------------------ *)
(** * Reading the body back                                             *)
(* ------------------------------------------------------------------ *)

Lemma append_cons (a : ascii) (u s : string) : String a u ++ s = String a (u ++ s).
Proof. reflexivity. Qed.

(** A pattern that starts with a literal character matches nowhere in a
    text without that character, and passes over such a text. *)
Lemma search_skip (c : ascii) (re : regex) (pre s : string) :
  free_of c pre ->
  forall pos,
    search (Cls (Str.is_char c) :: re) pos (pre ++ s)
    = search (Cls (Str.is_char c) :: re) (pos + String.length pre) s.
Proof.
  unfold free_of. induction pre as [|a pre IH]; intros Hfree pos.
  - change ("" ++ s) with s. now rewrite Nat.add_0_r.
  - simpl in Hfree. apply andb_true_iff in Hfree as [Ha Hfree].
    apply negb_true_iff in Ha.
    rewrite append_cons. cbn [search exec_at]. rewrite Ha.
    rewrite (IH Hfree). simpl String.length. now rewrite <- plus_n_Sm.
Qed.

Lemma search_free (c : ascii) (re : regex) (s : string) :
  free_of c s -> forall pos, search (Cls (Str.is_char c) :: re) pos s = None.
Proof.
  intros Hfree pos. rewrite <- (append_empty_r s), (search_skip re "" Hfree).
  reflexivity.
Qed.

Lemma match_group1_free (c : ascii) (re : regex) (s : string) :
  free_of c s -> match_group1 (Cls (Str.is_char c) :: re) s = None.
Proof. intros H. unfold match_group1. now rewrite search_free. Qed.

(** A freeform body -- one without a table bar and without a heading
    mark -- holds no metadata: every field is absent. *)
Lemma parseBody_freeform (s : string) :
  free_of "|" s -> free_of "#" s -> parseBody (Str s) = inr no_meta.
Proof.
  intros Hbar Hhash. unfold parseBody, no_meta.
  change todo_re with (Cls (Str.is_char "#") :: List.tl todo_re).
  change code_re with (Cls (Str.is_char "#") :: List.tl code_re).
  rewrite !(match_group1_free _ Hhash).
  repeat match goal with
         | |- context [match_group1 (field_re ?n) s] =>
             change (field_re n) with (Cls (Str.is_char "|") :: List.tl (field_re n));
             rewrite (match_group1_free _ Hbar)
         end.
  reflexivity.
Qed.

(** X10. The description of an issue with a freeform body, or with no [body]
    property: the provenance paragraph, the title as the quote, and a
    table whose only row is the link to the GitHub issue; there is no code
    context. *)
Theorem freeform_body_description (issue : Issue) (s : string) :
  body issue = Str s \/ (body issue = Undefined /\ s = "") ->
  free_of "|" s -> free_of "#" s ->
  exists meta,
    parseBody (body issue) = inr meta
    /\ Adf.content (buildDescription issue meta)
       = [ provenance;
           Adf.blockquote [Adf.paragraph [Adf.text (title issue) []]];
           Adf.heading 3 [Adf.text "Details" []];
           Adf.table false "default"
             [ Adf.tableRow
                 [ Adf.tableHeader [Adf.paragraph [Adf.text "Field" []]];
                   Adf.tableHeader [Adf.paragraph [Adf.text "Value" []]] ];
               Adf.tableRow
                 [ Adf.tableCell [Adf.paragraph [Adf.text "GitHub Issue" []]];
                   Adf.tableCell [Adf.paragraph [Adf.text (html_url issue) []]] ] ] ].
Proof.
  intros Hbody Hbar Hhash. exists no_meta. split.
  - destruct Hbody as [-> | [-> ->]]; [now apply parseBody_freeform | reflexivity].
  - reflexivity.
Qed.

Lemma freeform_body_description_witness :
  exists meta,
    parseBody (body issue6) = inr meta
    /\ Adf.content (buildDescription issue6 meta)
       = [ provenance;
           Adf.blockquote [Adf.paragraph [Adf.text "Drop the old API" []]];
           Adf.heading 3 [Adf.text "Details" []];
           Adf.table false "default"
             [ Adf.tableRow
                 [ Adf.tableHeader [Adf.paragraph [Adf.text "Field" []]];
                   Adf.tableHeader [Adf.paragraph [Adf.text "Value" []]] ];
               Adf.tableRow
                 [ Adf.tableCell [Adf.paragraph [Adf.text "GitHub Issue" []]];
                   Adf.tableCell
                     [Adf.paragraph
                        [Adf.text "https://github.com/acme/app/issues/6" []]] ] ] ].
Proof.
  apply (@freeform_body_description issue6 "done by hand");
    [left; reflexivity | reflexivity | reflexivity].
Defined.

Lemma exec_opt_take (p : ascii -> bool) (re : regex) (a : ascii) (s : string)
      (pos : nat) (g : groups) (r : found) :
  p a = true ->
  exec_at re (S pos) s g = Some r ->
  exec_at (Opt p :: re) pos (String a s) g = Some r.
Proof. intros Ha H. cbn [exec_at]. now rewrite Ha, H. Qed.

Lemma exec_opt_skip (p : ascii -> bool) (re : regex) (s : string)
      (pos : nat) (g : groups) :
  run_ends p s ->
  exec_at (Opt p :: re) pos s g = exec_at re pos s g.
Proof. destruct s as [|a s]; intros H; cbn [exec_at]; [reflexivity|]. simpl in H. now rewrite H. Qed.

Section Lazy.

Variable k : nat -> string -> groups -> option found.
Variable p : ascii -> bool.

(** A lazy repetition stops at the first place where what follows
    matches: when that is after the whole run [cs], it takes [cs]. *)
Lemma rep_lazy_run (cs s : string) (r : found) (g : groups) :
  forall pos min,
    Str.all p cs = true ->
    min <= String.length cs ->
    (forall taken left,
        cs = taken ++ left -> min <= String.length taken -> left <> "" ->
        k (pos + String.length taken) (left ++ s) g = None) ->
    k (pos + String.length cs) s g = Some r ->
    rep k false min p pos (cs ++ s) g = Some r.
Proof.
  induction cs as [|c cs IH]; intros pos min Hall Hmin Hfail Hk.
  - simpl in Hmin. assert (min = 0) by lia. subst min.
    simpl in Hk. rewrite Nat.add_0_r in Hk. change ("" ++ s) with s.
    destruct s; simpl; now rewrite Hk.
  - simpl in Hall. apply andb_true_iff in Hall as [Hc Hall].
    simpl in Hmin, Hk. rewrite <- plus_n_Sm in Hk.
    assert (Hrest : forall m, m <= String.length cs ->
              (forall taken left, String c cs = taken ++ left ->
                                  Nat.pred (S m) <= Nat.pred (String.length taken) ->
                                  taken <> "" -> left <> "" ->
                                  k (pos + String.length taken) (left ++ s) g = None) ->
              rep k false m p (S pos) (cs ++ s) g = Some r).
    { intros m Hm Hf. apply IH; auto.
      intros taken left Hsplit Hlen Hleft.
      replace (S pos + String.length taken) with (pos + String.length (String c taken))
        by (simpl; lia).
      apply Hf; auto; [now rewrite Hsplit | discriminate]. }
    rewrite append_cons. destruct min as [|m]; cbn [rep].
    + assert (H0 : k pos (String c (cs ++ s)) g = None).
      { rewrite <- (Nat.add_0_r pos).
        apply (Hfail "" (String c cs)); [reflexivity | apply Nat.le_0_l | discriminate]. }
      rewrite H0, Hc. apply Hrest; [lia|].
      intros taken left Hsplit _ _ Hleft. apply Hfail; auto. lia.
    + rewrite Hc. apply Hrest; [lia|].
      intros taken left Hsplit Hlen Htaken Hleft. apply Hfail; auto.
      destruct taken; [congruence|]. simpl in *. lia.
Qed.

End Lazy.

Lemma take_group (v t : string) :
  Str.take (String.length (v ++ t) - String.length t) (v ++ t) = v.
Proof.
  rewrite length_append. replace (String.length v + String.length t - String.length t)
    with (String.length v) by lia.
  apply take_length_append.
Qed.

(** In a value followed by a backtick, no bar comes right after white
    space: the backtick is in the way. *)
Lemma no_bar_before_tick (u t t' : string) :
  forall cs,
    Str.all Str.is_space cs = true ->
    Str.all not_tick_bar_newline u = true ->
    cs ++ String "|" t = u ++ String backtick t' -> False.
Proof.
  induction u as [|a u IH]; intros cs Hcs Hu Heq.
  - destruct cs as [|c cs]; simpl in Heq; [discriminate|].
    injection Heq as -> _. simpl in Hcs. discriminate.
  - simpl in Hu. apply andb_true_iff in Hu as [Ha Hu].
    destruct cs as [|c cs]; simpl in Heq; injection Heq as Hc Heq.
    + subst a. discriminate.
    + simpl in Hcs. apply andb_true_iff in Hcs as [_ Hcs]. eauto.
Qed.

Lemma exec_rep (gr : bool) (min : nat) (p : ascii -> bool) (re : regex)
      (pos : nat) (s : string) (g : groups) :
  exec_at (Rep gr min p :: re) pos s g = rep (exec_at re) gr min p pos s g.
Proof. reflexivity. Qed.

Lemma exec_open (re : regex) (pos : nat) (s : string) (g : groups) :
  exec_at (Open :: re) pos s g
  = exec_at re pos s {| opened := Some s; captured := captured g |}.
Proof. reflexivity. Qed.

Lemma exec_close (re : regex) (pos : nat) (s : string) (g : groups) :
  exec_at (Close :: re) pos s g = exec_at re pos s (close_group g s).
Proof. reflexivity. Qed.

Lemma exec_cls (p : ascii -> bool) (re : regex) (pos : nat) (a : ascii) (s : string)
      (g : groups) :
  exec_at (Cls p :: re) pos (String a s) g
  = if p a then exec_at re (S pos) s g else None.
Proof. reflexivity. Qed.

Lemma field_name_starts (name : string) (s : string) :
  In name field_names -> run_ends Str.is_space (name ++ s).
Proof.
  intros H. repeat (destruct H as [<-|H]; [reflexivity|]). destruct H.
Qed.

(** The pattern of a field on a row of that field. *)
Lemma exec_field_row (name ws1 ws2 ws3 v ws4 post : string) (pos : nat) :
  In name field_names ->
  Str.all Str.is_space ws1 = true -> Str.all Str.is_space ws2 = true ->
  Str.all Str.is_space ws3 = true -> Str.all Str.is_space ws4 = true ->
  v <> "" -> Str.all not_tick_bar_newline v = true ->
  exists r,
    exec_at (field_re name) pos
      ("|" ++ ws1 ++ name ++ ws2 ++ "|" ++ ws3
           ++ String backtick (v ++ String backtick (ws4 ++ "|" ++ post)))
      no_groups = Some r
    /\ group1 r = Some v.
Proof.
  intros Hname H1 H2 H3 H4 Hv Hall.
  set (tail := String backtick (ws4 ++ "|" ++ post)).
  set (g1 := {| opened := Some (v ++ tail); captured := captured no_groups |}).
  exists {| stop := S (S (S (S (S (pos + String.length ws1 + String.length name
                                      + String.length ws2 + String.length ws3
                                      + String.length v + String.length ws4)))));
            rest := post;
            group1 := captured (close_group g1 tail) |}.
  split.
  2:{ cbn [group1 close_group g1 opened captured]. now rewrite take_group. }
  unfold field_re.
  apply exec_lit. eexists. split; [reflexivity|].
  cbn [app]. rewrite exec_rep.
  apply rep_greedy_run; auto; [lia | now apply field_name_starts |].
  apply exec_lit. eexists. split; [reflexivity|].
  cbn [app]. rewrite exec_rep.
  apply rep_greedy_run; auto; [lia | reflexivity |].
  apply exec_lit. eexists. split; [reflexivity|].
  cbn [app]. rewrite exec_rep.
  apply rep_greedy_run; auto; [lia | reflexivity |].
  apply exec_opt_take; [apply is_char_refl|].
  rewrite exec_open. fold g1. rewrite exec_rep.
  apply rep_lazy_run; auto.
  - now apply length_pos_nonempty.
  - intros taken left Hsplit _ Hleft.
    rewrite exec_close.
    assert (Hl : Str.all not_tick_bar_newline left = true).
    { rewrite Hsplit, all_append in Hall. now apply andb_true_iff in Hall. }
    destruct left as [|a left]; [congruence|].
    rewrite append_cons. simpl in Hl. apply andb_true_iff in Hl as [Ha Hl].
    assert (Htick : Str.is_char backtick a = false).
    { unfold not_tick_bar_newline, Str.is_char in *.
      apply negb_true_iff in Ha. now apply orb_false_iff in Ha as [Ha%orb_false_iff _]. }
    rewrite exec_opt_skip by exact Htick. rewrite exec_rep.
    match goal with
    | |- ?x = None => destruct x as [r'|] eqn:E; [exfalso | reflexivity]
    end.
    apply rep_sound in E as (cs & s' & Heq & Hcs & _ & E).
    rewrite <- (app_nil_r (lit "|")) in E.
    apply exec_lit in E as (s'' & -> & _).
    apply (@no_bar_before_tick (String a left) s'' (ws4 ++ "|" ++ post) cs Hcs).
    + simpl. now rewrite Ha, Hl.
    + symmetry. exact Heq.
  - rewrite exec_close. unfold tail at 1.
    apply exec_opt_take; [apply is_char_refl|].
    rewrite exec_rep.
    apply rep_greedy_run; auto; [lia | reflexivity |].
    change ("|" ++ post) with (String "|" post). cbn [lit]. rewrite exec_cls.
    rewrite is_char_refl. cbn [exec_at]. f_equal. f_equal. simpl. lia.
Qed.

Lemma search_found (re : regex) (pos : nat) (s : string) (r : found) :
  exec_at re pos s no_groups = Some r -> search re pos s = Some (pos, r).
Proof. intros H. destruct s; simpl; now rewrite H. Qed.

Lemma table_row_append (ws1 name ws2 ws3 v ws4 post : string) :
  table_row ws1 name ws2 ws3 v ws4 ++ post
  = "|" ++ ws1 ++ name ++ ws2 ++ "|" ++ ws3
        ++ String backtick (v ++ String backtick (ws4 ++ "|" ++ post)).
Proof.
  unfold table_row.
  repeat (rewrite append_assoc || rewrite append_cons). reflexivity.
Qed.

(** A pattern that matches nowhere inside [pre] passes over it. *)
Lemma search_pass (re : regex) (pre s : string) :
  forall pos,
    (forall a b, pre = a ++ b -> b <> "" ->
                 exec_at re (pos + String.length a) (b ++ s) no_groups = None) ->
    search re pos (pre ++ s) = search re (pos + String.length pre) s.
Proof.
  induction pre as [|c pre IH]; intros pos Hfail.
  - change ("" ++ s) with s. now rewrite Nat.add_0_r.
  - rewrite append_cons. cbn [search].
    assert (H0 : exec_at re pos (String c (pre ++ s)) no_groups = None).
    { rewrite <- (Nat.add_0_r pos).
      apply (Hfail "" (String c pre)); [reflexivity | discriminate]. }
    rewrite H0, IH.
    + simpl String.length. now rewrite <- plus_n_Sm.
    + intros a b Hsplit Hb.
      replace (S pos + String.length a) with (pos + String.length (String c a))
        by (simpl; lia).
      apply Hfail; [now rewrite Hsplit | exact Hb].
Qed.

(** A match somewhere in the text is found by the search, or an earlier
    one is. *)
Lemma search_finds (re : regex) (a s : string) (r : found) :
  forall pos,
    exec_at re (pos + String.length a) s no_groups = Some r ->
    exists x, search re pos (a ++ s) = Some x.
Proof.
  induction a as [|c a IH]; intros pos H.
  - change (pos + String.length "") with (pos + 0) in H.
    rewrite Nat.add_0_r in H. change ("" ++ s) with s.
    exists (pos, r). now apply search_found.
  - rewrite append_cons. cbn [search].
    destruct (exec_at re pos (String c (a ++ s)) no_groups); [now eexists|].
    apply IH. change (String.length (String c a)) with (S (String.length a)) in H.
    now rewrite <- plus_n_Sm in H.
Qed.

(** Text that runs into a character it does not hold ends before it. *)
Lemma ends_before (c : ascii) (m : string) :
  forall b t s,
    b ++ String c t = m ++ s -> free_of c m -> exists b', b = m ++ b'.
Proof.
  unfold free_of. induction m as [|y m IH]; intros b t s Heq Hfree.
  - now exists b.
  - simpl in Hfree. apply andb_true_iff in Hfree as [Hy Hfree].
    destruct b as [|z b]; simpl in Heq; injection Heq as -> Heq.
    + unfold Str.is_char in Hy. now rewrite Ascii.eqb_refl in Hy.
    + destruct (IH b t s Heq Hfree) as (b' & ->). now exists b'.
Qed.

Lemma field_name_free_of_bar (name : string) :
  In name field_names -> free_of "|" name.
Proof.
  intros H. repeat (destruct H as [<-|H]; [reflexivity|]). destruct H.
Qed.

Lemma space_free_of_bar (cs : string) :
  Str.all Str.is_space cs = true -> free_of "|" cs.
Proof.
  unfold free_of. induction cs as [|c cs IH]; simpl; [reflexivity|].
  intros H. apply andb_true_iff in H as [Hc H]. rewrite (IH H), andb_true_r.
  destruct (Str.is_char "|" c) eqn:E; [|reflexivity].
  apply is_char_true in E. subst c. discriminate.
Qed.

Lemma free_of_append (c : ascii) (a b : string) :
  free_of c a -> free_of c b -> free_of c (a ++ b).
Proof. unfold free_of. intros Ha Hb. now rewrite all_append, Ha, Hb. Qed.

(** Before the first row of a field its pattern matches nowhere. *)
Lemma field_re_fails_before_row (name pre a b t : string) (pos : nat) :
  In name field_names ->
  test (row_start_re name) pre = false ->
  pre = a ++ b -> b <> "" ->
  exec_at (field_re name) pos (b ++ String "|" t) no_groups = None.
Proof.
  intros Hname Htest Hsplit Hb.
  destruct (exec_at (field_re name) pos (b ++ String "|" t) no_groups) as [r|] eqn:E;
    [exfalso | reflexivity].
  unfold field_re in E.
  apply exec_lit in E as (s1 & Hs1 & E). cbn [app] in E. rewrite exec_rep in E.
  apply rep_sound in E as (cs & s2 & -> & Hcs & _ & E).
  apply exec_lit in E as (s3 & -> & _).
  destruct b as [|x b]; [congruence|].
  rewrite append_cons in Hs1. simpl in Hs1. injection Hs1 as -> Hs1.
  change (b ++ String "|" t = cs ++ name ++ s3) in Hs1.
  rewrite <- append_assoc in Hs1.
  destruct (@ends_before "|" (cs ++ name) b t s3 Hs1) as (b' & ->).
  { apply free_of_append; [now apply space_free_of_bar | now apply field_name_free_of_bar]. }
  assert (Hfound : exists x, search (row_start_re name) 0 pre = Some x).
  { rewrite Hsplit.
    apply search_finds
      with (r := {| stop := S (0 + String.length a + String.length cs)
                            + String.length name;
                    rest := b'; group1 := None |}).
    unfold row_start_re. apply exec_lit. eexists. split; [reflexivity|].
    cbn [app]. rewrite exec_rep, append_assoc.
    apply rep_greedy_run; auto; [lia | now apply field_name_starts |].
    rewrite <- (app_nil_r (lit name)). apply exec_lit. eexists. split; [reflexivity|].
    cbn [exec_at]. f_equal. f_equal. simpl. lia. }
  destruct Hfound as (x & Hx). unfold test in Htest. rewrite Hx in Htest. discriminate.
Qed.

Lemma match_field_row (name pre ws1 ws2 ws3 v ws4 post : string) :
  In name field_names ->
  test (row_start_re name) pre = false ->
  Str.all Str.is_space ws1 = true -> Str.all Str.is_space ws2 = true ->
  Str.all Str.is_space ws3 = true -> Str.all Str.is_space ws4 = true ->
  v <> "" -> Str.all not_tick_bar_newline v = true ->
  match_group1 (field_re name) (pre ++ table_row ws1 name ws2 ws3 v ws4 ++ post)
  = Some v.
Proof.
  intros Hname Hpre H1 H2 H3 H4 Hv Hall.
  destruct (@exec_field_row name ws1 ws2 ws3 v ws4 post (0 + String.length pre)
              Hname H1 H2 H3 H4 Hv Hall)
    as (r & Hr & Hg).
  unfold match_group1. rewrite table_row_append, search_pass.
  - now rewrite (@search_found _ _ _ r Hr).
  - intros a b Hsplit Hb.
    now apply field_re_fails_before_row with (pre := pre) (a := a).
Qed.

(** What [parseBody] makes of a body that is a string. *)
Lemma parseBody_string (b : string) :
  parseBody (Str b)
  = inr {| todoText := option_map Str.trim (match_group1 todo_re b);
           codeBlock := match_group1 code_re b;
           file := option_map Str.trim (match_group1 (field_re "File") b);
           line := option_map Str.trim (match_group1 (field_re "Line") b);
           branch := option_map Str.trim (match_group1 (field_re "Branch") b);
           commit := option_map Str.trim (match_group1 (field_re "Commit") b);
           introduced := option_map Str.trim (match_group1 (field_re "Introduced") b);
           author := option_map Str.trim (match_group1 (field_re "Author") b) |}.
Proof. reflexivity. Qed.

(** X11. A field of the table is read back from its row: for a row
    [| name | `value` |] -- the first row of that name in the body, with
    any white space around the cells and a value free of backticks, bars
    and line feeds -- [parseBody] yields the value, trimmed, as that
    field. *)
Theorem parseBody_reads_table_field
        (name pre ws1 ws2 ws3 v ws4 post : string) :
  In name field_names ->
  test (row_start_re name) pre = false ->
  Str.all Str.is_space ws1 = true -> Str.all Str.is_space ws2 = true ->
  Str.all Str.is_space ws3 = true -> Str.all Str.is_space ws4 = true ->
  v <> "" -> Str.all not_tick_bar_newline v = true ->
  exists meta,
    parseBody (Str (pre ++ table_row ws1 name ws2 ws3 v ws4 ++ post)) = inr meta
    /\ meta_field name meta = Some (Str.trim v).
Proof.
  intros Hname Hpre H1 H2 H3 H4 Hv Hall.
  pose proof (@match_field_row name pre ws1 ws2 ws3 v ws4 post
                Hname Hpre H1 H2 H3 H4 Hv Hall) as Hm.
  set (b := pre ++ table_row ws1 name ws2 ws3 v ws4 ++ post) in *.
  rewrite parseBody_string. eexists. split; [reflexivity|].
  transitivity (option_map Str.trim (match_group1 (field_re name) b));
    [|now rewrite Hm].
  clear Hm. repeat (destruct Hname as [<-|Hname]; [reflexivity|]). destruct Hname.
Qed.

Lemma parseBody_reads_table_field_witness :
  exists meta,
    parseBody (Str ("| Field | Value |" ++ String LF "" ++ "|---|---|" ++ String LF ""
                      ++ "| File | `src/a.js` |" ++ String LF ""
                      ++ "| Author | `alice` |" ++ String LF ""))
    = inr meta
    /\ meta_field "Author" meta = Some "alice".
Proof.
  apply (@parseBody_reads_table_field "Author"
           ("| Field | Value |" ++ String LF "" ++ "|---|---|" ++ String LF ""
              ++ "| File | `src/a.js` |" ++ String LF "")
           " " " " " " "alice" " " (String LF ""));
    try reflexivity; [simpl; auto 7 | discriminate].
Defined.

Section Greedy.

Variable k : nat -> string -> groups -> option found.
Variable p : ascii -> bool.

(** A greedy repetition gives back its last character when what follows
    does not match after the whole run but does match one character
    earlier. *)
Lemma rep_greedy_back_one (cs s : string) (a : ascii) (r : found) (g : groups) :
  forall pos,
    Str.all p cs = true -> p a = true -> run_ends p s ->
    k (S (pos + String.length cs)) s g = None ->
    k (pos + String.length cs) (String a s) g = Some r ->
    rep k true 0 p pos (cs ++ String a s) g = Some r.
Proof.
  induction cs as [|c cs IH]; intros pos Hall Ha Hend Hnone Hk.
  - change ("" ++ String a s) with (String a s).
    change (String.length "") with 0 in *. rewrite Nat.add_0_r in *.
    cbn [rep]. rewrite Ha.
    assert (E : rep k true 0 p (S pos) s g = None).
    { destruct s as [|b s]; cbn [rep]; [exact Hnone|].
      simpl in Hend. now rewrite Hend. }
    now rewrite E.
  - simpl in Hall. apply andb_true_iff in Hall as [Hc Hall].
    change (String.length (String c cs)) with (S (String.length cs)) in *.
    rewrite <- plus_n_Sm in *.
    rewrite append_cons. cbn [rep]. rewrite Hc.
    now rewrite (IH (S pos) Hall Ha Hend Hnone Hk).
Qed.

End Greedy.

Lemma trim_nonempty (c : ascii) (t : string) :
  Str.is_space c = false -> Str.trim (String c t) <> "".
Proof.
  intros Hc. unfold Str.trim. cbn [Str.trimStart]. rewrite Hc.
  cbn [Str.trimEnd]. rewrite Hc. now destruct (Str.trimEnd t).
Qed.

(** The pattern of the TODO comment on its section. *)
Lemma exec_todo (ws0 ws1 ws2 t post : string) (pos : nat) :
  Str.all Str.is_space ws0 = true -> Str.all Str.is_space ws1 = true ->
  Str.all Str.is_space ws2 = true ->
  t <> "" -> Str.all Str.is_dot t = true ->
  run_ends Str.is_space t -> run_ends Str.is_dot post ->
  exists r,
    exec_at todo_re pos
      ("##" ++ ws0 ++ "TODO Comment" ++ ws1 ++ String LF (">" ++ ws2 ++ t ++ post))
      no_groups = Some r
    /\ group1 r = Some t.
Proof.
  intros H0 H1 H2 Ht Hdot Hstart Hend.
  set (g1 := {| opened := Some (t ++ post); captured := captured no_groups |}).
  exists {| stop := pos + String.length "##" + String.length ws0
                    + String.length "TODO Comment" + String.length ws1
                    + 1 + String.length ">" + String.length ws2 + String.length t;
            rest := post;
            group1 := captured (close_group g1 post) |}.
  split.
  2:{ cbn [group1 close_group g1 opened captured]. now rewrite take_group. }
  unfold todo_re.
  apply exec_lit. eexists. split; [reflexivity|].
  cbn [app]. rewrite exec_rep.
  apply rep_greedy_run; auto; [lia | reflexivity |].
  apply exec_lit. eexists. split; [reflexivity|].
  cbn [app]. rewrite exec_rep.
  apply rep_greedy_back_one; [exact H1 | reflexivity | reflexivity | reflexivity |].
  rewrite exec_rep.
  change (String LF (">" ++ ws2 ++ t ++ post))
    with (String LF "" ++ (">" ++ ws2 ++ t ++ post)).
  apply rep_greedy_run; auto; [reflexivity |].
  apply exec_lit. eexists. split; [reflexivity|].
  cbn [app]. rewrite exec_rep.
  apply rep_greedy_run; auto; [lia | |].
  { destruct t; [congruence | exact Hstart]. }
  rewrite exec_open. fold g1. rewrite exec_rep.
  apply rep_greedy_run; [exact Hdot | now apply length_pos_nonempty | exact Hend |].
  rewrite exec_close. cbn [exec_at]. reflexivity.
Qed.

(** X12. The TODO comment is read back from its section: for a body whose
    first heading mark opens [## TODO Comment], followed by a quoted line,
    [parseBody] yields the text of that line, trimmed, and the
    description quotes that text in place of the title. *)
Theorem parseBody_reads_todo_comment
        (issue : Issue) (pre ws0 ws1 ws2 t post : string) :
  body issue
  = Str (pre ++ "##" ++ ws0 ++ "TODO Comment" ++ ws1
             ++ String LF (">" ++ ws2 ++ t ++ post)) ->
  free_of "#" pre ->
  Str.all Str.is_space ws0 = true -> Str.all Str.is_space ws1 = true ->
  Str.all Str.is_space ws2 = true ->
  t <> "" -> Str.all Str.is_dot t = true ->
  run_ends Str.is_space t -> run_ends Str.is_dot post ->
  exists meta,
    parseBody (body issue) = inr meta
    /\ todoText meta = Some (Str.trim t)
    /\ nth_error (Adf.content (buildDescription issue meta)) 1
       = Some (Adf.blockquote [Adf.paragraph [Adf.text (Str.trim t) []]]).
Proof.
  intros Hbody Hpre H0 H1 H2 Ht Hdot Hstart Hend.
  destruct (@exec_todo ws0 ws1 ws2 t post (0 + String.length pre)
              H0 H1 H2 Ht Hdot Hstart Hend) as (r & Hr & Hg).
  assert (Hm : match_group1 todo_re
                 (pre ++ "##" ++ ws0 ++ "TODO Comment" ++ ws1
                      ++ String LF (">" ++ ws2 ++ t ++ post)) = Some t).
  { unfold match_group1.
    change todo_re with (Cls (Str.is_char "#") :: List.tl todo_re).
    rewrite (search_skip _ _ Hpre).
    change (Cls (Str.is_char "#") :: List.tl todo_re) with todo_re.
    now rewrite (@search_found _ _ _ r Hr). }
  rewrite Hbody, parseBody_string, Hm. eexists. split; [reflexivity|].
  split; [reflexivity|].
  match goal with
  | |- context [buildDescription issue ?m] =>
      destruct (buildDescription_shape issue m) as (cc & ->)
  end.
  cbn [nth_error app todoText option_map].
  destruct t as [|c t]; [congruence|]. simpl in Hstart.
  assert (Hne : (Str.trim (String c t) =? "") = false)
    by (apply String.eqb_neq; now apply trim_nonempty).
  unfold or_else. now rewrite Hne.
Qed.

Lemma parseBody_reads_todo_comment_witness :
  exists meta,
    parseBody (Str ("Found in review." ++ String LF ""
                      ++ "## TODO Comment" ++ String LF ""
                      ++ "> handle the empty list " ++ String LF ""
                      ++ "| File | `a.js` |"))
    = inr meta
    /\ todoText meta = Some "handle the empty list"
    /\ nth_error (Adf.content (buildDescription issue1 meta)) 1
       = Some (Adf.blockquote [Adf.paragraph [Adf.text "handle the empty list" []]]).
Proof.
  apply (@parseBody_reads_todo_comment
           {| number := 1; title := title issue1;
              body := Str ("Found in review." ++ String LF ""
                             ++ "## TODO Comment" ++ String LF ""
                             ++ "> handle the empty list " ++ String LF ""
                             ++ "| File | `a.js` |");
              state := "open"; labels := []; html_url := html_url issue1;
              pull_request := false |}
           ("Found in review." ++ String LF "") " " "" " " "handle the empty list "
           (String LF "" ++ "| File | `a.js` |"));
    try reflexivity; discriminate.
Defined.

Lemma exec_nil (pos : nat) (s : string) (g : groups) :
  exec_at [] pos s g = Some {| stop := pos; rest := s; group1 := captured g |}.
Proof. reflexivity. Qed.

Lemma free_of_head (c a : ascii) (s : string) :
  free_of c (String a s) -> Str.is_char c a = false /\ free_of c s.
Proof.
  unfold free_of. simpl. intros H. apply andb_true_iff in H as [Ha Hs].
  apply negb_true_iff in Ha. auto.
Qed.

Lemma free_of_split (c : ascii) (a b : string) :
  free_of c (a ++ b) -> free_of c a /\ free_of c b.
Proof. unfold free_of. rewrite all_append. apply andb_true_iff. Qed.

(** Text that starts with a character other than a backtick does not start
    with a fence. *)
Lemma exec_fence_fails (re : regex) (a : ascii) (s : string) (pos : nat) (g : groups) :
  Str.is_char backtick a = false ->
  exec_at (lit "```" ++ re)%list pos (String a s) g = None.
Proof. intros Ha. unfold backtick in Ha. cbn [lit app]. now rewrite exec_cls, Ha. Qed.

Lemma all_any (s : string) : Str.all Str.is_any s = true.
Proof. induction s as [|c s IH]; [reflexivity | exact IH]. Qed.

(** The pattern of the code context on its section. *)
Lemma exec_code (ws0 ws1 inner post : string) (pos : nat) :
  Str.all Str.is_space ws0 = true -> Str.all Str.is_space ws1 = true ->
  free_of backtick inner ->
  exists r,
    exec_at code_re pos
      ("##" ++ ws0 ++ "Code Context" ++ ws1
            ++ String LF ("```" ++ inner ++ "```" ++ post))
      no_groups = Some r
    /\ group1 r = Some ("```" ++ inner ++ "```").
Proof.
  intros H0 H1 Hfree.
  set (g1 := {| opened := Some ("```" ++ inner ++ "```" ++ post);
                captured := captured no_groups |}).
  exists {| stop := pos + String.length "##" + String.length ws0
                    + String.length "Code Context" + String.length ws1
                    + 1 + String.length "```" + String.length inner
                    + String.length "```";
            rest := post;
            group1 := captured (close_group g1 post) |}.
  split.
  2:{ cbn [group1 close_group g1 opened captured].
      replace ("```" ++ inner ++ "```" ++ post) with (("```" ++ inner ++ "```") ++ post)
        by (now rewrite !append_assoc).
      now rewrite take_group. }
  unfold code_re.
  apply exec_lit. eexists. split; [reflexivity|].
  cbn [app]. rewrite exec_rep.
  apply rep_greedy_run; [exact H0 | lia | reflexivity |].
  apply exec_lit. eexists. split; [reflexivity|].
  cbn [app]. rewrite exec_rep.
  apply rep_greedy_back_one; [exact H1 | reflexivity | reflexivity | reflexivity |].
  rewrite exec_rep.
  change (String LF ("```" ++ inner ++ "```" ++ post))
    with (String LF "" ++ ("```" ++ inner ++ "```" ++ post)).
  apply rep_greedy_run; [reflexivity | reflexivity | reflexivity |].
  rewrite exec_open. fold g1.
  apply exec_lit. eexists. split; [reflexivity|].
  cbn [app]. rewrite exec_rep.
  apply rep_lazy_run; [apply all_any | lia | |].
  - intros taken left Hsplit _ Hleft.
    destruct left as [|a left]; [congruence|].
    rewrite Hsplit in Hfree. apply free_of_split in Hfree as [_ Hfree].
    apply free_of_head in Hfree as [Ha _].
    rewrite append_cons. now apply exec_fence_fails.
  - apply exec_lit. eexists. split; [reflexivity|].
    rewrite exec_close, exec_nil. reflexivity.
Qed.

(** The language of a fence that names one. *)
Lemma match_fence_lang (lang rest : string) :
  lang <> "" -> Str.all Str.is_word lang = true -> run_ends Str.is_word rest ->
  match_group1 fence_lang_re ("```" ++ lang ++ rest) = Some lang.
Proof.
  intros Hne Hword Hend. unfold match_group1.
  set (g1 := {| opened := Some (lang ++ rest); captured := captured no_groups |}).
  rewrite (@search_found fence_lang_re 0 ("```" ++ lang ++ rest)
             {| stop := 0 + String.length "```" + String.length lang; rest := rest;
                group1 := captured (close_group g1 rest) |}).
  - cbn [group1 close_group g1 opened captured]. now rewrite take_group.
  - unfold fence_lang_re.
    apply exec_lit. eexists. split; [reflexivity|].
    rewrite exec_open. fold g1. rewrite exec_rep.
    apply rep_greedy_run; [exact Hword | now apply length_pos_nonempty | exact Hend |].
    rewrite exec_close, exec_nil. reflexivity.
Qed.

(** The opening fence, its language and the line feed after it are
    dropped. *)
Lemma remove_fence_open (lang rest : string) :
  Str.all Str.is_word lang = true ->
  remove_first fence_open_re ("```" ++ lang ++ String LF rest) = rest.
Proof.
  intros Hword. unfold remove_first.
  rewrite (@search_found fence_open_re 0 ("```" ++ lang ++ String LF rest)
             {| stop := S (0 + String.length "```" + String.length lang); rest := rest;
                group1 := None |}); [reflexivity|].
  unfold fence_open_re. cbn [app exec_at Nat.eqb].
  apply exec_lit. eexists. split; [reflexivity|].
  cbn [app]. rewrite exec_rep.
  apply rep_greedy_run; [exact Hword | lia | reflexivity |].
  apply exec_opt_take; [apply is_char_refl | reflexivity].
Qed.

(** The closing fence and the line feed before it are dropped. *)
Lemma remove_fence_close (code : string) :
  free_of backtick code ->
  remove_first fence_close_re (code ++ String LF "```") = code.
Proof.
  intros Hfree. unfold remove_first.
  rewrite search_pass.
  - rewrite (@search_found fence_close_re (0 + String.length code) (String LF "```")
               {| stop := S (0 + String.length code) + String.length "```"; rest := "";
                  group1 := None |}).
    + cbn [rest Nat.add]. now rewrite take_length_append, append_empty_r.
    + unfold fence_close_re. cbn [app].
      apply exec_opt_take; [apply is_char_refl|].
      apply exec_lit. exists "". split; reflexivity.
  - intros a b Hsplit Hb.
    rewrite Hsplit in Hfree. apply free_of_split in Hfree as [_ Hfree].
    destruct b as [|x b]; [congruence|].
    apply free_of_head in Hfree as [Hx Hfree].
    rewrite append_cons. unfold fence_close_re. cbn [app exec_at].
    assert (E1 : exec_at (lit "```" ++ [Eol])%list (S (0 + String.length a))
                   (b ++ String LF "```") no_groups = None).
    { destruct b as [|y b].
      - now apply exec_fence_fails.
      - apply free_of_head in Hfree as [Hy _]. rewrite append_cons.
        now apply exec_fence_fails. }
    assert (E2 : exec_at (lit "```" ++ [Eol])%list (0 + String.length a)
                   (String x (b ++ String LF "```")) no_groups = None)
      by now apply exec_fence_fails.
    fold (lit "```"). 
    change (Cls (Str.is_char "`") :: Cls (Str.is_char "`") :: Cls (Str.is_char "`") :: [Eol])
      with (lit "```" ++ [Eol])%list.
    rewrite E1, E2. now destruct (Str.is_char LF x).
Qed.

Lemma word_free_of_tick (s : string) :
  Str.all Str.is_word s = true -> free_of backtick s.
Proof.
  unfold free_of. induction s as [|c s IH]; simpl; [reflexivity|].
  intros H. apply andb_true_iff in H as [Hc H]. rewrite (IH H), andb_true_r.
  destruct (Str.is_char backtick c) eqn:E; [|reflexivity].
  apply is_char_true in E. subst c. discriminate.
Qed.

(** X13. The code context is read back from its section: for a body whose
    first heading mark opens [## Code Context], followed by a fenced block
    that names a language and whose code holds no backtick, [parseBody]
    yields the block with its fences, and the description ends with the
    heading "Code Context" and a code block of that language whose text is
    the code, without the fences. *)
Theorem code_context_round_trip
        (issue : Issue) (pre ws0 ws1 lang code post : string) :
  body issue
  = Str (pre ++ "##" ++ ws0 ++ "Code Context" ++ ws1
             ++ String LF ("```" ++ (lang ++ String LF (code ++ String LF ""))
                                 ++ "```" ++ post)) ->
  free_of "#" pre ->
  Str.all Str.is_space ws0 = true -> Str.all Str.is_space ws1 = true ->
  lang <> "" -> Str.all Str.is_word lang = true ->
  free_of backtick code ->
  exists meta,
    parseBody (body issue) = inr meta
    /\ codeBlock meta
       = Some ("```" ++ (lang ++ String LF (code ++ String LF "")) ++ "```")
    /\ skipn 4 (Adf.content (buildDescription issue meta))
       = [ Adf.heading 3 [Adf.text "Code Context" []];
           Adf.codeBlock lang [Adf.text code []] ].
Proof.
  intros Hbody Hpre H0 H1 Hlang Hword Hcode.
  set (inner := lang ++ String LF (code ++ String LF "")) in *.
  assert (Hinner : free_of backtick inner).
  { unfold inner. apply free_of_append; [now apply word_free_of_tick|].
    unfold free_of. simpl. fold (free_of backtick (code ++ String LF "")).
    apply free_of_append; [exact Hcode | reflexivity]. }
  destruct (@exec_code ws0 ws1 inner post (0 + String.length pre) H0 H1 Hinner)
    as (r & Hr & Hg).
  assert (Hm : match_group1 code_re
                 (pre ++ "##" ++ ws0 ++ "Code Context" ++ ws1
                      ++ String LF ("```" ++ inner ++ "```" ++ post))
               = Some ("```" ++ inner ++ "```")).
  { unfold match_group1.
    change code_re with (Cls (Str.is_char "#") :: List.tl code_re).
    rewrite (search_skip _ _ Hpre).
    change (Cls (Str.is_char "#") :: List.tl code_re) with code_re.
    now rewrite (@search_found _ _ _ r Hr). }
  rewrite Hbody, parseBody_string, Hm. eexists. split; [reflexivity|].
  split; [reflexivity|].
  unfold buildDescription. cbn [codeBlock if_truthy].
  change ("```" ++ inner ++ "```" =? "") with false. cbv iota.
  cbn [Adf.content skipn app].
  assert (Elang : match_group1 fence_lang_re ("```" ++ inner ++ "```") = Some lang).
  { unfold inner. rewrite append_assoc.
    apply match_fence_lang; [exact Hlang | exact Hword | reflexivity]. }
  assert (Ecode : remove_first fence_close_re
                    (remove_first fence_open_re ("```" ++ inner ++ "```")) = code).
  { unfold inner.
    replace ("```" ++ (lang ++ String LF (code ++ String LF "")) ++ "```")
      with ("```" ++ lang ++ String LF (code ++ String LF "```")).
    - rewrite remove_fence_open by exact Hword. now apply remove_fence_close.
    - rewrite !append_assoc, !append_cons, !append_assoc. reflexivity. }
  rewrite Elang, Ecode. unfold or_else.
  apply String.eqb_neq in Hlang. now rewrite Hlang.
Qed.

Lemma code_context_round_trip_witness :
  exists meta,
    parseBody (Str ("intro" ++ String LF "" ++ "## Code Context" ++ String LF ""
                      ++ "```js" ++ String LF "" ++ "sync(list);" ++ String LF ""
                      ++ "```" ++ String LF ""))
    = inr meta
    /\ codeBlock meta
       = Some ("```js" ++ String LF "" ++ "sync(list);" ++ String LF "" ++ "```")
    /\ skipn 4 (Adf.content (buildDescription issue5 meta))
       = [ Adf.heading 3 [Adf.text "Code Context" []];
           Adf.codeBlock "js" [Adf.text "sync(list);" []] ].
Proof.
  apply (@code_context_round_trip
           {| number := 5; title := title issue5;
              body := Str ("intro" ++ String LF "" ++ "## Code Context" ++ String LF ""
                             ++ "```js" ++ String LF "" ++ "sync(list);" ++ String LF ""
                             ++ "```" ++ String LF "");
              state := "open"; labels := []; html_url := html_url issue5;
              pull_request := false |}
           ("intro" ++ String LF "") " " "" "js" "sync(list);" (String LF ""));
    try reflexivity; discriminate.
Defined.

(* ------------------------------------------------------------------ *)
(** * Summaries and descriptions, further                               *)
(* ------------------------------------------------------------------ *)

Lemma trimStart_starts (s : string) : run_ends Str.is_space (Str.trimStart s).
Proof.
  induction s as [|c s IH]; simpl; [exact I|].
  destruct (Str.is_space c) eqn:Hc; [exact IH | exact Hc].
Qed.

Lemma trimEnd_starts (s : string) :
  run_ends Str.is_space s -> run_ends Str.is_space (Str.trimEnd s).
Proof.
  destruct s as [|c s]; simpl; [auto|]. intros Hc.
  destruct (Str.trimEnd s); [now rewrite Hc | exact Hc].
Qed.

Lemma take_starts (n : nat) (s : string) :
  run_ends Str.is_space s -> run_ends Str.is_space (Str.take n s).
Proof. destruct n, s; simpl; auto. Qed.

(** X16. Whatever the title, the summary has at most 255 characters and does
    not start with white space. *)
Theorem summary_of_bounds (title : string) :
  String.length (summary_of title) <= 255
  /\ run_ends Str.is_space (summary_of title).
Proof.
  split; [apply take_length|].
  unfold summary_of, Str.trim. apply take_starts, trimEnd_starts, trimStart_starts.
Qed.

Lemma summary_of_strips_first_group_witness :
  summary_of ("[" ++ "TODO" ++ "]" ++ " " ++ "[wip] tidy up ")
  = Str.take 255 (Str.trim "[wip] tidy up ").
Proof.
  apply (@summary_of_strips_first_group "TODO" " " "[wip] tidy up ");
    reflexivity.
Defined.

Lemma deriveIssueType_first_witness :
  deriveIssueType env0 [ {| name := "todo" |}; {| name := "enhancement" |};
                         {| name := "bug" |} ]
  = VString "Story".
Proof.
  apply (@deriveIssueType_first env0 [ {| name := "todo" |} ] [ {| name := "bug" |} ]
           {| name := "enhancement" |} "Story").
  - intros x [<-|[]]. split; reflexivity.
  - reflexivity.
Defined.
(* ------------------------------------------------------------------ *)
(** * The process and its exit code                                     *)
(* ------------------------------------------------------------------ *)

Lemma listing_rejections_app (t1 t2 : list Event) :
  listing_rejections (t1 ++ t2) = (listing_rejections t1 ++ listing_rejections t2)%list.
Proof. unfold listing_rejections. now rewrite map_app, filter_Boolean_app. Qed.

Lemma no_listing_rejections (t : list Event) :
  Forall (fun e => listing e = None /\ page_size e = None) t ->
  listing_rejections t = [].
Proof.
  unfold listing_rejections.
  induction 1 as [|e t [H1 _] _ IH]; simpl; [reflexivity|]. now rewrite H1.
Qed.

Section EntryPoint.

Variable World : Type.
Variable respond : forall T : Type, World -> Call T -> World * (thrown + T).
Variable clock : World -> string.
Variable env : Env.

(** [main] after its banner. *)
Lemma main_run (fuel : nat) (w : World) :
  main respond clock env fuel w
  = after (banner env)
      ((if BULK_SYNC env then
          r <- bulkSync respond clock env fuel ;;
          match r with
          | None => ret None
          | Some s =>
              say (String LF ("📊 Bulk sync complete — synced: " ++ Js.of_nat (synced s)
                                ++ ", skipped: " ++ Js.of_nat (skipped s)
                                ++ ", failed: " ++ Js.of_nat (failed s))) ;;
              if Nat.ltb 0 (failed s) then ret (Some (ProcessExit 1))
              else ret (Some Returned)
          end
        else
          match if_truthy (GH_ISSUE_NUMBER env) with
          | None => throw (Error "GH_ISSUE_NUMBER required for single-issue sync")
          | Some text =>
              match parseInt10 text with
              | Some issueNumber =>
                  syncIssue respond clock env issueNumber ;; ret (Some Returned)
              | None => ret None
              end
          end) w).
Proof.
  unfold main. rewrite !bind_say, !after_after. reflexivity.
Qed.

(** X28. In single-issue mode without an issue number -- [GH_ISSUE_NUMBER]
    unset or empty -- the script calls nothing: it prints its banner and
    ends with exit code 1 and the message that the number is required. *)
Theorem single_mode_requires_issue_number (fuel : nat) (w : World) :
  BULK_SYNC env = false ->
  if_truthy (GH_ISSUE_NUMBER env) = None ->
  let o := entry_point respond clock env fuel w in
  result o = inr (Some {| exit_code := 1;
                          fatal := Some "GH_ISSUE_NUMBER required for single-issue sync" |})
  /\ events o = banner env
  /\ final o = w.
Proof.
  intros Hbulk Hnum o. subst o. unfold entry_point.
  rewrite try_catch_run, bind_run, main_run, Hbulk, Hnum.
  cbn [after throw result events final ret app]. rewrite !app_nil_r. auto.
Qed.

(** X29. In single-issue mode the script runs [syncIssue] once, on the number
    read from [GH_ISSUE_NUMBER], and nothing else after its banner; it
    ends with exit code 0 when that run returns, and with exit code 1 and
    the message of the error when it throws. *)
Theorem single_mode_runs_syncIssue (fuel : nat) (w : World) (text : string) (n : nat) :
  BULK_SYNC env = false ->
  if_truthy (GH_ISSUE_NUMBER env) = Some text ->
  parseInt10 text = Some n ->
  let o := entry_point respond clock env fuel w in
  let run := syncIssue respond clock env n w in
  events o = (banner env ++ events run)%list
  /\ final o = final run
  /\ result o
     = inr (Some match result run with
                 | inr _ => {| exit_code := 0; fatal := None |}
                 | inl e => {| exit_code := 1; fatal := Some (message_of e) |}
                 end).
Proof.
  intros Hbulk Hnum Hparse o run. subst o run. unfold entry_point.
  rewrite try_catch_run, bind_run, main_run, Hbulk, Hnum, Hparse, bind_run.
  destruct (result (syncIssue respond clock env n w)) as [e|r];
    cbn [after throw result events final ret app]; rewrite ?app_nil_r; auto.
Qed.

Lemma failure_lines_called {T : Type} (c : Call T) (r : thrown + T) :
  failure_lines [Called c r] = 0.
Proof. reflexivity. Qed.

Lemma failure_lines_cons_quiet (e : Event) (t : list Event) :
  is_failure_line e = false -> failure_lines (e :: t) = failure_lines t.
Proof. intros H. unfold failure_lines. simpl. now rewrite H. Qed.

Lemma banner_is_quiet : failure_lines (banner env) = 0.
Proof. reflexivity. Qed.

Lemma bulkSync_from_failed (fuel : nat) :
  forall (page : nat) (s : Summary) (w : World) (s' : Summary),
    result (bulkSync_from respond clock env fuel page s w) = inr (Some s') ->
    failed s' = failed s
                + failure_lines (events (bulkSync_from respond clock env fuel page s w)).
Proof.
  induction fuel as [|fuel IH]; intros page s w s'; [discriminate|].
  cbn [bulkSync_from]. rewrite bind_call.
  destruct (snd (respond w (issues_listForRepo "open" 100 page))) as [e|issues];
    [discriminate|].
  destruct (Nat.eqb (List.length issues) 0).
  { intros [= <-]. cbn [after events ret app]. rewrite failure_lines_called. lia. }
  rewrite bind_run.
  destruct (bulkSync_page_spec respond clock env issues s
              (fst (respond w (issues_listForRepo "open" 100 page))))
    as (s1 & Hres & _ & _ & _ & Hfailed & _).
  rewrite Hres.
  destruct (Nat.ltb (List.length issues) 100).
  - intros [= <-]. cbn [after events ret].
    rewrite !failure_lines_app, failure_lines_called, Hfailed.
    change (failure_lines []) with 0. lia.
  - intros H. cbn [after events result] in *. apply IH in H.
    rewrite !failure_lines_app, failure_lines_called, H, Hfailed. lia.
Qed.

(** The paging loop throws exactly what a request for a page was rejected
    with, and no run has more than one rejected request. *)
Lemma bulkSync_from_listing_rejections (fuel : nat) :
  forall (page : nat) (s : Summary) (w : World),
    listing_rejections (events (bulkSync_from respond clock env fuel page s w))
    = match result (bulkSync_from respond clock env fuel page s w) with
      | inl e => [e]
      | inr _ => []
      end.
Proof.
  induction fuel as [|fuel IH]; intros page s w; [reflexivity|].
  cbn [bulkSync_from]. rewrite bind_call.
  destruct (snd (respond w (issues_listForRepo "open" 100 page))) as [e|issues];
    [reflexivity|].
  destruct (Nat.eqb (List.length issues) 0); [reflexivity|].
  rewrite bind_run.
  set (w1 := fst (respond w (issues_listForRepo "open" 100 page))).
  destruct (bulkSync_page_spec respond clock env issues s w1) as (s1 & Hres & _).
  pose proof (no_listing_rejections
                (@bulkSync_page_no_listing World respond clock env issues s w1)) as Hq.
  rewrite Hres.
  destruct (Nat.ltb (List.length issues) 100).
  - cbn [after events result ret]. rewrite !listing_rejections_app, Hq. reflexivity.
  - cbn [after events result]. rewrite !listing_rejections_app, Hq, IH. reflexivity.
Qed.

(** The paging loop is still going after [fuel] pages only when each of
    them was full. *)
Lemma bulkSync_from_out_of_fuel (fuel : nat) :
  forall (page : nat) (s : Summary) (w : World),
    result (bulkSync_from respond clock env fuel page s w) = inr None ->
    List.length (page_sizes (events (bulkSync_from respond clock env fuel page s w)))
    = fuel
    /\ Forall (fun n => 100 <= n)
         (page_sizes (events (bulkSync_from respond clock env fuel page s w))).
Proof.
  induction fuel as [|fuel IH]; intros page s w.
  { intros _. split; [reflexivity | constructor]. }
  cbn [bulkSync_from]. rewrite bind_call.
  destruct (snd (respond w (issues_listForRepo "open" 100 page))) as [e|issues];
    [discriminate|].
  destruct (Nat.eqb (List.length issues) 0); [discriminate|].
  rewrite bind_run.
  set (w1 := fst (respond w (issues_listForRepo "open" 100 page))).
  destruct (bulkSync_page_spec respond clock env issues s w1) as (s1 & Hres & _).
  destruct (no_listing (@bulkSync_page_no_listing World respond clock env issues s w1))
    as [_ Hq].
  rewrite Hres.
  destruct (Nat.ltb (List.length issues) 100) eqn:Hshort; [discriminate|].
  apply Nat.ltb_ge in Hshort.
  cbn [after events result]. intros Hr. destruct (IH _ _ _ Hr) as [Hlen Hall].
  rewrite !page_sizes_app, Hq. cbn [app].
  change (page_sizes [Called (issues_listForRepo "open" 100 page) (inr issues)])
    with [List.length issues].
  cbn [app List.length]. split; [now rewrite Hlen | now constructor].
Qed.

(** X30. In bulk mode the script never throws: the process ends, or the
    paging loop is still going after [fuel] pages, each of them full.  When
    it ends, the message after [Fatal:] is the message of a rejected request
    for a page and there is one exactly when such a request was rejected;
    that request is then the last event of the run; and the exit code is 0
    exactly when no issue failed and no request for a page was rejected,
    and 1 otherwise. *)
Theorem bulk_mode_exit_code (fuel : nat) (w : World) :
  BULK_SYNC env = true ->
  let o := entry_point respond clock env fuel w in
  (exists x,
      result o = inr (Some x)
      /\ fatal x = match listing_rejections (events o) with
                   | [] => None
                   | e :: _ => Some (message_of e)
                   end
      /\ (exit_code x = 0
          <-> failure_lines (events o) = 0 /\ listing_rejections (events o) = [])
      /\ (exit_code x = 0 \/ exit_code x = 1)
      /\ (forall e, In e (listing_rejections (events o)) ->
            exists t page,
              events o
              = (t ++ [Called (issues_listForRepo "open" 100 page) (inl e)])%list))
  \/ (result o = inr None
      /\ List.length (page_sizes (events o)) = fuel
      /\ Forall (fun n => 100 <= n) (page_sizes (events o))).
Proof.
  intros Hbulk o. subst o. unfold entry_point.
  rewrite try_catch_run, bind_run, main_run, Hbulk.
  unfold bulkSync. rewrite bind_assoc_run, bind_say, bind_run.
  pose proof (@bulkSync_from_failed fuel 1
                {| synced := 0; skipped := 0; failed := 0 |} w) as Hfailed.
  pose proof (@bulkSync_from_rejected World respond clock env fuel 1
                {| synced := 0; skipped := 0; failed := 0 |} w) as Hrej.
  pose proof (@bulkSync_from_listing_rejections fuel 1
                {| synced := 0; skipped := 0; failed := 0 |} w) as Hlr.
  pose proof (@bulkSync_from_out_of_fuel fuel 1
                {| synced := 0; skipped := 0; failed := 0 |} w) as Hout.
  set (ob := bulkSync_from respond clock env fuel 1
               {| synced := 0; skipped := 0; failed := 0 |} w) in *.
  set (start := Logged [LText "🔍 Bulk sync — fetching all open issues without a jira: label..."]).
  destruct (result ob) as [e|[s|]] eqn:Hr.
  - left. destruct (Hrej e eq_refl) as (t & page & Ht).
    cbn [after throw result events final ret app]. rewrite !app_nil_r.
    exists {| exit_code := 1; fatal := Some (message_of e) |}.
    assert (Hl : listing_rejections (banner env ++ start :: events ob) = [e]).
    { change (start :: events ob) with ([start] ++ events ob)%list.
      now rewrite !listing_rejections_app, Hlr. }
    rewrite Hl. cbn [exit_code fatal].
    split; [reflexivity|]. split; [reflexivity|].
    split; [split; [discriminate | intros [_ H]; discriminate]|].
    split; [now right|].
    intros e' [<-|[]]. exists (banner env ++ start :: t)%list, page.
    rewrite Ht. cbn [banner app]. reflexivity.
  - left. specialize (Hfailed s eq_refl). cbn [failed] in Hfailed.
    rewrite bind_say.
    set (done := Logged [LText (String LF ("📊 Bulk sync complete — synced: "
                                             ++ of_nat (synced s) ++ ", skipped: "
                                             ++ of_nat (skipped s) ++ ", failed: "
                                             ++ of_nat (failed s)))]).
    assert (Hl : listing_rejections (banner env ++ start :: events ob ++ [done]) = []).
    { change (start :: events ob ++ [done]) with ([start] ++ events ob ++ [done])%list.
      now rewrite !listing_rejections_app, Hlr. }
    assert (Hf : failure_lines (banner env ++ start :: events ob ++ [done]) = failed s).
    { rewrite failure_lines_app, banner_is_quiet,
        failure_lines_cons_quiet, failure_lines_app, failure_lines_cons_quiet
        by reflexivity.
      change (failure_lines []) with 0. lia. }
    destruct (Nat.ltb 0 (failed s)) eqn:Hpos;
      cbn [after throw result events final ret app]; rewrite ?app_nil_r;
      eexists; (split; [reflexivity|]); cbn [exit_code fatal]; rewrite Hl, Hf;
      [apply Nat.ltb_lt in Hpos | apply Nat.ltb_ge in Hpos].
    + split; [reflexivity|].
      split; [split; [discriminate | intros [H _]; lia]|].
      split; [now right | intros e []].
    + split; [reflexivity|].
      split; [split; [intros _; split; [lia | reflexivity] | reflexivity]|].
      split; [now left | intros e []].
  - right. destruct (Hout eq_refl) as [Hlen Hall].
    cbn [after throw result events final ret app]. rewrite !app_nil_r.
    split; [reflexivity|].
    assert (Hp : page_sizes (banner env ++ start :: events ob) = page_sizes (events ob)).
    { change (start :: events ob) with ([start] ++ events ob)%list.
      now rewrite !page_sizes_app. }
    rewrite Hp. auto.
Qed.

End EntryPoint.

Lemma single_mode_requires_issue_number_witness :
  result (entry_point Sim.respond Sim.clock env0_no_number 1 world0)
  = inr (Some {| exit_code := 1;
                 fatal := Some "GH_ISSUE_NUMBER required for single-issue sync" |})
  /\ events (entry_point Sim.respond Sim.clock env0_no_number 1 world0)
     = banner env0_no_number
  /\ final (entry_point Sim.respond Sim.clock env0_no_number 1 world0) = world0.
Proof.
  apply (@single_mode_requires_issue_number Sim.World Sim.respond Sim.clock
           env0_no_number 1 world0); reflexivity.
Defined.

Lemma single_mode_runs_syncIssue_witness :
  events (entry_point Sim.respond Sim.clock env0 1 world0)
  = (banner env0 ++ events (Sim.syncIssue env0 1 world0))%list
  /\ final (entry_point Sim.respond Sim.clock env0 1 world0)
     = final (Sim.syncIssue env0 1 world0)
  /\ result (entry_point Sim.respond Sim.clock env0 1 world0)
     = inr (Some match result (Sim.syncIssue env0 1 world0) with
                 | inr _ => {| exit_code := 0; fatal := None |}
                 | inl e => {| exit_code := 1; fatal := Some (message_of e) |}
                 end).
Proof.
  apply (@single_mode_runs_syncIssue Sim.World Sim.respond Sim.clock env0 1 world0
           "1" 1); reflexivity.
Defined.

Lemma bulk_mode_exit_code_witness :
  exists x,
    result (entry_point Sim.respond Sim.clock env0_bulk 2 world0) = inr (Some x)
    /\ exit_code x = 1 /\ fatal x = None.
Proof.
  destruct (@bulk_mode_exit_code Sim.World Sim.respond Sim.clock env0_bulk 2 world0
              eq_refl) as [(x & Hr & Hfatal & _) | (Hnone & _)].
  - exists x. split; [exact Hr|]. split; [|exact Hfatal].
    vm_compute in Hr. now injection Hr as <-.
  - vm_compute in Hnone. discriminate.
Defined.

(** [parseInt] reads the digits in front and ignores what follows them;
    the reference run in bulk mode ends with exit code 1, for the issue
    without a body. *)
Example entry_point_examples :
  parseInt10 " 42abc" = Some 42
  /\ parseInt10 "abc" = None
  /\ result (entry_point Sim.respond Sim.clock env0_bulk 2 world0)
     = inr (Some {| exit_code := 1; fatal := None |}).
Proof. repeat split. Qed.
